(** * openhab_crawler: the index builder [build_items_index]

    A shallow embedding of [scripts/openhab_crawler.py], function
    [build_items_index] (lines 107-224), and the properties of the flat
    index and of the Location -> Equipment -> Point forest it builds;
    then the functions around it: [make_headers], [fetch_rest_root],
    [find_link], [fetch_items] and [main].

    Modelling conventions.
    - An item record is a typed record: every field read with [it.get]
      is an [option] ([None]: key missing or JSON null).
    - [items_by_name], [locations] and [equipment] are Python dicts that
      are iterated: they are insertion-ordered association lists
      ([odict]); overwriting a key keeps its position.
    - [location_nodes] and [equipment_nodes] are only looked up and
      updated, never iterated: they are [gmap]s.
    - Node objects are shared and mutated in place.  A location node is
      identified with its key in [location_nodes] (one node is created
      per key), an equipment node with its key in the store
      [equipment_store] (one node is created per key of [equipment]);
      lists of nodes hold these references.
    - A subscript [d[k]] on a missing key raises [KeyError]; the recursive
      traversal is bounded by fuel and raises [RecursionError] when the
      fuel runs out.
    - The coroutines are awaited one after the other: a run is a
      computation that logs its requests, the files it writes and the
      messages it prints, and ends with a value or an exception.  The
      environment variables, [urljoin], the server, the opening of a
      file and [json.dump] are parameters of the run; a decoded
      response is a typed record, as an item is. *)

From Stdlib Require Import Ascii.
From stdpp Require Import base strings list gmap.

Open Scope string_scope.
Open Scope list_scope.
Open Scope nat_scope.
Set Warnings "-clear-no-such-hyp".

(** ** Python strings *)

Module PyStr.

(** [s.endswith(suffix)]: some tail of [s] is [suffix]. *)
Fixpoint endswith (s suffix : string) : bool :=
  if String.eqb s suffix then true
  else match s with
       | EmptyString => false
       | String _ s' => endswith s' suffix
       end.

(** Truth value of a string: non-empty. *)
Definition truthy (s : string) : bool := negb (String.eqb s "").

End PyStr.

(** ** Exceptions *)

Inductive exn : Type :=
| KeyError (key : string)
| RecursionError.

Inductive res (A : Type) : Type :=
| Ok (a : A)
| Raise (e : exn).
Arguments Ok {A} a.
Arguments Raise {A} e.

#[global] Instance res_ret : MRet res := λ A a, Ok a.
#[global] Instance res_bind : MBind res := λ A B f m,
  match m with
  | Ok a => f a
  | Raise e => Raise e
  end.

(** [for x in l: s = f(s, x)] with exceptions. *)
Fixpoint foldM {S X : Type} (f : S → X → res S) (l : list X) (s : S) : res S :=
  match l with
  | [] => Ok s
  | x :: l' => s' ← f s x; foldM f l' s'
  end.

(** ** Insertion-ordered dicts *)

Abbreviation odict V := (list (string * V)).

Section ops.
Context {V : Type}.

(** [d.get(k)] *)
Fixpoint od_get (k : string) (d : odict V) : option V :=
  match d with
  | [] => None
  | (k', v) :: d' => if decide (k = k') then Some v else od_get k d'
  end.

(** [d[k] = v]: overwrite in place, or append a new key. *)
Fixpoint od_set (k : string) (v : V) (d : odict V) : odict V :=
  match d with
  | [] => [(k, v)]
  | (k', v') :: d' =>
      if decide (k = k') then (k, v) :: d' else (k', v') :: od_set k v d'
  end.

(** [d.keys()] *)
Definition od_keys (d : odict V) : list string := d.*1.

End ops.

(** ** Data model *)

(** A raw item record, as read by [it.get(...)]. *)
Record Item : Type := mkItem {
  it_name : option string;
  it_label : option string;
  it_type : option string;
  it_category : option string;
  it_tags : option (list string);
  it_groupNames : option (list string);
  it_metadata : option (list (string * string));
}.

(** The ["semantic"] sub-dict of a flat-index entry. *)
Record Semantic : Type := mkSemantic {
  isLocation : bool;
  isEquipment : bool;
  isPoint : bool;
  propertyTags : list string;
}.

(** A value of [items_by_name]. *)
Record Entry : Type := mkEntry {
  name : string;
  label : option string;
  type : option string;
  category : option string;
  tags : list string;
  groupNames : list string;
  metadata : list (string * string);
  semantic : Semantic;
  rest_url : string;
}.

(** A value of [locations] or [equipment]: [{name, tags, groupNames}]. *)
Record Aux : Type := mkAux {
  aux_name : string;
  aux_tags : list string;
  aux_groupNames : list string;
}.

(** ** Tag classifier (lines 126-132) *)

Definition is_location (tags : list string) : bool :=
  existsb (λ t, PyStr.endswith t "Location" || String.eqb t "Location") tags.

Definition is_equipment (tags : list string) : bool :=
  existsb (λ t, PyStr.endswith t "Equipment" || String.eqb t "Equipment") tags.

Definition is_point (tags : list string) : bool :=
  existsb (λ t, PyStr.endswith t "Point" || String.eqb t "Point") tags.

(** [[t for t in tags if t not in ("Location", "Equipment", "Point")]] *)
Definition property_tags (tags : list string) : list string :=
  List.filter
    (λ t, negb (existsb (String.eqb t) ["Location"; "Equipment"; "Point"]))
    tags.

Definition classify (tags : list string) : Semantic :=
  {| isLocation := is_location tags;
     isEquipment := is_equipment tags;
     isPoint := is_point tags;
     propertyTags := property_tags tags |}.

(** ** Flat index builder (lines 113-155) *)

Record Index : Type := mkIndex {
  items_by_name : odict Entry;
  locations : odict Aux;
  equipment : odict Aux;
}.

(** [x or []] for an optional list. *)
Definition or_empty {A : Type} (x : option (list A)) : list A :=
  match x with
  | Some (a :: l) => a :: l
  | Some [] | None => []
  end.

Definition make_entry (nm : string) (it : Item) : Entry :=
  let tags := or_empty (it_tags it) in
  {| name := nm;
     label := it_label it;
     type := it_type it;
     category := it_category it;
     tags := tags;
     groupNames := or_empty (it_groupNames it);
     metadata := or_empty (it_metadata it);
     semantic := classify tags;
     rest_url := "/rest/items/" +:+ nm |}.

Definition make_aux (nm : string) (it : Item) : Aux :=
  {| aux_name := nm;
     aux_tags := or_empty (it_tags it);
     aux_groupNames := or_empty (it_groupNames it) |}.

(** One iteration of [for it in items] (lines 117-155). *)
Definition index_step (st : Index) (it : Item) : Index :=
  match it_name it with
  | None => st
  | Some nm =>
      if PyStr.truthy nm then
        let tags := or_empty (it_tags it) in
        {| items_by_name := od_set nm (make_entry nm it) (items_by_name st);
           locations :=
             if is_location tags then od_set nm (make_aux nm it) (locations st)
             else locations st;
           equipment :=
             if is_equipment tags then od_set nm (make_aux nm it) (equipment st)
             else equipment st |}
      else st
  end.

Definition empty_index : Index :=
  {| items_by_name := []; locations := []; equipment := [] |}.

Definition flat_index (items : list Item) : Index :=
  fold_left index_step items empty_index.

(** ** Hierarchy assembler (lines 157-217) *)

(** A location node object (lines 163-168); the lists hold references. *)
Record LocationCell : Type := mkLocationCell {
  loc_item : string;
  loc_children_locations : list string;
  loc_equipment : list string;
  loc_points : list string;
}.

(** An equipment node object [{"item": eq_name, "points": []}] (line 187);
    a point reference [{"item": name}] is its name. *)
Record EquipmentCell : Type := mkEquipmentCell {
  eq_item : string;
  eq_points : list string;
}.

(** The state of the assembler: the list [semantic_tree["locations"]] of
    root references, the dict [location_nodes] (which is also the store of
    the location node objects), the store of the equipment node objects,
    and the dict [equipment_nodes] from an item name to the reference of
    its equipment node. *)
Record Forest : Type := mkForest {
  semantic_tree : list string;
  location_nodes : gmap string LocationCell;
  equipment_store : gmap string EquipmentCell;
  equipment_nodes : gmap string string;
}.

Definition set_semantic_tree (roots : list string) (st : Forest) : Forest :=
  {| semantic_tree := roots;
     location_nodes := location_nodes st;
     equipment_store := equipment_store st;
     equipment_nodes := equipment_nodes st |}.

Definition set_location_nodes (nodes : gmap string LocationCell)
    (st : Forest) : Forest :=
  {| semantic_tree := semantic_tree st;
     location_nodes := nodes;
     equipment_store := equipment_store st;
     equipment_nodes := equipment_nodes st |}.

Definition set_equipment_store (store : gmap string EquipmentCell)
    (st : Forest) : Forest :=
  {| semantic_tree := semantic_tree st;
     location_nodes := location_nodes st;
     equipment_store := store;
     equipment_nodes := equipment_nodes st |}.

Definition set_equipment_nodes (nodes : gmap string string)
    (st : Forest) : Forest :=
  {| semantic_tree := semantic_tree st;
     location_nodes := location_nodes st;
     equipment_store := equipment_store st;
     equipment_nodes := nodes |}.

(** [d[k]], raising [KeyError] on a missing key; also the read of a node
    object through its reference. *)
Definition subscript {V : Type} (d : gmap string V) (k : string) : res V :=
  match d !! k with
  | Some v => Ok v
  | None => Raise (KeyError k)
  end.

Definition new_location_node (loc_name : string) : LocationCell :=
  {| loc_item := loc_name;
     loc_children_locations := [];
     loc_equipment := [];
     loc_points := [] |}.

(** Lines 162-168: one node per key of [locations]. *)
Definition create_location_nodes (locations : odict Aux)
  : gmap string LocationCell :=
  fold_left (λ nodes kv, <[kv.1 := new_location_node kv.1]> nodes)
            locations ∅.

(** [[g for g in group_names if g in nodes]] *)
Definition parent_candidates {V : Type} (nodes : gmap string V)
    (group_names : list string) : list string :=
  filter (λ g, is_Some (nodes !! g)) group_names.

Definition append_child (child : string) (c : LocationCell) : LocationCell :=
  {| loc_item := loc_item c;
     loc_children_locations := loc_children_locations c ++ [child];
     loc_equipment := loc_equipment c;
     loc_points := loc_points c |}.

Definition append_equipment (eq : string) (c : LocationCell) : LocationCell :=
  {| loc_item := loc_item c;
     loc_children_locations := loc_children_locations c;
     loc_equipment := loc_equipment c ++ [eq];
     loc_points := loc_points c |}.

Definition append_loc_point (p : string) (c : LocationCell) : LocationCell :=
  {| loc_item := loc_item c;
     loc_children_locations := loc_children_locations c;
     loc_equipment := loc_equipment c;
     loc_points := loc_points c ++ [p] |}.

Definition append_eq_point (p : string) (c : EquipmentCell) : EquipmentCell :=
  {| eq_item := eq_item c; eq_points := eq_points c ++ [p] |}.

(** One iteration of the loop of lines 171-178. *)
Definition assign_location (st : Forest) (kv : string * Aux) : res Forest :=
  let '(loc_name, loc) := kv in
  let parent_locations :=
    parent_candidates (location_nodes st) (aux_groupNames loc) in
  match parent_locations with
  | [] =>
      _ ← subscript (location_nodes st) loc_name;
      Ok (set_semantic_tree (semantic_tree st ++ [loc_name]) st)
  | parent :: _ =>
      parent_node ← subscript (location_nodes st) parent;
      _ ← subscript (location_nodes st) loc_name;
      Ok (set_location_nodes
            (<[parent := append_child loc_name parent_node]>
               (location_nodes st)) st)
  end.

(** One iteration of the loop of lines 181-187. *)
Definition assign_equipment (st : Forest) (kv : string * Aux) : res Forest :=
  let '(eq_name, eq) := kv in
  let parent_locations :=
    parent_candidates (location_nodes st) (aux_groupNames eq) in
  match parent_locations with
  | [] => Ok st
  | parent :: _ =>
      parent_node ← subscript (location_nodes st) parent;
      Ok (set_location_nodes
            (<[parent := append_equipment eq_name parent_node]>
               (location_nodes st))
            (set_equipment_store
               (<[eq_name := {| eq_item := eq_name; eq_points := [] |}]>
                  (equipment_store st)) st))
  end.

(** Line 193: [equipment_nodes[eq["item"]] = eq]. *)
Definition register_equipment (st : Forest) (eq : string) : res Forest :=
  c ← subscript (equipment_store st) eq;
  Ok (set_equipment_nodes (<[eq_item c := eq]> (equipment_nodes st)) st).

(** [collect_equipment_nodes] (lines 191-195). *)
Fixpoint collect_equipment_nodes (fuel : nat) (st : Forest)
    (loc_node : string) : res Forest :=
  match fuel with
  | 0 => Raise RecursionError
  | S fuel' =>
      node ← subscript (location_nodes st) loc_node;
      st ← foldM register_equipment (loc_equipment node) st;
      foldM (collect_equipment_nodes fuel') (loc_children_locations node) st
  end.

(** [next((g for g in group_names if g in nodes), None)] *)
Definition next_in {V : Type} (nodes : gmap string V)
    (group_names : list string) : option string :=
  head (filter (λ g, is_Some (nodes !! g)) group_names).

(** [if parent:] for [parent] a string or [None]. *)
Definition found (parent : option string) : option string :=
  match parent with
  | Some g => if PyStr.truthy g then Some g else None
  | None => None
  end.

(** One iteration of the loop of lines 201-217. *)
Definition assign_point (st : Forest) (kv : string * Entry) : res Forest :=
  let '(name, it) := kv in
  if negb (isPoint (semantic it)) then Ok st
  else
    let group_names := groupNames it in
    match found (next_in (equipment_nodes st) group_names) with
    | Some parent_eq =>
        eq ← subscript (equipment_nodes st) parent_eq;
        c ← subscript (equipment_store st) eq;
        Ok (set_equipment_store
              (<[eq := append_eq_point name c]> (equipment_store st)) st)
    | None =>
        match found (next_in (location_nodes st) group_names) with
        | Some parent_loc =>
            node ← subscript (location_nodes st) parent_loc;
            Ok (set_location_nodes
                  (<[parent_loc := append_loc_point name node]>
                     (location_nodes st)) st)
        | None => Ok st
        end
    end.

(** Lines 157-217: the hierarchy assembler. *)
Definition assemble (fuel : nat) (idx : Index) : res Forest :=
  let st := {| semantic_tree := [];
               location_nodes := create_location_nodes (locations idx);
               equipment_store := ∅;
               equipment_nodes := ∅ |} in
  st ← foldM assign_location (locations idx) st;
  st ← foldM assign_equipment (equipment idx) st;
  st ← foldM (collect_equipment_nodes fuel) (semantic_tree st) st;
  foldM assign_point (items_by_name idx) st.

(** Lines 113-217: everything up to the [return]. *)
Definition build_graph (fuel : nat) (items : list Item)
  : res (Index * Forest) :=
  let idx := flat_index items in
  st ← assemble fuel idx;
  Ok (idx, st).

(** ** The returned value, read as a tree *)

Record EquipmentNode : Type := mkEquipmentNode {
  en_item : string;
  en_points : list string;
}.

#[warnings="-register-all"]
Inductive LocationNode : Type :=
| mkLocationNode (item : string) (children_locations : list LocationNode)
    (equipment : list EquipmentNode) (points : list string).

(** [[f(x) for x in l]] with exceptions. *)
Fixpoint mapM {X Y : Type} (f : X → res Y) (l : list X) : res (list Y) :=
  match l with
  | [] => Ok []
  | x :: l' => y ← f x; ys ← mapM f l'; Ok (y :: ys)
  end.

Definition read_equipment (st : Forest) (eq : string) : res EquipmentNode :=
  c ← subscript (equipment_store st) eq;
  Ok {| en_item := eq_item c; en_points := eq_points c |}.

Fixpoint read_location (fuel : nat) (st : Forest) (loc_node : string)
  : res LocationNode :=
  match fuel with
  | 0 => Raise RecursionError
  | S fuel' =>
      node ← subscript (location_nodes st) loc_node;
      children ← mapM (read_location fuel' st) (loc_children_locations node);
      eqs ← mapM (read_equipment st) (loc_equipment node);
      Ok (mkLocationNode (loc_item node) children eqs (loc_points node))
  end.

(** The returned dict [{"items_by_name": ..., "semantic_tree": ...}]. *)
Record Output : Type := mkOutput {
  out_items_by_name : odict Entry;
  out_semantic_tree : list LocationNode;
}.

Definition build_items_index (fuel : nat) (items : list Item) : res Output :=
  '(idx, st) ← build_graph fuel items;
  trees ← mapM (read_location fuel st) (semantic_tree st);
  Ok {| out_items_by_name := items_by_name idx;
        out_semantic_tree := trees |}.

(** ** Requests, the REST root and the runner (lines 23-104, 227-241) *)

(** [s.rstrip(c)] for a single character [c]. *)
Fixpoint rstrip (c : Ascii.ascii) (s : string) : string :=
  match s with
  | EmptyString => EmptyString
  | String a s' =>
      match rstrip c s' with
      | EmptyString =>
          if Ascii.eqb a c then EmptyString else String a EmptyString
      | String b r => String a (String b r)
      end
  end.

(** [make_headers] (lines 23-27); [TOKEN] is what [os.getenv] gave. *)
Definition make_headers (TOKEN : option string) : odict string :=
  let headers := [("Accept", "application/json")] in
  match TOKEN with
  | Some token =>
      if PyStr.truthy token
      then od_set "Authorization" ("Bearer " +:+ token) headers
      else headers
  | None => headers
  end.

(** An element of ["links"], as read by [link.get(...)]. *)
Record Link : Type := mkLink {
  link_type : option string;
  link_url : option string;
}.

(** A JSON value that is only passed on ([JNull] is Python's [None];
    a number is kept as its literal). *)
#[warnings="-register-all"]
Inductive Json : Type :=
| JNull
| JBool (b : bool)
| JNumber (literal : string)
| JString (s : string)
| JArray (values : list Json)
| JObject (fields : list (string * Json)).

(** The payload of [/rest/] and the enriched root built from it.  The
    first five fields are what [root_data.get(key)] gives, [JNull] for a
    missing key; [links] and [endpoint_map] are [None] when the key is
    missing. *)
Record Root : Type := mkRoot {
  version : Json;
  locale : Json;
  measurementSystem : Json;
  timezone : Json;
  runtimeInfo : Json;
  links : option (list Link);
  endpoint_map : option (odict string);
}.

(** [x and y] as a condition, for optional strings. *)
Definition both_truthy (x y : option string) : bool :=
  match x, y with
  | Some a, Some b => PyStr.truthy a && PyStr.truthy b
  | _, _ => false
  end.

(** One iteration of the loop of lines 54-58. *)
Definition endpoint_step (endpoint_map : odict string) (link : Link)
  : odict string :=
  match link_type link, link_url link with
  | Some ltype, Some url =>
      if PyStr.truthy ltype && PyStr.truthy url
      then od_set ltype url endpoint_map
      else endpoint_map
  | _, _ => endpoint_map
  end.

Definition build_endpoint_map (lks : list Link) : odict string :=
  fold_left endpoint_step lks [].

(** Lines 52-69: [rest_root_enriched] from [root_data]. *)
Definition enrich (root_data : Root) : Root :=
  {| version := version root_data;
     locale := locale root_data;
     measurementSystem := measurementSystem root_data;
     timezone := timezone root_data;
     runtimeInfo := runtimeInfo root_data;
     links := Some (default [] (links root_data));
     endpoint_map := Some (build_endpoint_map (default [] (links root_data)))
  |}.

(** [find_link] (lines 79-91). *)
Definition find_link (root : Root) (ltype : string) : option string :=
  let emap := default [] (endpoint_map root) in
  match od_get ltype emap with
  | Some url => Some url
  | None =>
      match head (filter (λ link, link_type link = Some ltype)
                         (default [] (links root))) with
      | Some link => link_url link
      | None => None
      end
  end.

(** What a run does to the outside: requests, files opened for writing
    and written with [json.dump], messages printed.  A timeout is in
    seconds. *)
Inductive OutFile : Type := REST_ROOT_FILE | RAW_ITEMS_FILE | INDEX_FILE.

Inductive Payload : Type :=
| RootJson (root : Root)
| ItemsJson (items : list Item)
| IndexJson (index : Output).

Inductive Event : Type :=
| Requested (url : string) (headers : odict string) (timeout : nat)
| Opened (file : OutFile)
| Dumped (file : OutFile) (content : Payload)
| Printed (msg : string) (file : OutFile).

(** The exceptions of a run: the two [RuntimeError]s of the script, an
    exception of the request ([client.get], [raise_for_status],
    [resp.json]), of opening a file, of [json.dump] into the open file
    (or of closing it), or of [build_items_index]. *)
Inductive Failure : Type :=
| RuntimeError (msg : string)
| RequestError (detail : string)
| OpenError (detail : string)
| DumpError (detail : string)
| BuildError (e : exn).

(** A computation with effects: the events so far, then a value or the
    exception that ended it. *)
Inductive io (A : Type) : Type :=
| Io (log : list Event) (result : Failure + A).
Arguments Io {A} log result.

Definition io_log {A : Type} (m : io A) : list Event :=
  match m with Io log _ => log end.

Definition io_result {A : Type} (m : io A) : Failure + A :=
  match m with Io _ result => result end.

#[global] Instance io_ret : MRet io := λ A a, Io [] (inr a).
#[global] Instance io_bind : MBind io := λ A B f m,
  match m with
  | Io log (inr a) =>
      match f a with Io log' result => Io (log ++ log') result end
  | Io log (inl e) => Io log (inl e)
  end.

Definition io_raise {A : Type} (e : Failure) : io A := Io [] (inl e).

Definition emit (ev : Event) : io unit := Io [ev] (inr tt).

Definition lift_build {A : Type} (r : res A) : io A :=
  match r with
  | Ok a => Io [] (inr a)
  | Raise e => Io [] (inl (BuildError e))
  end.

Section runner.

(** The environment: the two variables read with [os.getenv],
    [urllib.parse.urljoin], the server behind [client.get] (an exception
    or the decoded body, per request), [file.open("w")] (an exception,
    or [None]: the file is created or truncated), and [json.dump] into
    the open file (an exception, which may depend on the content, as the
    recursion of the encoder does, or [None]: the content is written). *)
Variables BASE_URL TOKEN : option string.
Variable urljoin : string → string → string.
Variable server_root : string → odict string → string + Root.
Variable server_items : string → odict string → string + list Item.
Variable open_file : OutFile → option string.
Variable json_dump : OutFile → Payload → option string.

Definition request {A : Type} (url : string) (timeout : nat)
    (server : string → odict string → string + A) : io A :=
  Io [Requested url (make_headers TOKEN) timeout]
     (match server url (make_headers TOKEN) with
      | inl detail => inl (RequestError detail)
      | inr body => inr body
      end).

(** [with file.open("w") as f: json.dump(content, f, ...)] and the
    message printed after it.  The file is opened, that is created or
    truncated, before [json.dump] starts; when [json.dump] raises, the
    file is left with a part of the content. *)
Definition dump (file : OutFile) (content : Payload) (msg : string)
  : io unit :=
  match open_file file with
  | Some detail => io_raise (OpenError detail)
  | None =>
      _ ← emit (Opened file);
      match json_dump file content with
      | Some detail => io_raise (DumpError detail)
      | None => _ ← emit (Dumped file content); emit (Printed msg file)
      end
  end.

(** [fetch_rest_root] (lines 38-76). *)
Definition fetch_rest_root : io Root :=
  match BASE_URL with
  | Some base =>
      if PyStr.truthy base then
        let rest_url := urljoin (rstrip "/"%char base +:+ "/") "rest/" in
        root_data ← request rest_url 10 server_root;
        let rest_root_enriched := enrich root_data in
        _ ← dump REST_ROOT_FILE (RootJson rest_root_enriched)
                 "Wrote REST root -> ";
        mret rest_root_enriched
      else io_raise (RuntimeError "OPENHAB_BASE_URL is not set")
  | None => io_raise (RuntimeError "OPENHAB_BASE_URL is not set")
  end.

(** [fetch_items] (lines 94-104). *)
Definition fetch_items (root : Root) : io (list Item) :=
  match find_link root "items" with
  | Some items_url =>
      if PyStr.truthy items_url
      then request items_url 30 server_items
      else io_raise (RuntimeError "No 'items' link found in /rest/ root")
  | None => io_raise (RuntimeError "No 'items' link found in /rest/ root")
  end.

(** [main] (lines 227-241). *)
Definition main (fuel : nat) : io unit :=
  root ← fetch_rest_root;
  items ← fetch_items root;
  _ ← dump RAW_ITEMS_FILE (ItemsJson items) "Wrote raw items -> ";
  index ← lift_build (build_items_index fuel items);
  dump INDEX_FILE (IndexJson index) "Wrote index -> ".

End runner.

(** * Specification vocabulary *)

(** The key under which a record is stored: its name, when it has a
    non-empty one. *)
Definition item_key (it : Item) : option string :=
  match it_name it with
  | Some nm => if PyStr.truthy nm then Some nm else None
  | None => None
  end.

Definition keyed (k : string) (it : Item) : Prop := item_key it = Some k.

Definition location_keyed (k : string) (it : Item) : Prop :=
  item_key it = Some k ∧ is_location (or_empty (it_tags it)) = true.

Definition equipment_keyed (k : string) (it : Item) : Prop :=
  item_key it = Some k ∧ is_equipment (or_empty (it_tags it)) = true.

#[global] Instance keyed_dec k it : Decision (keyed k it).
Proof. unfold keyed. apply _. Defined.
#[global] Instance location_keyed_dec k it : Decision (location_keyed k it).
Proof. unfold location_keyed. apply _. Defined.
#[global] Instance equipment_keyed_dec k it : Decision (equipment_keyed k it).
Proof. unfold equipment_keyed. apply _. Defined.

(** The parent candidates of lines 172 and 182: the group names, in
    their order, that are keys of [locations] (the keys of
    [location_nodes]). *)
Definition candidates (L : odict Aux) (group_names : list string)
  : list string :=
  filter (λ g, g ∈ od_keys L) group_names.

Definition first_location (L : odict Aux) (group_names : list string)
  : option string :=
  head (candidates L group_names).

(** Among the entries [l], in their order: those without a parent
    location, those whose parent location is [p], those with a parent. *)
Definition roots_of (L l : odict Aux) : list string :=
  (filter (λ kv, first_location L (aux_groupNames kv.2) = None) l).*1.

Definition members_of (L l : odict Aux) (p : string) : list string :=
  (filter (λ kv, first_location L (aux_groupNames kv.2) = Some p) l).*1.

Definition placed (L l : odict Aux) : list string :=
  (filter (λ kv, is_Some (first_location L (aux_groupNames kv.2))) l).*1.

(** The owner of a point: the first group name in the equipment lookup,
    or else the first group name that is a location. *)
Definition equipment_owner (en : gmap string string) (it : Entry)
  : option string :=
  if isPoint (semantic it) then next_in en (groupNames it) else None.

Definition location_owner (en : gmap string string) (L : odict Aux)
    (it : Entry) : option string :=
  if isPoint (semantic it) then
    match next_in en (groupNames it) with
    | Some _ => None
    | None => first_location L (groupNames it)
    end
  else None.

Definition eq_points_of (en : gmap string string) (l : odict Entry)
    (e : string) : list string :=
  (filter (λ kv, equipment_owner en kv.2 = Some e) l).*1.

Definition loc_points_of (en : gmap string string) (L : odict Aux)
    (l : odict Entry) (p : string) : list string :=
  (filter (λ kv, location_owner en L kv.2 = Some p) l).*1.

(** The object graph after the location entries [dL], the equipment
    entries [dE] and the flat-index entries [dI] have been processed. *)
Definition graph_inv (L dL dE : odict Aux) (dI : odict Entry)
    (st : Forest) : Prop :=
  semantic_tree st = roots_of L dL ∧
  (∀ p, location_nodes st !! p =
          if decide (p ∈ od_keys L) then
            Some {| loc_item := p;
                    loc_children_locations := members_of L dL p;
                    loc_equipment := members_of L dE p;
                    loc_points := loc_points_of (equipment_nodes st) L dI p |}
          else None) ∧
  (∀ e, equipment_store st !! e =
          if decide (e ∈ placed L dE) then
            Some {| eq_item := e;
                    eq_points := eq_points_of (equipment_nodes st) dI e |}
          else None).

(** The equipment lookup maps a name to the node of that name, and only
    names of equipment that has a parent location. *)
Definition lookup_ok (L dE : odict Aux) (st : Forest) : Prop :=
  ∀ k v, equipment_nodes st !! k = Some v → v = k ∧ k ∈ placed L dE.

(** [depth L d n]: the location [n] is [d] parent steps below a root. *)
Inductive depth (L : odict Aux) : nat → string → Prop :=
| depth_root r : r ∈ roots_of L L → depth L 0 r
| depth_child n p d :
    n ∈ members_of L L p → depth L d p → depth L (S d) n.

(** [below L p k m]: the location [m] is [k] parent steps below [p]. *)
Inductive below (L : odict Aux) : string → nat → string → Prop :=
| below_here p : below L p 0 p
| below_child p c k m :
    c ∈ members_of L L p → below L c k m → below L p (S k) m.

(** The equipment lookup has every equipment whose parent location is
    reachable from a root, and nothing else. *)
Definition lookup_complete (L E : odict Aux) (st : Forest) : Prop :=
  ∀ k, is_Some (equipment_nodes st !! k) ↔
       ∃ d m, depth L d m ∧ k ∈ members_of L E m.

(** Two states that differ at most in [equipment_nodes]. *)
Definition frame (st st' : Forest) : Prop :=
  semantic_tree st' = semantic_tree st ∧
  location_nodes st' = location_nodes st ∧
  equipment_store st' = equipment_store st.

(** The part of the object graph the traversals read: the root list, the
    child and equipment lists of every location node, the item of every
    equipment node. *)
Definition shape (L E : odict Aux) (st : Forest) : Prop :=
  semantic_tree st = roots_of L L ∧
  (∀ p, p ∈ od_keys L →
     ∃ cell, location_nodes st !! p = Some cell ∧
             loc_item cell = p ∧
             loc_children_locations cell = members_of L L p ∧
             loc_equipment cell = members_of L E p) ∧
  (∀ e, e ∈ placed L E →
     ∃ c, equipment_store st !! e = Some c ∧ eq_item c = e).

(** Reading a returned tree. *)
Definition node_item (t : LocationNode) : string :=
  match t with mkLocationNode i _ _ _ => i end.

Definition node_children (t : LocationNode) : list LocationNode :=
  match t with mkLocationNode _ cs _ _ => cs end.

Definition node_equipment (t : LocationNode) : list EquipmentNode :=
  match t with mkLocationNode _ _ es _ => es end.

Definition node_points (t : LocationNode) : list string :=
  match t with mkLocationNode _ _ _ ps => ps end.

(** The locations of a tree in depth-first order, its equipment nodes,
    and all its point references. *)
Fixpoint tree_locations (t : LocationNode) : list string :=
  match t with
  | mkLocationNode i cs _ _ => i :: (cs ≫= tree_locations)
  end.

Fixpoint tree_equipment (t : LocationNode) : list EquipmentNode :=
  match t with
  | mkLocationNode _ cs es _ => es ++ (cs ≫= tree_equipment)
  end.

Fixpoint tree_point_refs (t : LocationNode) : list string :=
  match t with
  | mkLocationNode _ cs es ps =>
      (ps ++ (es ≫= en_points)) ++ (cs ≫= tree_point_refs)
  end.

(** What the graph holds at the location [m]: its equipment nodes and the
    point references owned by it or by its equipment. *)
Definition equipment_at (L E : odict Aux) (I : odict Entry)
    (en : gmap string string) (m : string) : list EquipmentNode :=
  (λ e, {| en_item := e; en_points := eq_points_of en I e |})
    <$> members_of L E m.

Definition refs_at (L E : odict Aux) (I : odict Entry)
    (en : gmap string string) (m : string) : list string :=
  loc_points_of en L I m ++ (equipment_at L E I en m ≫= en_points).

(** The tree read at the location [n] is the unfolding of the graph. *)
Definition tree_ok (L E : odict Aux) (I : odict Entry)
    (en : gmap string string) (n : string) (t : LocationNode) : Prop :=
  node_item t = n ∧
  node_item <$> node_children t = members_of L L n ∧
  node_equipment t = equipment_at L E I en n ∧
  node_points t = loc_points_of en L I n ∧
  NoDup (tree_locations t) ∧
  (∀ m, m ∈ tree_locations t ↔ ∃ k, below L n k m) ∧
  tree_equipment t = tree_locations t ≫= equipment_at L E I en ∧
  tree_point_refs t = tree_locations t ≫= refs_at L E I en.

(** [group_edge L n g]: the location [n] lists the location [g] among
    its group names; a group-membership cycle is a cycle of such edges. *)
Definition group_edge (L : odict Aux) (n g : string) : Prop :=
  ∃ a, (n, a) ∈ L ∧ g ∈ aux_groupNames a ∧ g ∈ od_keys L.

Definition on_group_cycle (L : odict Aux) (n : string) : Prop :=
  tc (group_edge L) n n.

(** [first_match P gs g]: [g] is the first of the names [gs], in their
    order, with the property [P]; [no_match P gs]: none of them has it. *)
Definition first_match (P : string → Prop) (gs : list string) (g : string)
  : Prop :=
  ∃ pre post, gs = pre ++ g :: post ∧ P g ∧ ∀ h, h ∈ pre → ¬ P h.

Definition no_match (P : string → Prop) (gs : list string) : Prop :=
  Forall (λ g, ¬ P g) gs.

#[global] Instance no_match_dec (P : string → Prop)
    `{!∀ g, Decision (P g)} gs : Decision (no_match P gs).
Proof. unfold no_match. apply _. Defined.

(** ** Vocabulary for the REST root and the runner *)

(** A link that the loop of lines 54-58 enters under [t]: its type is
    [t] and both its type and its URL are non-empty strings. *)
Definition usable (t : string) (link : Link) : Prop :=
  link_type link = Some t ∧
  both_truthy (link_type link) (link_url link) = true.

#[global] Instance usable_dec t link : Decision (usable t link).
Proof. unfold usable. apply _. Defined.

(** An optional string that is a non-empty string. *)
Definition opt_truthy (x : option string) : bool :=
  match x with Some s => PyStr.truthy s | None => false end.

(** [k] times the character [c]. *)
Fixpoint repeat_char (c : Ascii.ascii) (k : nat) : string :=
  match k with
  | 0 => EmptyString
  | S k' => String c (repeat_char c k')
  end.

(** The files opened for writing during a run (created or truncated),
    and the files written completely, in their order. *)
Definition opened_files (log : list Event) : list OutFile :=
  omap (λ ev, match ev with Opened file => Some file | _ => None end) log.

Definition dumped_files (log : list Event) : list OutFile :=
  omap (λ ev, match ev with Dumped file _ => Some file | _ => None end) log.

(** * Sample inputs *)

Definition item (nm : string) (tgs groups : list string) : Item :=
  {| it_name := Some nm; it_label := None; it_type := None;
     it_category := None; it_tags := Some tgs;
     it_groupNames := Some groups; it_metadata := None |}.

Definition scenario : list Item :=
  [item "Kitchen" ["Location"] [];
   item "Fridge" ["Equipment"] ["Kitchen"];
   item "FridgeTemp" ["Point"; "Temperature"] ["Fridge"]].

Definition tie_break : list Item :=
  [item "GroupA" ["Location"] [];
   item "LocRoot" ["Location"] [];
   item "Room" ["Location"] ["GroupA"; "LocRoot"]].

Definition precedence : list Item :=
  [item "Kitchen" ["Location"] [];
   item "Fridge" ["Equipment"] ["Kitchen"];
   item "Door" ["Point"] ["Kitchen"; "Fridge"]].

Definition orphan : list Item :=
  [item "Kitchen" ["Location"] [];
   item "Pump" ["Equipment"] ["Garden"]].

Definition relabelled : list Item :=
  [item "Hall" ["Location"] [];
   item "Hall" ["Lighting"] []].

Definition nameless : Item :=
  {| it_name := Some ""; it_label := None; it_type := None;
     it_category := None; it_tags := Some ["Location"];
     it_groupNames := None; it_metadata := None |}.

Definition mutual : list Item :=
  [item "A" ["Location"] ["B"];
   item "B" ["Location"] ["A"];
   item "C" ["Location"] ["C"]].

Definition shortcut_cycle : list Item :=
  [item "R" ["Location"] [];
   item "A" ["Location"] ["R"; "B"];
   item "B" ["Location"] ["A"]].

(** A chain of [n + 1] nested locations: [L], then [LL] in the group
    [L], then [LLL] in the group [LL], and so on. *)
Definition nest_name (i : nat) : string := repeat_char "L" (S i).

Definition nested_item (i : nat) : Item :=
  item (nest_name i) ["Location"]
       (match i with 0 => [] | S j => [nest_name j] end).

Definition nested (n : nat) : list Item := nested_item <$> seq 0 (S n).

(** [Hall] is a location in [House]; a later record of the same name is
    neither a location nor in a group. *)
Definition stale_parent : list Item :=
  [item "House" ["Location"] [];
   item "Hall" ["Location"] ["House"];
   item "Hall" ["Lighting"] []].

(** A server for the runner: the root announces the items twice, first
    without a URL, and the items are those of [scenario]. *)
Definition sample_links : list Link :=
  [mkLink (Some "items") (Some "");
   mkLink (Some "things") (Some "http://oh:8080/rest/things");
   mkLink (Some "items") (Some "http://oh:8080/rest/items");
   mkLink None (Some "http://oh:8080/rest/uuid")].

Definition sample_root : Root :=
  {| version := JString "8"; locale := JString "en_GB";
     measurementSystem := JString "SI"; timezone := JNull;
     runtimeInfo := JObject [("version", JString "4.1.0")];
     links := Some sample_links; endpoint_map := None |}.

Definition sample_server_root (url : string) (headers : odict string)
  : string + Root :=
  if String.eqb url "http://oh:8080/rest/"
  then inr sample_root else inl "404 Not Found".

Definition sample_server_items (url : string) (headers : odict string)
  : string + list Item :=
  if String.eqb url "http://oh:8080/rest/items"
  then inr scenario else inl "404 Not Found".

(** The value of [urljoin] at the one call of the sample runs,
    [urljoin("http://oh:8080/", "rest/")]; it is not [urljoin] at any
    other argument. *)
Definition sample_urljoin (base rel : string) : string :=
  if String.eqb base "http://oh:8080/" && String.eqb rel "rest/"
  then "http://oh:8080/rest/" else "".

Definition sample_open (file : OutFile) : option string := None.

Definition sample_json_dump (file : OutFile) (content : Payload)
  : option string := None.

Definition sample_run : io unit :=
  main (Some "http://oh:8080//") (Some "secret") sample_urljoin
       sample_server_root sample_server_items sample_open
       sample_json_dump 3.

(** [json.dump] that fails on the index, as the encoder does on an index
    that is nested too deep for its recursion. *)
Definition failing_json_dump (file : OutFile) (content : Payload)
  : option string :=
  match file with
  | INDEX_FILE => Some "RecursionError"
  | _ => None
  end.

Definition failing_run : io unit :=
  main (Some "http://oh:8080//") (Some "secret") sample_urljoin
       sample_server_root sample_server_items sample_open
       failing_json_dump 3.

(** * Properties *)

Tactic Notation "simpl_res" := cbn [mbind res_bind mret res_ret].
Tactic Notation "simpl_res" "in" hyp(H) :=
  cbn [mbind res_bind mret res_ret] in H.

Ltac simpl_st :=
  cbn [semantic_tree location_nodes equipment_store equipment_nodes
       set_semantic_tree set_location_nodes set_equipment_store
       set_equipment_nodes fst snd] in *.


(** ** Strings *)

Lemma endswith_unfold (s suffix : string) :
  PyStr.endswith s suffix =
    if String.eqb s suffix then true
    else match s with
         | EmptyString => false
         | String _ s' => PyStr.endswith s' suffix
         end.
Proof. by destruct s. Qed.

Lemma append_nil_l (s : string) : "" +:+ s = s.
Proof. reflexivity. Qed.

Lemma append_cons (a : Ascii.ascii) (s t : string) :
  String a s +:+ t = String a (s +:+ t).
Proof. reflexivity. Qed.


Lemma truthy_true (s : string) : PyStr.truthy s = true ↔ s ≠ "".
Proof.
  unfold PyStr.truthy. destruct (String.eqb_spec s ""); simpl; split; congruence.
Qed.

Lemma truthy_false (s : string) : PyStr.truthy s = false ↔ s = "".
Proof.
  unfold PyStr.truthy. destruct (String.eqb_spec s ""); simpl; split; congruence.
Qed.

(** ** Loops with an invariant *)

(** The loop rule: an invariant over the processed prefix that every
    iteration re-establishes without raising holds at the end. *)
Lemma foldM_invariant {S X : Type} (f : S → X → res S)
    (I : list X → S → Prop) (l : list X) (s0 : S) :
  I [] s0 →
  (∀ done x rest s, l = done ++ x :: rest → I done s →
     ∃ s', f s x = Ok s' ∧ I (done ++ [x]) s') →
  ∃ s', foldM f l s0 = Ok s' ∧ I l s'.
Proof.
  intros H0 Hstep.
  assert (∀ rest done s, l = done ++ rest → I done s →
            ∃ s', foldM f rest s = Ok s' ∧ I l s') as Hgen.
  { induction rest as [|x rest IH]; intros done s Hl HI; simpl.
    - rewrite app_nil_r in Hl. subst. eauto.
    - destruct (Hstep done x rest s Hl HI) as (s' & -> & HI'). simpl.
      apply (IH (done ++ [x])); [|done]. by rewrite <-app_assoc. }
  by apply (Hgen l []).
Qed.

Lemma fold_left_invariant {S X : Type} (f : S → X → S)
    (I : list X → S → Prop) (l : list X) (s0 : S) :
  I [] s0 →
  (∀ done x rest s, l = done ++ x :: rest → I done s → I (done ++ [x]) (f s x)) →
  I l (fold_left f l s0).
Proof.
  intros H0 Hstep.
  assert (∀ rest done s, l = done ++ rest → I done s →
            I l (fold_left f rest s)) as Hgen.
  { induction rest as [|x rest IH]; intros done s Hl HI; simpl.
    - rewrite app_nil_r in Hl. by subst.
    - apply (IH (done ++ [x])); [by rewrite <-app_assoc|]. by eapply Hstep. }
  by apply (Hgen l []).
Qed.

(** ** Insertion-ordered dicts *)

Section odict_facts.
Context {V : Type}.
Implicit Types (d : odict V) (k : string) (v : V).

Lemma od_get_set d k k' v :
  od_get k' (od_set k v d) = if decide (k' = k) then Some v else od_get k' d.
Proof.
  induction d as [|[k0 v0] d IH]; simpl.
  - by repeat case_decide.
  - repeat (case_decide; simpl; simplify_eq); try done.
Qed.

Lemma od_keys_set d k v :
  od_keys (od_set k v d) =
    if decide (k ∈ od_keys d) then od_keys d else od_keys d ++ [k].
Proof.
  unfold od_keys. induction d as [|[k0 v0] d IH]; csimpl.
  - destruct (decide (k ∈ [])) as [?%elem_of_nil|]; done.
  - destruct (decide (k = k0)) as [->|Hne]; csimpl.
    + by rewrite decide_True by left.
    + rewrite IH. destruct (decide (k ∈ d.*1)) as [Hin|Hnin].
      * rewrite decide_True; [done | by right].
      * rewrite decide_False; [done|]. by intros [?|?]%elem_of_cons.
Qed.

Lemma od_keys_set_NoDup d k v :
  NoDup (od_keys d) → NoDup (od_keys (od_set k v d)).
Proof.
  intros Hnd. rewrite od_keys_set. case_decide; [done|].
  apply NoDup_app. split_and!; [done| |apply NoDup_singleton].
  intros x Hx ->%list_elem_of_singleton. done.
Qed.

Lemma od_get_None d k : od_get k d = None ↔ k ∉ od_keys d.
Proof.
  unfold od_keys. induction d as [|[k0 v0] d IH]; simpl.
  - split; [intros _; apply not_elem_of_nil|done].
  - rewrite not_elem_of_cons. case_decide; naive_solver.
Qed.

Lemma od_get_is_Some d k : is_Some (od_get k d) ↔ k ∈ od_keys d.
Proof.
  rewrite <-not_eq_None_Some, od_get_None.
  destruct (decide (k ∈ od_keys d)); naive_solver.
Qed.

Lemma od_elem_get d k v : NoDup (od_keys d) → (k, v) ∈ d → od_get k d = Some v.
Proof.
  unfold od_keys. induction d as [|[k0 v0] d IH]; simpl.
  - by intros _ ?%elem_of_nil.
  - intros [Hk0 Hnd]%NoDup_cons [Heq|Hin]%elem_of_cons.
    + simplify_eq. by rewrite decide_True.
    + rewrite decide_False; [auto|]. intros ->. apply Hk0.
      apply list_elem_of_fmap. by exists (k0, v).
Qed.

End odict_facts.

Lemma od_get_elem {V : Type} (d : odict V) k v :
  od_get k d = Some v → (k, v) ∈ d.
Proof.
  induction d as [|[k0 v0] d IH]; simpl; [done|].
  case_decide as Hk.
  - intros [= ->]. subst. left.
  - intros ?. right. by apply IH.
Qed.

(** ** The flat index *)

Lemma item_key_Some it k :
  item_key it = Some k ↔ it_name it = Some k ∧ k ≠ "".
Proof.
  unfold item_key. destruct (it_name it) as [nm|]; [|naive_solver].
  destruct (PyStr.truthy nm) eqn:Ht.
  - apply truthy_true in Ht. naive_solver.
  - apply truthy_false in Ht. naive_solver.
Qed.

Lemma item_key_None it :
  item_key it = None ↔ it_name it = None ∨ it_name it = Some "".
Proof.
  unfold item_key. destruct (it_name it) as [nm|]; [|naive_solver].
  destruct (PyStr.truthy nm) eqn:Ht.
  - apply truthy_true in Ht. naive_solver.
  - apply truthy_false in Ht. naive_solver.
Qed.

Lemma index_step_skip st it : item_key it = None → index_step st it = st.
Proof.
  unfold index_step, item_key. destruct (it_name it) as [nm|]; [|done].
  by destruct (PyStr.truthy nm).
Qed.

Lemma index_step_keyed st it k :
  item_key it = Some k →
  index_step st it =
    {| items_by_name := od_set k (make_entry k it) (items_by_name st);
       locations :=
         if is_location (or_empty (it_tags it))
         then od_set k (make_aux k it) (locations st) else locations st;
       equipment :=
         if is_equipment (or_empty (it_tags it))
         then od_set k (make_aux k it) (equipment st) else equipment st |}.
Proof.
  unfold index_step, item_key. destruct (it_name it) as [nm|]; [|done].
  destruct (PyStr.truthy nm); [|done]. by intros [= ->].
Qed.

Lemma flat_index_snoc items it :
  flat_index (items ++ [it]) = index_step (flat_index items) it.
Proof. unfold flat_index. by rewrite fold_left_app. Qed.

Lemma last_filter_snoc {A : Type} (P : A → Prop) `{!∀ x, Decision (P x)}
    (l : list A) (x : A) :
  last (filter P (l ++ [x])) = if decide (P x) then Some x else last (filter P l).
Proof.
  rewrite filter_app, filter_cons, filter_nil.
  case_decide; [apply last_snoc|by rewrite app_nil_r].
Qed.

(** The entry stored under a key is the one built from the last record
    that has this key. *)
Lemma flat_index_get_item items k :
  od_get k (items_by_name (flat_index items)) =
    make_entry k <$> last (filter (keyed k) items).
Proof.
  induction items as [|it items IH] using rev_ind; [done|].
  rewrite flat_index_snoc, last_filter_snoc.
  destruct (decide (keyed k it)) as [Hk|Hk].
  - rewrite (index_step_keyed _ _ _ Hk). simpl.
    by rewrite od_get_set, decide_True.
  - rewrite <-IH. destruct (item_key it) as [k'|] eqn:Hk'.
    + rewrite (index_step_keyed _ _ _ Hk'). simpl.
      rewrite od_get_set, decide_False; [done|]. by intros ->.
    + by rewrite (index_step_skip _ _ Hk').
Qed.

Lemma flat_index_get_location items k :
  od_get k (locations (flat_index items)) =
    make_aux k <$> last (filter (location_keyed k) items).
Proof.
  induction items as [|it items IH] using rev_ind; [done|].
  rewrite flat_index_snoc, last_filter_snoc.
  destruct (decide (location_keyed k it)) as [[Hk Hl]|Hk].
  - rewrite (index_step_keyed _ _ _ Hk). simpl.
    by rewrite Hl, od_get_set, decide_True.
  - rewrite <-IH. destruct (item_key it) as [k'|] eqn:Hk'.
    + rewrite (index_step_keyed _ _ _ Hk'). simpl.
      destruct (is_location _) eqn:Hl; [|done].
      rewrite od_get_set, decide_False; [done|]. intros ->. by apply Hk.
    + by rewrite (index_step_skip _ _ Hk').
Qed.

Lemma flat_index_get_equipment items k :
  od_get k (equipment (flat_index items)) =
    make_aux k <$> last (filter (equipment_keyed k) items).
Proof.
  induction items as [|it items IH] using rev_ind; [done|].
  rewrite flat_index_snoc, last_filter_snoc.
  destruct (decide (equipment_keyed k it)) as [[Hk Hl]|Hk].
  - rewrite (index_step_keyed _ _ _ Hk). simpl.
    by rewrite Hl, od_get_set, decide_True.
  - rewrite <-IH. destruct (item_key it) as [k'|] eqn:Hk'.
    + rewrite (index_step_keyed _ _ _ Hk'). simpl.
      destruct (is_equipment _) eqn:Hl; [|done].
      rewrite od_get_set, decide_False; [done|]. intros ->. by apply Hk.
    + by rewrite (index_step_skip _ _ Hk').
Qed.

Lemma flat_index_NoDup items :
  NoDup (od_keys (items_by_name (flat_index items))) ∧
  NoDup (od_keys (locations (flat_index items))) ∧
  NoDup (od_keys (equipment (flat_index items))).
Proof.
  induction items as [|it items (IH1 & IH2 & IH3)] using rev_ind.
  - repeat split; apply NoDup_nil_2.
  - rewrite flat_index_snoc. destruct (item_key it) as [k|] eqn:Hk.
    + rewrite (index_step_keyed _ _ _ Hk). simpl.
      split_and!; [by apply od_keys_set_NoDup| |].
      * destruct (is_location _); [by apply od_keys_set_NoDup|done].
      * destruct (is_equipment _); [by apply od_keys_set_NoDup|done].
    + by rewrite (index_step_skip _ _ Hk).
Qed.

Lemma last_filter_is_Some {A : Type} (P : A → Prop) `{!∀ x, Decision (P x)}
    (l : list A) :
  is_Some (last (filter P l)) ↔ ∃ x, x ∈ l ∧ P x.
Proof.
  rewrite last_is_Some. split.
  - destruct (filter P l) as [|x l'] eqn:Hf; [done|]. intros _.
    assert (x ∈ filter P l) as Hin by (rewrite Hf; left).
    apply list_elem_of_filter in Hin. exists x. tauto.
  - intros (x & Hx & HP) Hnil.
    assert (x ∈ filter P l) as Hin by by apply list_elem_of_filter.
    rewrite Hnil in Hin. by apply elem_of_nil in Hin.
Qed.

Lemma elem_of_items_by_name items k :
  k ∈ od_keys (items_by_name (flat_index items)) ↔
  ∃ it, it ∈ items ∧ item_key it = Some k.
Proof.
  rewrite <-od_get_is_Some, flat_index_get_item, fmap_is_Some.
  apply last_filter_is_Some.
Qed.

Lemma elem_of_locations items k :
  k ∈ od_keys (locations (flat_index items)) ↔
  ∃ it, it ∈ items ∧ location_keyed k it.
Proof.
  rewrite <-od_get_is_Some, flat_index_get_location, fmap_is_Some.
  apply last_filter_is_Some.
Qed.

Lemma elem_of_equipment items k :
  k ∈ od_keys (equipment (flat_index items)) ↔
  ∃ it, it ∈ items ∧ equipment_keyed k it.
Proof.
  rewrite <-od_get_is_Some, flat_index_get_equipment, fmap_is_Some.
  apply last_filter_is_Some.
Qed.

Lemma locations_key_nonempty items k :
  k ∈ od_keys (locations (flat_index items)) → k ≠ "".
Proof.
  intros (it & _ & Hk & _)%elem_of_locations. by apply item_key_Some in Hk as [_ ?].
Qed.

Lemma equipment_key_nonempty items k :
  k ∈ od_keys (equipment (flat_index items)) → k ≠ "".
Proof.
  intros (it & _ & Hk & _)%elem_of_equipment. by apply item_key_Some in Hk as [_ ?].
Qed.

(** ** The object graph, pass by pass *)

Lemma filter_keys_snoc {V : Type} (P : string * V → Prop)
    `{!∀ x, Decision (P x)} (l : odict V) (x : string * V) :
  (filter P (l ++ [x])).*1 =
    (filter P l).*1 ++ (if decide (P x) then [x.1] else []).
Proof.
  rewrite filter_app, fmap_app, filter_cons, filter_nil.
  by case_decide.
Qed.

Lemma create_location_nodes_lookup (L : odict Aux) (k : string) :
  create_location_nodes L !! k =
    if decide (k ∈ od_keys L) then Some (new_location_node k) else None.
Proof.
  unfold create_location_nodes.
  refine (fold_left_invariant _
    (λ (done : odict Aux) (nodes : gmap string LocationCell),
       nodes !! k =
         if decide (k ∈ od_keys done) then Some (new_location_node k)
         else None) L ∅ _ _).
  - by rewrite lookup_empty.
  - intros done [n a] rest nodes _ IH. simpl.
    unfold od_keys in *. rewrite fmap_app. simpl.
    destruct (decide (n = k)) as [->|Hne].
    + rewrite lookup_insert_eq, decide_True; [done|].
      apply elem_of_app. right. left.
    + rewrite lookup_insert_ne, IH by done.
      destruct (decide (k ∈ done.*1)) as [Hin|Hnin].
      * rewrite decide_True; [done|]. apply elem_of_app. by left.
      * rewrite decide_False; [done|].
        intros [?|?%list_elem_of_singleton]%elem_of_app; done.
Qed.

Lemma subscript_Some {V : Type} (d : gmap string V) (k : string) (v : V) :
  d !! k = Some v → subscript d k = Ok v.
Proof. unfold subscript. by intros ->. Qed.

Section passes.
Variable L : odict Aux.

Lemma graph_inv_candidates dL dE dI st gs :
  graph_inv L dL dE dI st →
  parent_candidates (location_nodes st) gs = candidates L gs.
Proof.
  intros (_ & Hn & _). unfold parent_candidates, candidates.
  apply list_filter_iff. intros g. rewrite Hn.
  destruct (decide (g ∈ od_keys L)); [by rewrite <-not_eq_None_Some|].
  split; [by intros [? ?]|done].
Qed.

Lemma graph_inv_next_in dL dE dI st gs :
  graph_inv L dL dE dI st →
  next_in (location_nodes st) gs = first_location L gs.
Proof.
  intros H. unfold next_in, first_location.
  by rewrite <-(graph_inv_candidates _ _ _ _ _ H).
Qed.

Lemma first_location_elem gs p :
  first_location L gs = Some p → p ∈ od_keys L ∧ p ∈ gs.
Proof.
  unfold first_location, candidates. intros Hh.
  apply head_Some_elem_of, list_elem_of_filter in Hh. tauto.
Qed.

Lemma graph_inv_init :
  graph_inv L [] [] []
    {| semantic_tree := [];
       location_nodes := create_location_nodes L;
       equipment_store := ∅;
       equipment_nodes := ∅ |}.
Proof.
  split_and!; simpl; [done| |].
  - intros p. rewrite create_location_nodes_lookup. by case_decide.
  - intros e. by rewrite lookup_empty.
Qed.

Lemma roots_of_snoc l n a :
  roots_of L (l ++ [(n, a)]) =
    roots_of L l ++
    (if decide (first_location L (aux_groupNames a) = None) then [n] else []).
Proof. unfold roots_of. by rewrite filter_keys_snoc. Qed.

Lemma members_of_snoc l n a p :
  members_of L (l ++ [(n, a)]) p =
    members_of L l p ++
    (if decide (first_location L (aux_groupNames a) = Some p)
     then [n] else []).
Proof. unfold members_of. by rewrite filter_keys_snoc. Qed.

Lemma placed_snoc l n a :
  placed L (l ++ [(n, a)]) =
    placed L l ++
    (if decide (is_Some (first_location L (aux_groupNames a)))
     then [n] else []).
Proof. unfold placed. by rewrite filter_keys_snoc. Qed.

Lemma assign_location_step dL dE dI st n a :
  n ∈ od_keys L →
  graph_inv L dL dE dI st →
  ∃ st', assign_location st (n, a) = Ok st' ∧
         graph_inv L (dL ++ [(n, a)]) dE dI st' ∧
         equipment_nodes st' = equipment_nodes st.
Proof.
  intros Hn Hinv. pose proof Hinv as (Hr & Hl & He).
  unfold assign_location.
  rewrite (graph_inv_candidates _ _ _ _ _ Hinv).
  assert (subscript (location_nodes st) n =
            Ok {| loc_item := n;
                  loc_children_locations := members_of L dL n;
                  loc_equipment := members_of L dE n;
                  loc_points := loc_points_of (equipment_nodes st) L dI n |})
    as Hsub by (unfold subscript; by rewrite Hl, decide_True).
  destruct (candidates L (aux_groupNames a)) as [|p cs] eqn:Hc.
  - assert (first_location L (aux_groupNames a) = None) as Hfirst
      by (unfold first_location; by rewrite Hc).
    rewrite Hsub. simpl_res. eexists. split; [done|]. split; [|done].
    split_and!; simpl_st.
    + by rewrite Hr, roots_of_snoc, Hfirst, decide_True.
    + intros q. rewrite Hl. case_decide; [|done].
      rewrite members_of_snoc, Hfirst, decide_False by done.
      by rewrite app_nil_r.
    + done.
  - assert (first_location L (aux_groupNames a) = Some p) as Hfirst
      by (unfold first_location; by rewrite Hc).
    destruct (first_location_elem _ _ Hfirst) as [Hp _].
    erewrite (subscript_Some _ p) by (by rewrite Hl, decide_True).
    rewrite Hsub. simpl_res. eexists. split; [done|]. split; [|done].
    split_and!; simpl_st.
    + rewrite Hr, roots_of_snoc, Hfirst, decide_False by done.
      by rewrite app_nil_r.
    + intros q. rewrite members_of_snoc, Hfirst.
      destruct (decide (p = q)) as [->|Hne].
      * rewrite lookup_insert_eq, decide_True by done.
        by rewrite decide_True by done.
      * rewrite lookup_insert_ne, Hl by done. case_decide; [|done].
        rewrite decide_False by congruence. by rewrite app_nil_r.
    + done.
Qed.

Lemma assign_equipment_step dL dE st n a :
  graph_inv L dL dE [] st →
  ∃ st', assign_equipment st (n, a) = Ok st' ∧
         graph_inv L dL (dE ++ [(n, a)]) [] st' ∧
         equipment_nodes st' = equipment_nodes st.
Proof.
  intros Hinv. pose proof Hinv as (Hr & Hl & He).
  unfold assign_equipment.
  rewrite (graph_inv_candidates _ _ _ _ _ Hinv).
  destruct (candidates L (aux_groupNames a)) as [|p cs] eqn:Hc.
  - assert (first_location L (aux_groupNames a) = None) as Hfirst
      by (unfold first_location; by rewrite Hc).
    eexists. split; [done|]. split; [|done]. split_and!.
    + done.
    + intros q. rewrite Hl. case_decide; [|done].
      rewrite members_of_snoc, Hfirst, decide_False by done.
      by rewrite app_nil_r.
    + intros e. rewrite He, placed_snoc, Hfirst.
      rewrite (decide_False (P := is_Some None)) by (by intros [? ?]).
      by rewrite app_nil_r.
  - assert (first_location L (aux_groupNames a) = Some p) as Hfirst
      by (unfold first_location; by rewrite Hc).
    destruct (first_location_elem _ _ Hfirst) as [Hp _].
    erewrite (subscript_Some _ p) by (by rewrite Hl, decide_True).
    simpl_res. eexists. split; [done|]. split; [|done].
    split_and!; simpl_st.
    + done.
    + intros q. rewrite members_of_snoc, Hfirst.
      destruct (decide (p = q)) as [->|Hne].
      * rewrite lookup_insert_eq, decide_True by done.
        by rewrite decide_True by done.
      * rewrite lookup_insert_ne, Hl by done. case_decide; [|done].
        rewrite decide_False by congruence. by rewrite app_nil_r.
    + intros e. rewrite placed_snoc, Hfirst.
      rewrite (decide_True (P := is_Some (Some p))) by done.
      destruct (decide (n = e)) as [->|Hne].
      * rewrite lookup_insert_eq, decide_True; [done|].
        apply elem_of_app. right. left.
      * rewrite lookup_insert_ne, He by done.
        destruct (decide (e ∈ placed L dE)) as [Hin|Hnin].
        -- rewrite decide_True; [done|]. apply elem_of_app. by left.
        -- rewrite decide_False; [done|].
           intros [?|?%list_elem_of_singleton]%elem_of_app; done.
Qed.

Lemma eq_points_of_snoc en l n it e :
  eq_points_of en (l ++ [(n, it)]) e =
    eq_points_of en l e ++
    (if decide (equipment_owner en it = Some e) then [n] else []).
Proof. unfold eq_points_of. by rewrite filter_keys_snoc. Qed.

Lemma loc_points_of_snoc en l n it p :
  loc_points_of en L (l ++ [(n, it)]) p =
    loc_points_of en L l p ++
    (if decide (location_owner en L it = Some p) then [n] else []).
Proof. unfold loc_points_of. by rewrite filter_keys_snoc. Qed.

Lemma next_in_Some {V : Type} (nodes : gmap string V) gs g :
  next_in nodes gs = Some g → is_Some (nodes !! g) ∧ g ∈ gs.
Proof.
  unfold next_in. intros Hh.
  apply head_Some_elem_of, list_elem_of_filter in Hh. tauto.
Qed.

Lemma found_nonempty g : g ≠ "" → found (Some g) = Some g.
Proof. intros Hg. unfold found. by rewrite (proj2 (truthy_true g) Hg). Qed.

Lemma assign_point_step dL dE dI st n it :
  (∀ k, k ∈ od_keys L → k ≠ "") →
  (∀ k, k ∈ placed L dE → k ≠ "") →
  graph_inv L dL dE dI st →
  lookup_ok L dE st →
  ∃ st', assign_point st (n, it) = Ok st' ∧
         graph_inv L dL dE (dI ++ [(n, it)]) st' ∧
         equipment_nodes st' = equipment_nodes st.
Proof.
  intros HL HE Hinv Hen. pose proof Hinv as (Hr & Hl & He).
  unfold assign_point.
  destruct (isPoint (semantic it)) eqn:Hpt; cbn [negb].
  - destruct (next_in (equipment_nodes st) (groupNames it)) as [g|] eqn:Hg.
    + assert (equipment_owner (equipment_nodes st) it = Some g) as Heo
        by (unfold equipment_owner; by rewrite Hpt).
      assert (location_owner (equipment_nodes st) L it = None) as Hlo
        by (unfold location_owner; by rewrite Hpt, Hg).
      destruct (next_in_Some _ _ _ Hg) as [[v Hv] _].
      destruct (Hen _ _ Hv) as [-> Hpl].
      rewrite found_nonempty by auto.
      erewrite (subscript_Some _ g) by done. simpl_res.
      erewrite (subscript_Some _ g) by (by rewrite He, decide_True).
      simpl_res. eexists. split; [done|]. split; [|done].
      split_and!; simpl_st.
      * done.
      * intros q. rewrite Hl. case_decide; [|done].
        rewrite loc_points_of_snoc, decide_False by (by rewrite Hlo).
        by rewrite app_nil_r.
      * intros e. rewrite eq_points_of_snoc.
        destruct (decide (g = e)) as [->|Hne].
        -- rewrite lookup_insert_eq, decide_True by done.
           by rewrite decide_True by done.
        -- rewrite lookup_insert_ne, He by done. case_decide; [|done].
           rewrite decide_False by (rewrite Heo; congruence).
           by rewrite app_nil_r.
    + assert (equipment_owner (equipment_nodes st) it = None) as Heo
        by (unfold equipment_owner; by rewrite Hpt).
      assert (location_owner (equipment_nodes st) L it =
                first_location L (groupNames it)) as Hlo
        by (unfold location_owner; by rewrite Hpt, Hg).
      cbn [found]. rewrite (graph_inv_next_in _ _ _ _ _ Hinv).
      assert (∀ e, eq_points_of (equipment_nodes st) (dI ++ [(n, it)]) e =
                   eq_points_of (equipment_nodes st) dI e) as Heq.
      { intros e. rewrite eq_points_of_snoc.
        rewrite decide_False by (by rewrite Heo). by rewrite app_nil_r. }
      destruct (first_location L (groupNames it)) as [p|] eqn:Hp.
      * destruct (first_location_elem _ _ Hp) as [HpL _].
        rewrite found_nonempty by auto.
        erewrite (subscript_Some _ p) by (by rewrite Hl, decide_True).
        simpl_res. eexists. split; [done|]. split; [|done].
        split_and!; simpl_st.
        -- done.
        -- intros q. rewrite loc_points_of_snoc.
           destruct (decide (p = q)) as [->|Hne].
           ++ rewrite lookup_insert_eq, decide_True by done.
              by rewrite decide_True by done.
           ++ rewrite lookup_insert_ne, Hl by done. case_decide; [|done].
              rewrite decide_False by (rewrite Hlo; congruence).
              by rewrite app_nil_r.
        -- intros e. by rewrite Heq.
      * cbn [found]. eexists. split; [done|]. split; [|done].
        split_and!.
        -- done.
        -- intros q. rewrite Hl. case_decide; [|done].
           rewrite loc_points_of_snoc, decide_False by (by rewrite Hlo).
           by rewrite app_nil_r.
        -- intros e. by rewrite Heq.
  - assert (equipment_owner (equipment_nodes st) it = None) as Heo
      by (unfold equipment_owner; by rewrite Hpt).
    assert (location_owner (equipment_nodes st) L it = None) as Hlo
      by (unfold location_owner; by rewrite Hpt).
    eexists. split; [done|]. split; [|done]. split_and!.
    + done.
    + intros q. rewrite Hl. case_decide; [|done].
      rewrite loc_points_of_snoc, decide_False by (by rewrite Hlo).
      by rewrite app_nil_r.
    + intros e. rewrite He. case_decide; [|done].
      rewrite eq_points_of_snoc, decide_False by (by rewrite Heo).
      by rewrite app_nil_r.
Qed.

End passes.

(** ** The parent relation is a forest *)

Section forest_shape.
Variable L : odict Aux.
Hypothesis L_NoDup : NoDup (od_keys L).

Lemma elem_of_roots_of (l : odict Aux) n :
  n ∈ roots_of L l ↔
  ∃ a, (n, a) ∈ l ∧ first_location L (aux_groupNames a) = None.
Proof.
  unfold roots_of. rewrite list_elem_of_fmap. split.
  - intros ([n' a] & -> & [? ?]%list_elem_of_filter). by exists a.
  - intros (a & Hin & Hf). exists (n, a). split; [done|].
    by apply list_elem_of_filter.
Qed.

Lemma elem_of_members_of (l : odict Aux) n p :
  n ∈ members_of L l p ↔
  ∃ a, (n, a) ∈ l ∧ first_location L (aux_groupNames a) = Some p.
Proof.
  unfold members_of. rewrite list_elem_of_fmap. split.
  - intros ([n' a] & -> & [? ?]%list_elem_of_filter). by exists a.
  - intros (a & Hin & Hf). exists (n, a). split; [done|].
    by apply list_elem_of_filter.
Qed.

Lemma elem_of_placed (l : odict Aux) n :
  n ∈ placed L l ↔
  ∃ a p, (n, a) ∈ l ∧ first_location L (aux_groupNames a) = Some p.
Proof.
  unfold placed. rewrite list_elem_of_fmap. split.
  - intros ([n' a] & -> & [[p Hp] ?]%list_elem_of_filter). by exists a, p.
  - intros (a & p & Hin & Hf). exists (n, a). split; [done|].
    apply list_elem_of_filter. split; [|done]. by exists p.
Qed.

Lemma entry_unique n a a' : (n, a) ∈ L → (n, a') ∈ L → a = a'.
Proof.
  intros H1%(od_elem_get _ _ _ L_NoDup) H2%(od_elem_get _ _ _ L_NoDup).
  congruence.
Qed.

Lemma members_of_unique n p q :
  n ∈ members_of L L p → n ∈ members_of L L q → p = q.
Proof.
  intros (a & Ha & Hp)%elem_of_members_of (a' & Ha' & Hq)%elem_of_members_of.
  rewrite (entry_unique _ _ _ Ha Ha') in Hp. congruence.
Qed.

Lemma root_not_member n p :
  n ∈ roots_of L L → n ∈ members_of L L p → False.
Proof.
  intros (a & Ha & Hp)%elem_of_roots_of (a' & Ha' & Hq)%elem_of_members_of.
  rewrite (entry_unique _ _ _ Ha Ha') in Hp. congruence.
Qed.

Lemma members_of_keys (l : odict Aux) n p :
  n ∈ members_of L l p → n ∈ od_keys l ∧ p ∈ od_keys L.
Proof.
  intros (a & Ha & Hp)%elem_of_members_of. split.
  - apply list_elem_of_fmap. by exists (n, a).
  - by destruct (first_location_elem _ _ _ Hp).
Qed.

Lemma roots_of_keys (l : odict Aux) n : n ∈ roots_of L l → n ∈ od_keys l.
Proof.
  intros (a & Ha & Hp)%elem_of_roots_of.
  apply list_elem_of_fmap. by exists (n, a).
Qed.

Lemma filter_keys_NoDup {V : Type} (P : string * V → Prop)
    `{!∀ x, Decision (P x)} (l : odict V) :
  NoDup (od_keys l) → NoDup (filter P l).*1.
Proof.
  unfold od_keys. induction l as [|[k v] l IH]; [done|].
  rewrite fmap_cons, NoDup_cons. intros [Hk Hnd].
  rewrite filter_cons. case_decide; [|auto].
  rewrite fmap_cons. apply NoDup_cons. split; [|auto].
  intros ([k' v'] & Heq & [_ Hin]%list_elem_of_filter)%list_elem_of_fmap.
  simpl in Heq. subst k'. apply Hk, list_elem_of_fmap. by exists (k, v').
Qed.

Lemma depth_keys d n : depth L d n → n ∈ od_keys L.
Proof.
  destruct 1 as [r Hr|n p d Hn _].
  - by apply roots_of_keys.
  - by apply members_of_keys in Hn as [? _].
Qed.

Lemma depth_fun d1 d2 n : depth L d1 n → depth L d2 n → d1 = d2.
Proof.
  intros H1. revert d2. induction H1 as [r Hr|n p d Hn Hp IH]; intros d2 H2.
  - destruct H2 as [|n q d' Hq _]; [done|].
    by destruct (root_not_member _ _ Hr Hq).
  - destruct H2 as [r Hr|n' q d' Hq Hd'].
    + by destruct (root_not_member _ _ Hr Hn).
    + rewrite (members_of_unique _ _ _ Hq Hn) in Hd'. f_equal. by apply IH.
Qed.

(** The chain of ancestors of a node of depth [d] has [d + 1] distinct
    locations. *)
Lemma depth_chain d n :
  depth L d n →
  ∃ chain : list string,
    length chain = S d ∧ NoDup chain ∧
    ∀ m, m ∈ chain → ∃ d', d' ≤ d ∧ depth L d' m.
Proof.
  induction 1 as [r Hr|n p d Hn Hp (chain & Hlen & Hnd & Hch)].
  - exists [r]. split_and!; [done|apply NoDup_singleton|].
    intros m ->%list_elem_of_singleton. exists 0. split; [lia|].
    by constructor.
  - assert (depth L (S d) n) as Hdn by by econstructor.
    exists (n :: chain). split_and!.
    + simpl. by rewrite Hlen.
    + apply NoDup_cons. split; [|done]. intros (d' & Hle & Hd')%Hch.
      pose proof (depth_fun _ _ _ Hdn Hd'). lia.
    + intros m [->|Hm]%elem_of_cons.
      * exists (S d). split; [lia|done].
      * destruct (Hch m Hm) as (d' & Hle & Hd'). exists d'. split; [lia|done].
Qed.

Lemma depth_bound d n : depth L d n → d < length L.
Proof.
  intros (chain & Hlen & Hnd & Hch)%depth_chain.
  assert (chain ⊆+ od_keys L) as Hsub.
  { apply NoDup_submseteq; [done|]. intros m (d' & _ & Hd')%Hch.
    by eapply depth_keys. }
  apply submseteq_length in Hsub. unfold od_keys in Hsub.
  rewrite length_fmap in Hsub. lia.
Qed.

End forest_shape.

(** The equipment node of line 187 is a new object: its key in the store
    is free, because the keys of [equipment] are distinct. *)
Lemma equipment_node_fresh L dL dE st n :
  graph_inv L dL dE [] st → n ∉ od_keys dE → equipment_store st !! n = None.
Proof.
  intros (_ & _ & He) Hn. rewrite He, decide_False; [done|].
  intros (a & p & Hin & _)%elem_of_placed. apply Hn.
  apply list_elem_of_fmap. by exists (n, a).
Qed.

Section below_facts.
Variable L : odict Aux.
Hypothesis L_NoDup : NoDup (od_keys L).

Lemma depth_below d p k m : depth L d p → below L p k m → depth L (d + k) m.
Proof.
  intros Hd Hb. revert d Hd. induction Hb as [p|p c k m Hc _ IH]; intros d Hd.
  - by rewrite Nat.add_0_r.
  - replace (d + S k) with (S d + k) by lia. apply IH.
    by apply depth_child with p.
Qed.

Lemma below_unique k : ∀ p q m, below L p k m → below L q k m → p = q.
Proof.
  induction k as [|k IH]; intros p q m Hp Hq.
  - inversion Hp; inversion Hq; congruence.
  - inversion Hp as [|p' c k' m' Hc Hcm]; subst.
    inversion Hq as [|q' c' k' m' Hc' Hcm']; subst.
    rewrite (IH _ _ _ Hcm Hcm') in Hc.
    by apply (members_of_unique L L_NoDup c').
Qed.

Lemma below_same_depth d p q k1 k2 m :
  depth L d p → depth L d q → below L p k1 m → below L q k2 m → p = q.
Proof.
  intros Hp Hq Hpm Hqm.
  pose proof (depth_fun L L_NoDup _ _ _ (depth_below _ _ _ _ Hp Hpm)
                (depth_below _ _ _ _ Hq Hqm)) as Hk.
  assert (k1 = k2) as -> by lia. by eapply below_unique.
Qed.

Lemma depth_iff_below_root m d :
  depth L d m ↔ ∃ r, r ∈ roots_of L L ∧ below L r d m.
Proof.
  split.
  - induction 1 as [r Hr|n p d Hn _ (r & Hr & Hb)].
    + exists r. split; [done|constructor].
    + exists r. split; [done|]. clear Hr.
      induction Hb as [p|p' c k m Hc _ IH].
      * apply below_child with n; [done|constructor].
      * apply below_child with c; [done|by apply IH].
  - intros (r & Hr & Hb).
    apply (depth_below 0 r d m); [by constructor|done].
Qed.

(** A location on a membership cycle has no depth. *)
Lemma cycle_no_depth n k d : below L n (S k) n → depth L d n → False.
Proof.
  intros Hb Hd.
  pose proof (depth_fun L L_NoDup _ _ _ Hd (depth_below _ _ _ _ Hd Hb)). lia.
Qed.

End below_facts.

(** ** The traversal terminates *)

Lemma frame_refl st : frame st st.
Proof. by split_and!. Qed.

Lemma frame_trans st1 st2 st3 : frame st1 st2 → frame st2 st3 → frame st1 st3.
Proof. intros (?&?&?) (?&?&?). split_and!; congruence. Qed.

Lemma graph_inv_frame L dL dE st st' :
  graph_inv L dL dE [] st → frame st st' → graph_inv L dL dE [] st'.
Proof.
  intros (Hr & Hl & He) (Fr & Fl & Fe). split_and!.
  - by rewrite Fr.
  - intros p. by rewrite Fl, Hl.
  - intros e. by rewrite Fe, He.
Qed.

Lemma graph_inv_shape L E dI st : graph_inv L L E dI st → shape L E st.
Proof.
  intros (Hr & Hl & He). split_and!; [done| |].
  - intros p Hp. eexists. rewrite Hl, decide_True by done. by split_and!.
  - intros e Hpl. eexists. rewrite He, decide_True by done. by split_and!.
Qed.

Lemma shape_frame L E st st' : shape L E st → frame st st' → shape L E st'.
Proof.
  intros (Hr & Hl & He) (Fr & Fl & Fe). split_and!.
  - by rewrite Fr.
  - intros p Hp. rewrite Fl. by apply Hl.
  - intros e Hpl. rewrite Fe. by apply He.
Qed.

Section traversal.
Variables L E : odict Aux.
Hypothesis L_NoDup : NoDup (od_keys L).

Lemma members_of_placed e p : e ∈ members_of L E p → e ∈ placed L E.
Proof.
  intros (a & Ha & Hp)%elem_of_members_of. apply elem_of_placed.
  by exists a, p.
Qed.

(** A loop over nodes whose iterations only add to the equipment lookup:
    the entries added are those that the iterations [cover]. *)
Lemma foldM_lookup (f : Forest → string → res Forest)
    (cover : string → string → Prop) (nodes : list string) (st : Forest) :
  lookup_ok L E st →
  (∀ s c, c ∈ nodes → frame st s → lookup_ok L E s →
     ∃ s', f s c = Ok s' ∧ frame s s' ∧ lookup_ok L E s' ∧
           ∀ k, is_Some (equipment_nodes s' !! k) ↔
                is_Some (equipment_nodes s !! k) ∨ cover c k) →
  ∃ st', foldM f nodes st = Ok st' ∧ frame st st' ∧ lookup_ok L E st' ∧
         ∀ k, is_Some (equipment_nodes st' !! k) ↔
              is_Some (equipment_nodes st !! k) ∨
              ∃ c, c ∈ nodes ∧ cover c k.
Proof.
  intros Hok Hstep.
  destruct (foldM_invariant f
              (λ done s, frame st s ∧ lookup_ok L E s ∧
                 ∀ k, is_Some (equipment_nodes s !! k) ↔
                      is_Some (equipment_nodes st !! k) ∨
                      ∃ c, c ∈ done ∧ cover c k)
              nodes st) as (st' & ? & ? & ? & ?).
  - split_and!; [apply frame_refl|done|]. intros k. split; [by left|].
    by intros [?|(c & ?%elem_of_nil & _)].
  - intros done c rest s Hl (Fs & Hs & Hdom).
    destruct (Hstep s c) as (s' & Hf & Fs' & Hs' & Hdom'); [|done|done|].
    { rewrite Hl. apply elem_of_app. right. left. }
    exists s'. split; [done|].
    split_and!; [by eapply frame_trans|done|].
    intros k. rewrite Hdom', Hdom. split.
    + intros [[?|(c' & ? & ?)]|?]; [by left| |].
      * right. exists c'. split; [|done]. apply elem_of_app. by left.
      * right. exists c. split; [|done]. apply elem_of_app. right. left.
    + intros [?|(c' & [?| ->%list_elem_of_singleton]%elem_of_app & ?)].
      * by left; left.
      * left; right. by exists c'.
      * by right.
  - by exists st'.
Qed.

Lemma register_equipment_step st e :
  shape L E st → lookup_ok L E st → e ∈ placed L E →
  ∃ st', register_equipment st e = Ok st' ∧ frame st st' ∧
         lookup_ok L E st' ∧
         ∀ k, is_Some (equipment_nodes st' !! k) ↔
              is_Some (equipment_nodes st !! k) ∨ k = e.
Proof.
  intros (Hr & Hl & He) Hen Hpl. unfold register_equipment.
  destruct (He e Hpl) as (c & Hc & Hitem).
  rewrite (subscript_Some _ e c Hc).
  simpl_res. eexists. split; [done|]. split; [by split_and!|]. split.
  - intros k v. simpl_st. rewrite Hitem.
    destruct (decide (e = k)) as [->|Hne].
    + rewrite lookup_insert_eq. by intros [= <-].
    + rewrite lookup_insert_ne by done. apply Hen.
  - intros k. simpl_st. rewrite Hitem.
    destruct (decide (e = k)) as [->|Hne].
    + rewrite lookup_insert_eq. split; [by right|by eexists].
    + rewrite lookup_insert_ne by done. split; [by left|].
      by intros [?| ->].
Qed.

Lemma collect_equipment_nodes_ok fuel : ∀ d n st,
  shape L E st → lookup_ok L E st →
  depth L d n → length L ≤ d + fuel →
  ∃ st', collect_equipment_nodes fuel st n = Ok st' ∧ frame st st' ∧
         lookup_ok L E st' ∧
         ∀ k, is_Some (equipment_nodes st' !! k) ↔
              is_Some (equipment_nodes st !! k) ∨
              ∃ j m, below L n j m ∧ k ∈ members_of L E m.
Proof.
  induction fuel as [|fuel IH]; intros d n st Hinv Hen Hd Hfuel.
  - apply (depth_bound _ L_NoDup) in Hd. lia.
  - cbn [collect_equipment_nodes]. pose proof Hinv as (Hr & Hl & He).
    destruct (Hl n) as (cell & Hcell & _ & Hch & Heq);
      [by eapply depth_keys|].
    rewrite (subscript_Some _ n cell Hcell). simpl_res. rewrite Hch, Heq.
    destruct (foldM_lookup register_equipment (λ e k, k = e)
                (members_of L E n) st) as (st1 & -> & F1 & Hen1 & Hdom1).
    { done. }
    { intros s e He' Fs Hs. apply register_equipment_step; [|done|].
      - by eapply shape_frame.
      - by apply (members_of_placed e n). }
    simpl_res.
    destruct (foldM_lookup (collect_equipment_nodes fuel)
                (λ c k, ∃ j m, below L c j m ∧ k ∈ members_of L E m)
                (members_of L L n) st1) as (st2 & -> & F2 & Hen2 & Hdom2).
    { done. }
    { intros s c Hc Fs Hs. apply (IH (S d)); [|done| |lia].
      - eapply shape_frame; [|exact Fs]. by eapply shape_frame.
      - by apply depth_child with n. }
    exists st2. split; [done|].
    split_and!; [by eapply frame_trans|done|].
    intros k. rewrite Hdom2, Hdom1. split.
    + intros [[?|(e & ? & ->)]|(c & Hc & j & m & Hb & Hk)]; [by left| |].
      * right. exists 0, n. split; [constructor|done].
      * right. exists (S j), m. split; [by apply below_child with c|done].
    + intros [?|(j & m & Hb & Hk)]; [by left; left|].
      inversion Hb as [|p c j' m' Hc Hcm]; subst.
      * left; right. by exists k.
      * right. exists c. split; [done|]. by exists j', m.
Qed.

End traversal.

(** ** The assembler returns the specified graph *)

Lemma assemble_spec fuel idx :
  NoDup (od_keys (locations idx)) →
  (∀ k, k ∈ od_keys (locations idx) → k ≠ "") →
  (∀ k, k ∈ od_keys (equipment idx) → k ≠ "") →
  length (locations idx) ≤ fuel →
  ∃ st, assemble fuel idx = Ok st ∧
        graph_inv (locations idx) (locations idx) (equipment idx)
                  (items_by_name idx) st ∧
        lookup_ok (locations idx) (equipment idx) st ∧
        lookup_complete (locations idx) (equipment idx) st.
Proof.
  destruct idx as [I L E]. cbn [items_by_name locations equipment].
  intros L_NoDup L_ne E_ne Hfuel. unfold assemble.
  cbn [items_by_name locations equipment].
  (* lines 171-178 *)
  destruct (foldM_invariant assign_location
              (λ done s, graph_inv L done [] [] s ∧ equipment_nodes s = ∅)
              L {| semantic_tree := [];
                   location_nodes := create_location_nodes L;
                   equipment_store := ∅;
                   equipment_nodes := ∅ |}) as (st1 & -> & Hinv1 & Hen1).
  { split; [apply graph_inv_init|done]. }
  { intros done [n a] rest s HL [Hinv Hen].
    destruct (assign_location_step L done [] [] s n a) as (s' & ? & ? & Hen');
      [|done|].
    - rewrite HL. unfold od_keys. rewrite fmap_app, fmap_cons.
      apply elem_of_app. right. left.
    - exists s'. split; [done|]. split; [done|congruence]. }
  simpl_res.
  (* lines 181-187 *)
  destruct (foldM_invariant assign_equipment
              (λ done s, graph_inv L L done [] s ∧ equipment_nodes s = ∅)
              E st1) as (st2 & -> & Hinv2 & Hen2).
  { done. }
  { intros done [n a] rest s HE [Hinv Hen].
    destruct (assign_equipment_step L L done s n a) as (s' & ? & ? & Hen');
      [done|].
    exists s'. split; [done|]. split; [done|congruence]. }
  simpl_res.
  (* lines 197-198 *)
  assert (lookup_ok L E st2) as Hok2.
  { intros k v. by rewrite Hen2, lookup_empty. }
  pose proof (graph_inv_shape _ _ _ _ Hinv2) as Hshape2.
  destruct (foldM_lookup L E (collect_equipment_nodes fuel)
              (λ r k, ∃ j m, below L r j m ∧ k ∈ members_of L E m)
              (semantic_tree st2) st2) as (st3 & -> & F3 & Hok3 & Hdom3).
  { done. }
  { intros s r Hr Fs Hs.
    apply (collect_equipment_nodes_ok L E L_NoDup fuel 0);
      [by eapply shape_frame|done| |lia].
    apply depth_root. by destruct Hinv2 as (<- & _). }
  simpl_res.
  assert (∀ k, is_Some (equipment_nodes st3 !! k) ↔
               ∃ d m, depth L d m ∧ k ∈ members_of L E m) as Hcomplete.
  { intros k. rewrite Hdom3, Hen2, lookup_empty. split.
    - intros [[? ?]|(r & Hr & j & m & Hb & Hk)]; [done|].
      exists j, m. split; [|done]. apply depth_iff_below_root.
      exists r. split; [|done]. by destruct Hinv2 as (<- & _).
    - intros (d & m & (r & Hr & Hb)%depth_iff_below_root & Hk). right.
      exists r. split; [by destruct Hinv2 as (-> & _)|]. by exists d, m. }
  (* lines 201-217 *)
  assert (graph_inv L L E [] st3) as Hinv3 by by eapply graph_inv_frame.
  assert (∀ k, k ∈ placed L E → k ≠ "") as Hpl_ne.
  { intros k (a & p & Hin & _)%elem_of_placed. apply E_ne.
    apply list_elem_of_fmap. by exists (k, a). }
  destruct (foldM_invariant assign_point
              (λ done s, graph_inv L L E done s ∧
                         equipment_nodes s = equipment_nodes st3)
              I st3) as (st4 & -> & Hinv4 & Hen4).
  { done. }
  { intros done [n it] rest s HI [Hinv Hen].
    destruct (assign_point_step L L E done s n it) as (s' & ? & ? & Hen');
      [done|done|done| |].
    - intros k v. rewrite Hen. apply Hok3.
    - exists s'. split; [done|]. split; [done|congruence]. }
  exists st4. split; [done|]. split; [done|]. split.
  - intros k v. rewrite Hen4. apply Hok3.
  - intros k. rewrite Hen4. apply Hcomplete.
Qed.

(** Each dict of the flat index has at most one key per input record. *)
Lemma od_set_length {V : Type} (d : odict V) k v :
  length (od_set k v d) ≤ S (length d).
Proof.
  induction d as [|[k' v'] d IH]; simpl; [lia|]. case_decide; simpl; lia.
Qed.

Lemma flat_index_length items :
  length (items_by_name (flat_index items)) ≤ length items ∧
  length (locations (flat_index items)) ≤ length items ∧
  length (equipment (flat_index items)) ≤ length items.
Proof.
  induction items as [|it items (IH1 & IH2 & IH3)] using rev_ind.
  - simpl. lia.
  - rewrite flat_index_snoc, length_app. simpl.
    destruct (item_key it) as [k|] eqn:Hk.
    + rewrite (index_step_keyed _ _ _ Hk). simpl.
      pose proof (od_set_length (items_by_name (flat_index items)) k
                    (make_entry k it)).
      pose proof (od_set_length (locations (flat_index items)) k
                    (make_aux k it)).
      pose proof (od_set_length (equipment (flat_index items)) k
                    (make_aux k it)).
      destruct (is_location _), (is_equipment _); lia.
    + rewrite (index_step_skip _ _ Hk). lia.
Qed.

Lemma build_graph_spec fuel items :
  length items ≤ fuel →
  ∃ st, build_graph fuel items = Ok (flat_index items, st) ∧
        graph_inv (locations (flat_index items)) (locations (flat_index items))
                  (equipment (flat_index items))
                  (items_by_name (flat_index items)) st ∧
        lookup_ok (locations (flat_index items))
                  (equipment (flat_index items)) st ∧
        lookup_complete (locations (flat_index items))
                        (equipment (flat_index items)) st.
Proof.
  intros Hfuel. unfold build_graph.
  destruct (flat_index_NoDup items) as (_ & HL & _).
  destruct (flat_index_length items) as (_ & Hlen & _).
  destruct (assemble_spec fuel (flat_index items))
    as (st & -> & Hinv & Hok & Hcomplete).
  - done.
  - apply locations_key_nonempty.
  - apply equipment_key_nonempty.
  - lia.
  - by exists st.
Qed.

(** ** The returned value is a finite forest *)

Lemma mapM_ok {X Y : Type} (f : X → res Y) (P : X → Y → Prop) (l : list X) :
  (∀ x, x ∈ l → ∃ y, f x = Ok y ∧ P x y) →
  ∃ ys, mapM f l = Ok ys ∧ Forall2 P l ys.
Proof.
  induction l as [|x l IH]; intros Hl; simpl.
  - exists []. by split.
  - destruct (Hl x) as (y & -> & Hy); [left|]. simpl_res.
    destruct IH as (ys & -> & Hys); [intros x' ?; apply Hl; by right|].
    simpl_res. exists (y :: ys). split; [done|]. by constructor.
Qed.

Lemma Forall2_elem_l {A B : Type} (P : A → B → Prop) xs ys x :
  Forall2 P xs ys → x ∈ xs → ∃ y, y ∈ ys ∧ P x y.
Proof.
  induction 1 as [|x' y' xs ys Hxy _ IH]; [by intros ?%elem_of_nil|].
  intros [->|Hin]%elem_of_cons.
  - exists y'. split; [left|done].
  - destruct (IH Hin) as (y & ? & ?). exists y. split; [by right|done].
Qed.

Lemma Forall2_elem_r {A B : Type} (P : A → B → Prop) xs ys y :
  Forall2 P xs ys → y ∈ ys → ∃ x, x ∈ xs ∧ P x y.
Proof.
  induction 1 as [|x' y' xs ys Hxy _ IH]; [by intros ?%elem_of_nil|].
  intros [->|Hin]%elem_of_cons.
  - exists x'. split; [left|done].
  - destruct (IH Hin) as (x & ? & ?). exists x. split; [by right|done].
Qed.

Lemma Forall2_fmap_eq {A B : Type} (g : B → A) xs ys :
  Forall2 (λ x y, g y = x) xs ys → g <$> ys = xs.
Proof. induction 1; csimpl; congruence. Qed.

(** Sub-trees hanging under distinct nodes are disjoint when a location
    has a single chain of ancestors. *)
Lemma NoDup_bind_Forall2 {A B C : Type} (Q : A → C → Prop) (f : B → list C)
    (xs : list A) (ys : list B) :
  NoDup xs →
  Forall2 (λ x y, NoDup (f y) ∧ ∀ z, z ∈ f y → Q x z) xs ys →
  (∀ x1 x2 z, x1 ∈ xs → x2 ∈ xs → Q x1 z → Q x2 z → x1 = x2) →
  NoDup (ys ≫= f).
Proof.
  intros Hnd Hall. revert Hnd.
  induction Hall as [|x y xs ys [Hy HQ] Hall IH]; intros Hnd Huniq.
  - constructor.
  - apply NoDup_cons in Hnd as [Hx Hnd]. rewrite bind_cons.
    apply NoDup_app. split_and!; [done| |].
    + intros z Hz (y' & Hz' & Hy')%list_elem_of_bind.
      destruct (Forall2_elem_r _ _ _ _ Hall Hy') as (x' & Hx' & _ & HQ').
      apply Hx. rewrite (Huniq x x' z); [done|left|by right|auto|auto].
    + apply IH; [done|]. intros x1 x2 z ? ?. apply Huniq; by right.
Qed.

Lemma bind_bind_Forall {A B C : Type} (f : A → list B) (g : A → list C)
    (h : B → list C) (l : list A) :
  Forall (λ x, g x = f x ≫= h) l → l ≫= g = (l ≫= f) ≫= h.
Proof.
  induction 1 as [|x l Hx _ IH]; [done|].
  by rewrite !bind_cons, bind_app, Hx, IH.
Qed.

Section reading.
Variables L E : odict Aux.
Variable I : odict Entry.
Hypothesis L_NoDup : NoDup (od_keys L).

Variable st : Forest.
Hypothesis st_graph : graph_inv L L E I st.

Lemma read_equipment_placed e :
  e ∈ placed L E →
  read_equipment st e =
    Ok {| en_item := e;
          en_points := eq_points_of (equipment_nodes st) I e |}.
Proof.
  destruct st_graph as (_ & _ & He). intros Hpl. unfold read_equipment.
  erewrite (subscript_Some _ e) by (by rewrite He, decide_True). done.
Qed.

Lemma read_equipment_ok (l : list string) :
  (∀ e, e ∈ l → e ∈ placed L E) →
  mapM (read_equipment st) l =
    Ok ((λ e, {| en_item := e;
                 en_points := eq_points_of (equipment_nodes st) I e |})
          <$> l).
Proof.
  induction l as [|e l IH]; intros Hl; [done|].
  cbn [mapM]. rewrite read_equipment_placed by (apply Hl; left).
  simpl_res. rewrite IH by (intros e' ?; apply Hl; by right). done.
Qed.

Lemma read_location_ok fuel : ∀ d n,
  depth L d n → length L ≤ d + fuel →
  ∃ t, read_location fuel st n = Ok t ∧
       tree_ok L E I (equipment_nodes st) n t.
Proof.
  induction fuel as [|fuel IH]; intros d n Hd Hfuel.
  - apply (depth_bound _ L_NoDup) in Hd. lia.
  - cbn [read_location]. pose proof st_graph as (_ & Hl & _).
    erewrite (subscript_Some _ n)
      by (rewrite Hl, decide_True; [done|by eapply depth_keys]).
    simpl_res. cbn [loc_item loc_children_locations loc_equipment loc_points].
    destruct (mapM_ok (read_location fuel st)
                (tree_ok L E I (equipment_nodes st)) (members_of L L n))
      as (ts & -> & Hts).
    { intros c Hc. apply (IH (S d)); [by apply depth_child with n|lia]. }
    simpl_res.
    rewrite read_equipment_ok by (intros e; apply members_of_placed).
    simpl_res. eexists. split; [done|].
    assert (∀ z, z ∈ ts ≫= tree_locations →
                 ∃ c k, c ∈ members_of L L n ∧ below L c k z) as Hsub.
    { intros z (t & Hz & Ht)%list_elem_of_bind.
      destruct (Forall2_elem_r _ _ _ _ Hts Ht) as (c & Hc & Hok).
      destruct Hok as (_ & _ & _ & _ & _ & Hm & _).
      apply Hm in Hz as [k Hk]. by exists c, k. }
    split_and!; cbn [node_item node_children node_equipment node_points
                     tree_locations tree_equipment tree_point_refs].
    + done.
    + apply Forall2_fmap_eq. eapply Forall2_impl; [exact Hts|].
      by intros c t (? & _).
    + done.
    + done.
    + apply NoDup_cons. split.
      * intros (c & k & Hc & Hb)%Hsub.
        apply (cycle_no_depth L L_NoDup n k d); [by apply below_child with c|done].
      * apply (NoDup_bind_Forall2 (λ c z, ∃ k, below L c k z) _
                 (members_of L L n)).
        -- by apply filter_keys_NoDup.
        -- eapply Forall2_impl; [exact Hts|].
           intros c t (_ & _ & _ & _ & Hnd & Hm & _). split; [done|].
           intros z. apply Hm.
        -- intros c1 c2 z Hc1 Hc2 [k1 Hk1] [k2 Hk2].
           apply (below_same_depth L L_NoDup (S d) c1 c2 k1 k2 z);
             [by apply depth_child with n|by apply depth_child with n|done|done].
    + intros m. rewrite elem_of_cons. split.
      * intros [->|(c & k & Hc & Hb)%Hsub]; [exists 0; constructor|].
        exists (S k). by apply below_child with c.
      * intros [k Hb]. inversion Hb as [|p c k' m' Hc Hcm]; subst; [by left|].
        right. destruct (Forall2_elem_l _ _ _ _ Hts Hc) as (t & Ht & Hok).
        destruct Hok as (_ & _ & _ & _ & _ & Hm & _).
        apply list_elem_of_bind. exists t. split; [|done].
        apply Hm. by exists k'.
    + rewrite bind_cons. f_equal.
      apply bind_bind_Forall, Forall_forall. intros t Ht.
      destruct (Forall2_elem_r _ _ _ _ Hts Ht) as (c & _ & Hok).
      by destruct Hok as (_ & _ & _ & _ & _ & _ & Heq & _).
    + rewrite bind_cons. f_equal.
      apply bind_bind_Forall, Forall_forall. intros t Ht.
      destruct (Forall2_elem_r _ _ _ _ Hts Ht) as (c & _ & Hok).
      by destruct Hok as (_ & _ & _ & _ & _ & _ & _ & Heq).
Qed.

End reading.

(** ** More fuel does not change a result *)

Lemma foldM_mono {S X : Type} (f g : S → X → res S) (l : list X) :
  (∀ s x s', f s x = Ok s' → g s x = Ok s') →
  ∀ s s', foldM f l s = Ok s' → foldM g l s = Ok s'.
Proof.
  intros Hfg. induction l as [|x l IH]; intros s s'; simpl; [done|].
  destruct (f s x) as [s1|] eqn:Hf; simpl_res; [|done].
  rewrite (Hfg _ _ _ Hf). simpl_res. apply IH.
Qed.

Lemma mapM_mono {X Y : Type} (f g : X → res Y) (l : list X) :
  (∀ x y, f x = Ok y → g x = Ok y) →
  ∀ ys, mapM f l = Ok ys → mapM g l = Ok ys.
Proof.
  intros Hfg. induction l as [|x l IH]; intros ys; simpl; [done|].
  destruct (f x) as [y|] eqn:Hf; simpl_res; [|done].
  rewrite (Hfg _ _ Hf). simpl_res.
  destruct (mapM f l) as [ys'|] eqn:Hm; simpl_res; [|done].
  by rewrite (IH _ eq_refl).
Qed.

Lemma collect_equipment_nodes_S fuel : ∀ st n st',
  collect_equipment_nodes fuel st n = Ok st' →
  collect_equipment_nodes (S fuel) st n = Ok st'.
Proof.
  induction fuel as [|fuel IH]; intros st n st'; [done|].
  intros H. cbn [collect_equipment_nodes] in *.
  destruct (subscript (location_nodes st) n) as [node|]; simpl_res; [|done].
  simpl_res in H.
  destruct (foldM register_equipment (loc_equipment node) st) as [st1|];
    simpl_res; [|done].
  revert H. apply foldM_mono. apply IH.
Qed.

Lemma collect_equipment_nodes_mono fuel fuel' st n st' :
  fuel ≤ fuel' →
  collect_equipment_nodes fuel st n = Ok st' →
  collect_equipment_nodes fuel' st n = Ok st'.
Proof.
  induction 1 as [|fuel' _ IH]; [done|].
  intros H. by apply collect_equipment_nodes_S, IH.
Qed.

Lemma read_location_unfold fuel st n :
  read_location (S fuel) st n =
    (node ← subscript (location_nodes st) n;
     children ← mapM (read_location fuel st) (loc_children_locations node);
     eqs ← mapM (read_equipment st) (loc_equipment node);
     Ok (mkLocationNode (loc_item node) children eqs (loc_points node))).
Proof. done. Qed.

Lemma read_location_S fuel : ∀ st n t,
  read_location fuel st n = Ok t → read_location (S fuel) st n = Ok t.
Proof.
  induction fuel as [|fuel IH]; intros st n t; [done|].
  rewrite (read_location_unfold (S fuel)), (read_location_unfold fuel).
  destruct (subscript (location_nodes st) n) as [node|]; simpl_res; [|done].
  destruct (mapM (read_location fuel st) (loc_children_locations node))
    as [ts|] eqn:Hts; simpl_res; [|done].
  by rewrite (mapM_mono _ (read_location (S fuel) st) _ (IH st) _ Hts).
Qed.

Lemma read_location_mono fuel fuel' st n t :
  fuel ≤ fuel' →
  read_location fuel st n = Ok t → read_location fuel' st n = Ok t.
Proof.
  induction 1 as [|fuel' _ IH]; [done|].
  intros H. by apply read_location_S, IH.
Qed.

Lemma build_graph_mono fuel fuel' items r :
  fuel ≤ fuel' →
  build_graph fuel items = Ok r → build_graph fuel' items = Ok r.
Proof.
  intros Hle. unfold build_graph, assemble.
  destruct (foldM assign_location _ _) as [st1|]; simpl_res; [|done].
  destruct (foldM assign_equipment _ _) as [st2|]; simpl_res; [|done].
  destruct (foldM (collect_equipment_nodes fuel) _ _) as [st3|] eqn:H3;
    simpl_res; [|done].
  rewrite (foldM_mono _ (collect_equipment_nodes fuel') _
             (λ s x s', collect_equipment_nodes_mono _ _ s x s' Hle) _ _ H3).
  done.
Qed.

Lemma build_items_index_mono fuel fuel' items out :
  fuel ≤ fuel' →
  build_items_index fuel items = Ok out →
  build_items_index fuel' items = Ok out.
Proof.
  intros Hle. unfold build_items_index.
  destruct (build_graph fuel items) as [[idx st]|] eqn:Hg; simpl_res; [|done].
  rewrite (build_graph_mono _ _ _ _ Hle Hg). simpl_res.
  destruct (mapM (read_location fuel st) _) as [ts|] eqn:Hts;
    simpl_res; [|done].
  by rewrite (mapM_mono _ (read_location fuel' st) _
                (λ x y, read_location_mono _ _ st x y Hle) _ Hts).
Qed.

(** ** The result of [build_items_index] *)

Lemma build_items_index_spec fuel items :
  length items ≤ fuel →
  ∃ st out,
    build_graph fuel items = Ok (flat_index items, st) ∧
    build_items_index fuel items = Ok out ∧
    graph_inv (locations (flat_index items)) (locations (flat_index items))
              (equipment (flat_index items))
              (items_by_name (flat_index items)) st ∧
    lookup_ok (locations (flat_index items))
              (equipment (flat_index items)) st ∧
    out_items_by_name out = items_by_name (flat_index items) ∧
    Forall2 (tree_ok (locations (flat_index items))
                     (equipment (flat_index items))
                     (items_by_name (flat_index items))
                     (equipment_nodes st))
            (semantic_tree st) (out_semantic_tree out) ∧
    lookup_complete (locations (flat_index items))
                    (equipment (flat_index items)) st.
Proof.
  intros Hfuel.
  destruct (build_graph_spec fuel items Hfuel)
    as (st & Hg & Hinv & Hok & Hcomplete).
  destruct (flat_index_NoDup items) as (_ & HL & _).
  destruct (flat_index_length items) as (_ & Hlen & _).
  unfold build_items_index. rewrite Hg. simpl_res.
  destruct (mapM_ok (read_location fuel st)
              (tree_ok (locations (flat_index items))
                       (equipment (flat_index items))
                       (items_by_name (flat_index items))
                       (equipment_nodes st))
              (semantic_tree st)) as (ts & -> & Hts).
  { intros r Hr. eapply (read_location_ok _ _ _ HL st Hinv fuel 0); [|lia].
    apply depth_root. by destruct Hinv as (<- & _). }
  simpl_res. exists st. eexists. by split_and!.
Qed.

(** ** First match in a list of names *)

Lemma head_filter_first_match (P : string → Prop) `{!∀ g, Decision (P g)}
    gs g :
  head (filter P gs) = Some g ↔ first_match P gs g.
Proof.
  induction gs as [|h gs IH].
  - split; [done|]. intros (pre & post & Heq & _). by destruct pre.
  - destruct (decide (P h)) as [Hh|Hh].
    + rewrite filter_cons_True by done. simpl. split.
      * intros [= ->]. exists [], gs. split; [done|]. split; [done|].
        by intros ? ?%elem_of_nil.
      * intros (pre & post & Heq & Hg & Hpre). destruct pre as [|h' pre].
        -- simpl in Heq. by simplify_eq.
        -- simpl in Heq. simplify_eq. destruct (Hpre h'); [left|done].
    + rewrite filter_cons_False by done. rewrite IH. split.
      * intros (pre & post & -> & Hg & Hpre). exists (h :: pre), post.
        split; [done|]. split; [done|].
        intros h' [->|?]%elem_of_cons; [done|by apply Hpre].
      * intros (pre & post & Heq & Hg & Hpre). destruct pre as [|h' pre].
        -- simpl in Heq. by simplify_eq.
        -- simpl in Heq. simplify_eq. exists pre, post. split; [done|].
           split; [done|]. intros h ?. apply Hpre. by right.
Qed.

Lemma head_filter_no_match (P : string → Prop) `{!∀ g, Decision (P g)} gs :
  head (filter P gs) = None ↔ no_match P gs.
Proof.
  unfold no_match. rewrite head_None. induction gs as [|h gs IH].
  - split; [constructor|done].
  - destruct (decide (P h)) as [Hh|Hh].
    + rewrite filter_cons_True by done. split; [done|].
      intros [? _]%Forall_cons. done.
    + rewrite filter_cons_False by done. rewrite IH, Forall_cons. naive_solver.
Qed.

Lemma filter_nil_no_match (P : string → Prop) `{!∀ g, Decision (P g)} gs :
  filter P gs = [] ↔ no_match P gs.
Proof. rewrite <-head_None. apply (head_filter_no_match P gs). Qed.

Lemma first_match_or_no_match (P : string → Prop) `{!∀ g, Decision (P g)} gs :
  no_match P gs ∨ ∃ g, first_match P gs g.
Proof.
  destruct (head (filter P gs)) as [g|] eqn:Hh.
  - right. exists g. by apply (head_filter_first_match P gs g).
  - left. by apply (head_filter_no_match P gs).
Qed.

Lemma next_in_first_match {V : Type} (nodes : gmap string V) gs g :
  next_in nodes gs = Some g ↔
  first_match (λ g, is_Some (nodes !! g)) gs g.
Proof. apply (head_filter_first_match (λ g, is_Some (nodes !! g))). Qed.

Lemma next_in_no_match {V : Type} (nodes : gmap string V) gs :
  next_in nodes gs = None ↔ no_match (λ g, is_Some (nodes !! g)) gs.
Proof. apply (head_filter_no_match (λ g, is_Some (nodes !! g))). Qed.

Lemma last_filter_split {A : Type} (P : A → Prop) `{!∀ x, Decision (P x)}
    (l : list A) (x : A) :
  last (filter P l) = Some x →
  ∃ pre post, l = pre ++ x :: post ∧ P x ∧ ∀ y, y ∈ post → ¬ P y.
Proof.
  induction l as [|y l IH] using rev_ind; [done|].
  rewrite filter_app. destruct (decide (P y)) as [Hy|Hy].
  - rewrite filter_cons_True, filter_nil, last_snoc by done.
    intros [= ->]. exists l, []. split; [done|]. split; [done|].
    by intros ? ?%elem_of_nil.
  - rewrite filter_cons_False, filter_nil, app_nil_r by done.
    intros (pre & post & -> & Hx & Hpost)%IH.
    exists pre, (post ++ [y]). split; [by rewrite <-app_assoc|].
    split; [done|].
    intros z [?| ->%list_elem_of_singleton]%elem_of_app; [by apply Hpost|done].
Qed.

(** * The claims *)

(** ** Tag classifier *)




(** ** Flat index *)

Lemma filter_none {A : Type} (P : A → Prop) `{!∀ x, Decision (P x)}
    (l : list A) :
  (∀ x, x ∈ l → ¬ P x) → filter P l = [].
Proof.
  induction l as [|x l IH]; intros Hl; [done|].
  rewrite filter_cons, decide_False by (apply Hl; left).
  apply IH. intros x' ?. apply Hl. by right.
Qed.

Lemma last_keyed pre it post k :
  item_key it = Some k →
  (∀ it', it' ∈ post → item_key it' ≠ Some k) →
  last (filter (keyed k) (pre ++ it :: post)) = Some it.
Proof.
  intros Hk Hpost.
  rewrite filter_app, filter_cons, decide_True by done.
  rewrite (filter_none _ post) by done. apply last_snoc.
Qed.

(** C5: [items_by_name] has exactly one entry per distinct non-empty
    name of the input, and the entry stored under a name reflects the
    last record of the input that carries this name: each of its fields
    is the field of that record (an absent list is empty), its flags are
    the classification of that record's tags. *)
Theorem C5_last_write_wins (fuel : nat) (items : list Item) :
  length items ≤ fuel →
  ∃ out, build_items_index fuel items = Ok out ∧
    NoDup (od_keys (out_items_by_name out)) ∧
    (∀ k, k ∈ od_keys (out_items_by_name out) ↔
          k ≠ "" ∧ ∃ it, it ∈ items ∧ it_name it = Some k) ∧
    (∀ pre it post k,
       items = pre ++ it :: post →
       it_name it = Some k → k ≠ "" →
       (∀ it', it' ∈ post → it_name it' ≠ Some k) →
       ∃ e, od_get k (out_items_by_name out) = Some e ∧
            (∀ e', (k, e') ∈ out_items_by_name out → e' = e) ∧
            e = make_entry k it ∧
            name e = k ∧
            label e = it_label it ∧
            type e = it_type it ∧
            category e = it_category it ∧
            tags e = or_empty (it_tags it) ∧
            groupNames e = or_empty (it_groupNames it) ∧
            metadata e = or_empty (it_metadata it) ∧
            semantic e = classify (or_empty (it_tags it)) ∧
            rest_url e = "/rest/items/" +:+ k).
Proof.
  intros Hfuel.
  destruct (build_items_index_spec fuel items Hfuel)
    as (st & out & _ & Hout & _ & _ & Hibn & _).
  destruct (flat_index_NoDup items) as (Hnd & _ & _).
  exists out. rewrite Hibn. split_and!; [done|done| |].
  - intros k. rewrite elem_of_items_by_name. split.
    + intros (it & Hin & [Hn Hne]%item_key_Some). eauto.
    + intros (Hne & it & Hin & Hn). exists it. split; [done|].
      by apply item_key_Some.
  - intros pre it post k -> Hn Hne Hpost.
    assert (od_get k (items_by_name (flat_index (pre ++ it :: post))) =
              Some (make_entry k it)) as Hget.
    { rewrite flat_index_get_item, last_keyed; [done| |].
      - by apply item_key_Some.
      - intros it' Hin [Hn' _]%item_key_Some. by apply (Hpost it'). }
    exists (make_entry k it). split; [done|]. split.
    { intros e He%(od_elem_get _ _ _ Hnd). congruence. }
    by split_and!.
Qed.

(** C6: a record whose name is missing or empty changes nothing: its
    iteration leaves the flat index and both auxiliary dicts as they
    were, and the whole run is the run on the input without the record,
    which returns a result. *)
Theorem C6_nameless_skipped (fuel : nat) (pre post : list Item) (it : Item) :
  it_name it = None ∨ it_name it = Some "" →
  (∀ st, index_step st it = st) ∧
  flat_index (pre ++ it :: post) = flat_index (pre ++ post) ∧
  build_graph fuel (pre ++ it :: post) = build_graph fuel (pre ++ post) ∧
  build_items_index fuel (pre ++ it :: post) =
    build_items_index fuel (pre ++ post) ∧
  (length (pre ++ post) ≤ fuel →
   ∃ out, build_items_index fuel (pre ++ it :: post) = Ok out).
Proof.
  intros Hn%item_key_None.
  assert (flat_index (pre ++ it :: post) = flat_index (pre ++ post)) as Hflat.
  { unfold flat_index. rewrite !fold_left_app. simpl.
    by rewrite index_step_skip. }
  assert (build_graph fuel (pre ++ it :: post) =
            build_graph fuel (pre ++ post)) as Hgraph.
  { unfold build_graph. by rewrite Hflat. }
  assert (build_items_index fuel (pre ++ it :: post) =
            build_items_index fuel (pre ++ post)) as Hout.
  { unfold build_items_index. by rewrite Hgraph. }
  split_and!; [|done|done|done|].
  - intros st. by apply index_step_skip.
  - intros Hfuel. rewrite Hout.
    destruct (build_items_index_spec fuel (pre ++ post) Hfuel)
      as (_ & out & _ & ? & _). by exists out.
Qed.

(** ** The forest as a whole *)

Lemma members_of_unique_in (L l : odict Aux) n p q :
  NoDup (od_keys l) →
  n ∈ members_of L l p → n ∈ members_of L l q → p = q.
Proof.
  intros Hnd (a & Ha & Hp)%elem_of_members_of (a' & Ha' & Hq)%elem_of_members_of.
  apply (od_elem_get _ _ _ Hnd) in Ha, Ha'. congruence.
Qed.

Lemma elem_of_eq_points_of en (l : odict Entry) x e :
  x ∈ eq_points_of en l e ↔
  ∃ it, (x, it) ∈ l ∧ equipment_owner en it = Some e.
Proof.
  unfold eq_points_of. rewrite list_elem_of_fmap. split.
  - intros ([x' it] & -> & [? ?]%list_elem_of_filter). by exists it.
  - intros (it & Hin & Hf). exists (x, it). split; [done|].
    by apply list_elem_of_filter.
Qed.

Lemma elem_of_loc_points_of en L (l : odict Entry) x p :
  x ∈ loc_points_of en L l p ↔
  ∃ it, (x, it) ∈ l ∧ location_owner en L it = Some p.
Proof.
  unfold loc_points_of. rewrite list_elem_of_fmap. split.
  - intros ([x' it] & -> & [? ?]%list_elem_of_filter). by exists it.
  - intros (it & Hin & Hf). exists (x, it). split; [done|].
    by apply list_elem_of_filter.
Qed.

Lemma owner_exclusive en L it e p :
  equipment_owner en it = Some e → location_owner en L it = Some p → False.
Proof.
  unfold equipment_owner, location_owner.
  destruct (isPoint (semantic it)); [|done].
  by destruct (next_in en (groupNames it)).
Qed.

Section forest.
Variables L E : odict Aux.
Variable I : odict Entry.
Variable en : gmap string string.
Hypothesis L_NoDup : NoDup (od_keys L).
Hypothesis E_NoDup : NoDup (od_keys E).
Hypothesis I_NoDup : NoDup (od_keys I).

Lemma equipment_at_points m :
  equipment_at L E I en m ≫= en_points =
    members_of L E m ≫= eq_points_of en I.
Proof. unfold equipment_at. by rewrite list_fmap_bind. Qed.

Lemma elem_of_refs_at x m :
  x ∈ refs_at L E I en m ↔
  ∃ it, (x, it) ∈ I ∧
        (location_owner en L it = Some m ∨
         ∃ e, equipment_owner en it = Some e ∧ e ∈ members_of L E m).
Proof.
  unfold refs_at. rewrite elem_of_app, equipment_at_points.
  rewrite elem_of_loc_points_of, list_elem_of_bind. split.
  - intros [(it & ? & ?)|(e & (it & ? & ?)%elem_of_eq_points_of & ?)];
      exists it; eauto.
  - intros (it & Hin & [?|(e & ? & ?)]); [left; eauto|].
    right. exists e. split; [|done]. apply elem_of_eq_points_of. eauto.
Qed.

Lemma refs_at_NoDup m : NoDup (refs_at L E I en m).
Proof.
  unfold refs_at. rewrite equipment_at_points. apply NoDup_app. split_and!.
  - by apply filter_keys_NoDup.
  - intros x (it & Hin & Hl)%elem_of_loc_points_of
             (e & (it' & Hin' & He)%elem_of_eq_points_of & _)%list_elem_of_bind.
    apply (od_elem_get _ _ _ I_NoDup) in Hin, Hin'.
    assert (it = it') as <- by congruence. by eapply owner_exclusive.
  - apply NoDup_bind.
    + intros e1 e2 x _ _ (it & Hin & H1)%elem_of_eq_points_of
                         (it' & Hin' & H2)%elem_of_eq_points_of.
      apply (od_elem_get _ _ _ I_NoDup) in Hin, Hin'. congruence.
    + intros e _. by apply filter_keys_NoDup.
    + by apply filter_keys_NoDup.
Qed.

Lemma refs_at_disjoint m1 m2 x :
  x ∈ refs_at L E I en m1 → x ∈ refs_at L E I en m2 → m1 = m2.
Proof.
  intros (it & Hin & H1)%elem_of_refs_at (it' & Hin' & H2)%elem_of_refs_at.
  apply (od_elem_get _ _ _ I_NoDup) in Hin, Hin'.
  assert (it = it') as <- by congruence.
  destruct H1 as [H1|(e1 & He1 & Hm1)], H2 as [H2|(e2 & He2 & Hm2)].
  - congruence.
  - by destruct (owner_exclusive _ _ _ _ _ He2 H1).
  - by destruct (owner_exclusive _ _ _ _ _ He1 H2).
  - assert (e1 = e2) as -> by congruence.
    by apply (members_of_unique_in L E e2).
Qed.

Variables (roots : list string) (trees : list LocationNode).
Hypothesis roots_eq : roots = roots_of L L.
Hypothesis trees_ok : Forall2 (tree_ok L E I en) roots trees.

Lemma forest_roots : node_item <$> trees = roots.
Proof.
  apply Forall2_fmap_eq. eapply Forall2_impl; [exact trees_ok|].
  by intros r t (? & _).
Qed.

Lemma forest_locations_NoDup : NoDup (trees ≫= tree_locations).
Proof.
  apply (NoDup_bind_Forall2 (λ r z, ∃ k, below L r k z) _ roots).
  - rewrite roots_eq. by apply filter_keys_NoDup.
  - eapply Forall2_impl; [exact trees_ok|].
    intros r t (_ & _ & _ & _ & Hnd & Hm & _). split; [done|].
    intros z. apply Hm.
  - rewrite roots_eq. intros r1 r2 z Hr1 Hr2 [k1 Hk1] [k2 Hk2].
    apply (below_same_depth L L_NoDup 0 r1 r2 k1 k2 z);
      [by constructor|by constructor|done|done].
Qed.

Lemma elem_of_forest_locations m :
  m ∈ trees ≫= tree_locations ↔ ∃ d, depth L d m.
Proof.
  rewrite list_elem_of_bind. split.
  - intros (t & Hm & Ht).
    destruct (Forall2_elem_r _ _ _ _ trees_ok Ht) as (r & Hr & Hok).
    destruct Hok as (_ & _ & _ & _ & _ & Hin & _).
    apply Hin in Hm as [k Hk]. exists k.
    apply depth_iff_below_root. exists r. by rewrite <-roots_eq.
  - intros [d (r & Hr & Hb)%depth_iff_below_root]. rewrite <-roots_eq in Hr.
    destruct (Forall2_elem_l _ _ _ _ trees_ok Hr) as (t & Ht & Hok).
    destruct Hok as (_ & _ & _ & _ & _ & Hin & _).
    exists t. split; [|done]. apply Hin. by exists d.
Qed.

Lemma forest_equipment :
  trees ≫= tree_equipment =
    (trees ≫= tree_locations) ≫= equipment_at L E I en.
Proof.
  apply bind_bind_Forall, Forall_forall. intros t Ht.
  destruct (Forall2_elem_r _ _ _ _ trees_ok Ht) as (r & _ & Hok).
  by destruct Hok as (_ & _ & _ & _ & _ & _ & Heq & _).
Qed.

Lemma forest_point_refs :
  trees ≫= tree_point_refs = (trees ≫= tree_locations) ≫= refs_at L E I en.
Proof.
  apply bind_bind_Forall, Forall_forall. intros t Ht.
  destruct (Forall2_elem_r _ _ _ _ trees_ok Ht) as (r & _ & Hok).
  by destruct Hok as (_ & _ & _ & _ & _ & _ & _ & Heq).
Qed.

Lemma forest_point_refs_NoDup : NoDup (trees ≫= tree_point_refs).
Proof.
  rewrite forest_point_refs. apply NoDup_bind.
  - intros m1 m2 x _ _. apply refs_at_disjoint.
  - intros m _. apply refs_at_NoDup.
  - apply forest_locations_NoDup.
Qed.

Lemma forest_equipment_placed x :
  x ∈ trees ≫= tree_equipment → en_item x ∈ placed L E.
Proof.
  rewrite forest_equipment.
  intros (m & Hx & _)%list_elem_of_bind. unfold equipment_at in Hx.
  apply list_elem_of_fmap in Hx as (e & -> & He).
  by apply (members_of_placed L E e m).
Qed.

Lemma forest_equipment_items g :
  (∃ x, x ∈ trees ≫= tree_equipment ∧ en_item x = g) ↔
  ∃ d m, depth L d m ∧ g ∈ members_of L E m.
Proof.
  rewrite forest_equipment. split.
  - intros (x & (m & Hx & Hm)%list_elem_of_bind & <-).
    apply elem_of_forest_locations in Hm as [d Hd]. exists d, m.
    split; [done|]. unfold equipment_at in Hx.
    by apply list_elem_of_fmap in Hx as (e & -> & He).
  - intros (d & m & Hd & Hg).
    exists {| en_item := g; en_points := eq_points_of en I g |}.
    split; [|done]. apply list_elem_of_bind. exists m. split.
    + unfold equipment_at. apply list_elem_of_fmap. by exists g.
    + apply elem_of_forest_locations. by exists d.
Qed.

End forest.

(** ** Placement of locations and equipment *)

Lemma members_of_iff (L l : odict Aux) n a q :
  NoDup (od_keys l) → (n, a) ∈ l →
  n ∈ members_of L l q ↔ head (candidates L (aux_groupNames a)) = Some q.
Proof.
  intros Hnd Hin. rewrite elem_of_members_of. unfold first_location. split.
  - intros (a' & Ha' & Hf).
    apply (od_elem_get _ _ _ Hnd) in Hin, Ha'. congruence.
  - intros Hf. by exists a.
Qed.

Lemma roots_of_iff (L l : odict Aux) n a :
  NoDup (od_keys l) → (n, a) ∈ l →
  n ∈ roots_of L l ↔ candidates L (aux_groupNames a) = [].
Proof.
  intros Hnd Hin. rewrite elem_of_roots_of, <-head_None.
  unfold first_location. split.
  - intros (a' & Ha' & Hf).
    apply (od_elem_get _ _ _ Hnd) in Hin, Ha'. congruence.
  - intros Hf. by exists a.
Qed.

Lemma graph_lookup_location L dL dE dI st q cell :
  graph_inv L dL dE dI st →
  location_nodes st !! q = Some cell →
  q ∈ od_keys L ∧ loc_item cell = q ∧
  loc_children_locations cell = members_of L dL q ∧
  loc_equipment cell = members_of L dE q ∧
  loc_points cell = loc_points_of (equipment_nodes st) L dI q.
Proof.
  intros (_ & Hl & _). rewrite Hl. case_decide; [|done].
  by intros [= <-].
Qed.

Lemma graph_lookup_equipment L dL dE dI st e c :
  graph_inv L dL dE dI st →
  equipment_store st !! e = Some c →
  e ∈ placed L dE ∧ eq_item c = e ∧
  eq_points c = eq_points_of (equipment_nodes st) dI e.
Proof.
  intros (_ & _ & He). rewrite He. case_decide; [|done].
  by intros [= <-].
Qed.

Lemma graph_location_is_Some L dL dE dI st q :
  graph_inv L dL dE dI st →
  is_Some (location_nodes st !! q) ↔ q ∈ od_keys L.
Proof.
  intros (_ & Hl & _). rewrite Hl. case_decide; [|by rewrite is_Some_alt].
  split; [done|]. intros _. by eexists.
Qed.

(** C1: the location nodes are named by the non-empty names of the
    records tagged as a location, and the parent candidates that the
    code computes ([parent_candidates]) are the group names, in their
    order, that name a location node.  A location entry none of whose
    group names is a location node is a root, and the root list, which
    is the root list of the returned forest, is these locations in the
    iteration order of [locations].  A location entry whose first group
    name that is a location node is [parent] (no earlier group name is
    one) is a child of [parent] and of no other node, and is no root.
    The same holds for the equipment list an equipment entry is in.
    The group names of an entry are those of the last record of its
    name that is tagged as a location, or as equipment. *)
Theorem C1_first_match_parent (fuel : nat) (items : list Item) :
  length items ≤ fuel →
  ∃ st out,
    build_graph fuel items = Ok (flat_index items, st) ∧
    build_items_index fuel items = Ok out ∧
    let L := locations (flat_index items) in
    let E := equipment (flat_index items) in
    let is_loc := λ g, g ∈ od_keys L in
    node_item <$> out_semantic_tree out = semantic_tree st ∧
    (∀ g, is_Some (location_nodes st !! g) ↔ is_loc g) ∧
    (∀ g, is_loc g ↔
          g ≠ "" ∧ ∃ it, it ∈ items ∧ it_name it = Some g ∧
                         is_location (or_empty (it_tags it)) = true) ∧
    (∀ gs, parent_candidates (location_nodes st) gs = filter is_loc gs) ∧
    (∀ gs g, head (parent_candidates (location_nodes st) gs) = Some g ↔
             first_match is_loc gs g) ∧
    semantic_tree st =
      (filter (λ kv, no_match is_loc (aux_groupNames kv.2)) L).*1 ∧
    (∀ n loc, (n, loc) ∈ L →
       (no_match is_loc (aux_groupNames loc) →
          n ∈ semantic_tree st ∧
          ∀ q cell, location_nodes st !! q = Some cell →
                    n ∉ loc_children_locations cell) ∧
       (∀ parent, first_match is_loc (aux_groupNames loc) parent →
          (n ∉ semantic_tree st) ∧
          is_Some (location_nodes st !! parent) ∧
          ∀ q cell, location_nodes st !! q = Some cell →
                    (n ∈ loc_children_locations cell ↔ q = parent))) ∧
    (∀ e eq, (e, eq) ∈ E →
       (no_match is_loc (aux_groupNames eq) →
          ∀ q cell, location_nodes st !! q = Some cell →
                    e ∉ loc_equipment cell) ∧
       (∀ parent, first_match is_loc (aux_groupNames eq) parent →
          is_Some (location_nodes st !! parent) ∧
          ∀ q cell, location_nodes st !! q = Some cell →
                    (e ∈ loc_equipment cell ↔ q = parent))) ∧
    (∀ n loc, (n, loc) ∈ L →
       ∃ pre it post,
         items = pre ++ it :: post ∧ location_keyed n it ∧
         (∀ it', it' ∈ post → ¬ location_keyed n it') ∧
         aux_groupNames loc = or_empty (it_groupNames it)) ∧
    (∀ e eq, (e, eq) ∈ E →
       ∃ pre it post,
         items = pre ++ it :: post ∧ equipment_keyed e it ∧
         (∀ it', it' ∈ post → ¬ equipment_keyed e it') ∧
         aux_groupNames eq = or_empty (it_groupNames it)).
Proof.
  intros Hfuel.
  destruct (build_items_index_spec fuel items Hfuel)
    as (st & out & Hg & Hout & Hinv & Hok & _ & Hts & _).
  destruct (flat_index_NoDup items) as (HI & HL & HE).
  exists st, out. split; [done|]. split; [done|]. cbv zeta.
  set (L := locations (flat_index items)) in *.
  set (E := equipment (flat_index items)) in *.
  assert (∀ gs, parent_candidates (location_nodes st) gs = candidates L gs)
    as Hcand by (intros gs; by eapply graph_inv_candidates).
  assert (∀ p, p ∈ od_keys L → is_Some (location_nodes st !! p)) as Hparent
    by (intros p; by apply (graph_location_is_Some _ _ _ _ _ _ Hinv)).
  set (is_loc := λ g : string, g ∈ od_keys L).
  split_and!.
  - by eapply forest_roots.
  - intros g. by eapply graph_location_is_Some.
  - intros g. subst is_loc L. cbv beta. rewrite elem_of_locations. split.
    + intros (it & Hin & [[Hn Hne]%item_key_Some Hloc]). eauto.
    + intros (Hne & it & Hin & Hn & Hloc). exists it. split; [done|].
      split; [by apply item_key_Some|done].
  - done.
  - intros gs g. rewrite Hcand. apply (head_filter_first_match is_loc).
  - destruct Hinv as (-> & _). unfold roots_of. f_equal.
    apply list_filter_iff. intros [n a].
    apply (head_filter_no_match is_loc).
  - intros n loc Hin. split.
    + intros Hno. apply (head_filter_no_match is_loc) in Hno. split.
      * destruct Hinv as (-> & _). apply (roots_of_iff _ _ _ loc); [done..|].
        by apply head_None.
      * intros q cell
          (_ & _ & -> & _)%(graph_lookup_location _ _ _ _ _ _ _ Hinv).
        rewrite (members_of_iff _ _ _ loc) by done.
        unfold candidates. fold is_loc. by rewrite Hno.
    + intros p Hp. pose proof Hp as (pre & post & _ & Hpl & _).
      apply (head_filter_first_match is_loc) in Hp. split_and!.
      * destruct Hinv as (-> & _). rewrite (roots_of_iff _ _ _ loc) by done.
        intros Hnil. unfold candidates in Hnil. fold is_loc in Hnil.
        by rewrite Hnil in Hp.
      * by apply Hparent.
      * intros q cell
          (_ & _ & -> & _)%(graph_lookup_location _ _ _ _ _ _ _ Hinv).
        rewrite (members_of_iff _ _ _ loc) by done. unfold candidates.
        fold is_loc. rewrite Hp. split; congruence.
  - intros e eq Hin. split.
    + intros Hno. apply (head_filter_no_match is_loc) in Hno.
      intros q cell
        (_ & _ & _ & -> & _)%(graph_lookup_location _ _ _ _ _ _ _ Hinv).
      rewrite (members_of_iff _ _ _ eq) by done.
      unfold candidates. fold is_loc. by rewrite Hno.
    + intros p Hp. pose proof Hp as (pre & post & _ & Hpl & _).
      apply (head_filter_first_match is_loc) in Hp. split.
      * by apply Hparent.
      * intros q cell
          (_ & _ & _ & -> & _)%(graph_lookup_location _ _ _ _ _ _ _ Hinv).
        rewrite (members_of_iff _ _ _ eq) by done. unfold candidates.
        fold is_loc. rewrite Hp. split; congruence.
  - intros n loc Hin. apply (od_elem_get _ _ _ HL) in Hin. subst L.
    rewrite flat_index_get_location in Hin.
    destruct (last _) as [it|] eqn:Hl; [|done]. injection Hin as <-.
    apply last_filter_split in Hl as (pre & post & Heq & Hk & Hpost).
    by exists pre, it, post.
  - intros e eq Hin. apply (od_elem_get _ _ _ HE) in Hin. subst E.
    rewrite flat_index_get_equipment in Hin.
    destruct (last _) as [it|] eqn:Hl; [|done]. injection Hin as <-.
    apply last_filter_split in Hl as (pre & post & Heq & Hk & Hpost).
    by exists pre, it, post.
Qed.

(** C4: an equipment entry none of whose group names is a location node
    is in no location's equipment list, has no node in the returned
    forest, and keeps its entry in [items_by_name]; the run returns. *)
Theorem C4_orphan_equipment (fuel : nat) (items : list Item) :
  length items ≤ fuel →
  ∃ st out,
    build_graph fuel items = Ok (flat_index items, st) ∧
    build_items_index fuel items = Ok out ∧
    ∀ e eq, (e, eq) ∈ equipment (flat_index items) →
      (∀ g, g ∈ aux_groupNames eq → location_nodes st !! g = None) →
      (∀ q cell, location_nodes st !! q = Some cell →
                 e ∉ loc_equipment cell) ∧
      equipment_store st !! e = None ∧
      (∀ x, x ∈ out_semantic_tree out ≫= tree_equipment → en_item x ≠ e) ∧
      is_Some (od_get e (out_items_by_name out)).
Proof.
  intros Hfuel.
  destruct (build_items_index_spec fuel items Hfuel)
    as (st & out & Hg & Hout & Hinv & Hok & Hibn & Hts & Hcomplete).
  destruct (flat_index_NoDup items) as (HI & HL & HE).
  exists st, out. split; [done|]. split; [done|].
  intros e eq Hin Hnone.
  assert (candidates (locations (flat_index items)) (aux_groupNames eq) = [])
    as Hc.
  { apply filter_none. intros g Hgin Hgl.
    apply (graph_location_is_Some _ _ _ _ _ _ Hinv) in Hgl as [? Hgl].
    by rewrite (Hnone g Hgin) in Hgl. }
  assert (e ∉ placed (locations (flat_index items))
                     (equipment (flat_index items))) as Hnp.
  { intros (a & p & Ha & Hp)%elem_of_placed.
    apply (od_elem_get _ _ _ HE) in Hin, Ha.
    assert (a = eq) as -> by congruence.
    unfold first_location in Hp. by rewrite Hc in Hp. }
  split_and!.
  - intros q cell (_ & _ & _ & -> & _)%(graph_lookup_location _ _ _ _ _ _ _ Hinv).
    intros He. apply Hnp. by apply members_of_placed in He.
  - destruct Hinv as (_ & _ & He). by rewrite He, decide_False.
  - intros x Hx <-. apply Hnp.
    eapply forest_equipment_placed; [exact Hts|exact Hx].
  - rewrite Hibn. apply od_get_is_Some, elem_of_items_by_name.
    assert (e ∈ od_keys (equipment (flat_index items))) as Hk
      by (apply list_elem_of_fmap; by exists (e, eq)).
    apply elem_of_equipment in Hk as (it & Hit & Hk & _). by exists it.
Qed.

(** ** Placement of points *)

Lemma eq_points_of_iff en (l : odict Entry) n it e :
  NoDup (od_keys l) → (n, it) ∈ l →
  n ∈ eq_points_of en l e ↔ equipment_owner en it = Some e.
Proof.
  intros Hnd Hin. rewrite elem_of_eq_points_of. split.
  - intros (it' & Hin' & Hf).
    apply (od_elem_get _ _ _ Hnd) in Hin, Hin'. congruence.
  - intros Hf. by exists it.
Qed.

Lemma loc_points_of_iff en L (l : odict Entry) n it p :
  NoDup (od_keys l) → (n, it) ∈ l →
  n ∈ loc_points_of en L l p ↔ location_owner en L it = Some p.
Proof.
  intros Hnd Hin. rewrite elem_of_loc_points_of. split.
  - intros (it' & Hin' & Hf).
    apply (od_elem_get _ _ _ Hnd) in Hin, Hin'. congruence.
  - intros Hf. by exists it.
Qed.

(** C2: a point entry is searched for an owner in the order of its group
    names: the first group name that is in the equipment lookup owns it,
    and then it is in the points list of this equipment node and of no
    other node; when no group name is in the equipment lookup, the first
    group name that is a location node owns it, and then it is in the
    points list of this location node only; when there is neither, it is
    in no points list and nowhere in the returned forest.  An entry that
    is no point is in no points list.  The searches of the code
    ([next_in]) are these first matches; the equipment lookup holds the
    equipment nodes of the returned forest; no points list and no forest
    holds a reference twice. *)
Theorem C2_point_owner (fuel : nat) (items : list Item) :
  length items ≤ fuel →
  ∃ st out,
    build_graph fuel items = Ok (flat_index items, st) ∧
    build_items_index fuel items = Ok out ∧
    let I := items_by_name (flat_index items) in
    let in_eq := λ g, is_Some (equipment_nodes st !! g) in
    let in_loc := λ g, is_Some (location_nodes st !! g) in
    (∀ g, in_eq g ↔
          ∃ x, x ∈ out_semantic_tree out ≫= tree_equipment ∧ en_item x = g) ∧
    (∀ g, in_loc g ↔ g ∈ od_keys (locations (flat_index items))) ∧
    (∀ gs g, next_in (equipment_nodes st) gs = Some g ↔
             first_match in_eq gs g) ∧
    (∀ gs, next_in (equipment_nodes st) gs = None ↔ no_match in_eq gs) ∧
    (∀ gs g, next_in (location_nodes st) gs = Some g ↔
             first_match in_loc gs g) ∧
    (∀ gs, next_in (location_nodes st) gs = None ↔ no_match in_loc gs) ∧
    (∀ n it, (n, it) ∈ I → isPoint (semantic it) = true →
       (∀ g, first_match in_eq (groupNames it) g →
          equipment_nodes st !! g = Some g ∧
          is_Some (equipment_store st !! g) ∧
          (∀ e c, equipment_store st !! e = Some c →
                  (n ∈ eq_points c ↔ e = g)) ∧
          (∀ p cell, location_nodes st !! p = Some cell →
                     n ∉ loc_points cell)) ∧
       (no_match in_eq (groupNames it) →
          (∀ e c, equipment_store st !! e = Some c → n ∉ eq_points c) ∧
          (∀ g, first_match in_loc (groupNames it) g →
             ∀ p cell, location_nodes st !! p = Some cell →
                       (n ∈ loc_points cell ↔ p = g)) ∧
          (no_match in_loc (groupNames it) →
             (∀ p cell, location_nodes st !! p = Some cell →
                        n ∉ loc_points cell) ∧
             n ∉ out_semantic_tree out ≫= tree_point_refs))) ∧
    (∀ n it, (n, it) ∈ I → isPoint (semantic it) = false →
       (∀ e c, equipment_store st !! e = Some c → n ∉ eq_points c) ∧
       (∀ p cell, location_nodes st !! p = Some cell →
                  n ∉ loc_points cell)) ∧
    (∀ e c, equipment_store st !! e = Some c → NoDup (eq_points c)) ∧
    (∀ p cell, location_nodes st !! p = Some cell → NoDup (loc_points cell)) ∧
    NoDup (out_semantic_tree out ≫= tree_point_refs).
Proof.
  intros Hfuel.
  destruct (build_items_index_spec fuel items Hfuel)
    as (st & out & Hg & Hout & Hinv & Hok & Hibn & Hts & Hcomplete).
  destruct (flat_index_NoDup items) as (HI & HL & HE).
  exists st, out. split; [done|]. split; [done|]. cbv zeta.
  set (I := items_by_name (flat_index items)) in *.
  set (L := locations (flat_index items)) in *.
  set (E := equipment (flat_index items)) in *.
  set (in_eq := λ g : string, is_Some (equipment_nodes st !! g)).
  set (in_loc := λ g : string, is_Some (location_nodes st !! g)).
  assert (Hroots : semantic_tree st = roots_of L L) by (by destruct Hinv).
  assert (Hlocnext : ∀ gs, next_in (location_nodes st) gs = first_location L gs)
    by (intros gs; apply (graph_inv_next_in _ _ _ _ _ _ Hinv)).
  assert (Heqp : ∀ e c, equipment_store st !! e = Some c →
                        eq_points c = eq_points_of (equipment_nodes st) I e).
  { by intros e c (_ & _ & ->)%(graph_lookup_equipment _ _ _ _ _ _ _ Hinv). }
  assert (Hlocp : ∀ p cell, location_nodes st !! p = Some cell →
            loc_points cell = loc_points_of (equipment_nodes st) L I p).
  { by intros p cell
      (_ & _ & _ & _ & ->)%(graph_lookup_location _ _ _ _ _ _ _ Hinv). }
  split_and!.
  - intros g. unfold in_eq. rewrite (Hcomplete g). symmetry.
    eapply forest_equipment_items; [|exact Hts]. done.
  - intros g. by apply (graph_location_is_Some _ _ _ _ _ _ Hinv).
  - intros gs g. apply next_in_first_match.
  - intros gs. apply next_in_no_match.
  - intros gs g. apply next_in_first_match.
  - intros gs. apply next_in_no_match.
  - intros n it Hin Hpt. split.
    + intros g Hn%next_in_first_match.
      assert (equipment_owner (equipment_nodes st) it = Some g) as Heo
        by (unfold equipment_owner; by rewrite Hpt).
      assert (location_owner (equipment_nodes st) L it = None) as Hlo
        by (unfold location_owner; by rewrite Hpt, Hn).
      destruct (next_in_Some _ _ _ Hn) as [[v Hv] _].
      destruct (Hok _ _ Hv) as [-> Hpl]. split_and!.
      * done.
      * destruct Hinv as (_ & _ & He). by rewrite He, decide_True.
      * intros e c Hc. rewrite (Heqp e c Hc).
        rewrite (eq_points_of_iff _ _ _ it), Heo by done. split; congruence.
      * intros p cell Hc. rewrite (Hlocp p cell Hc).
        rewrite (loc_points_of_iff _ _ _ _ it), Hlo by done. done.
    + intros Hn%next_in_no_match.
      assert (equipment_owner (equipment_nodes st) it = None) as Heo
        by (unfold equipment_owner; by rewrite Hpt).
      assert (location_owner (equipment_nodes st) L it =
              next_in (location_nodes st) (groupNames it))
        as Hlo by (unfold location_owner; by rewrite Hpt, Hn, Hlocnext).
      split_and!.
      * intros e c Hc. rewrite (Heqp e c Hc).
        rewrite (eq_points_of_iff _ _ _ it), Heo by done. done.
      * intros g Hl%next_in_first_match p cell Hc. rewrite (Hlocp p cell Hc).
        rewrite (loc_points_of_iff _ _ _ _ it), Hlo, Hl by done.
        split; congruence.
      * intros Hl%next_in_no_match. split.
        -- intros p cell Hc. rewrite (Hlocp p cell Hc).
           rewrite (loc_points_of_iff _ _ _ _ it), Hlo, Hl by done. done.
        -- rewrite (forest_point_refs L E I (equipment_nodes st) _ _ Hts).
           intros (m & Hx & _)%list_elem_of_bind.
           apply elem_of_refs_at in Hx as (it' & Hin' & Hown).
           assert (it' = it) as ->.
           { apply (od_elem_get _ _ _ HI) in Hin, Hin'. congruence. }
           destruct Hown as [?|(e & ? & _)]; congruence.
  - intros n it Hin Hpt.
    assert (equipment_owner (equipment_nodes st) it = None) as Heo
      by (unfold equipment_owner; by rewrite Hpt).
    assert (location_owner (equipment_nodes st) L it = None) as Hlo
      by (unfold location_owner; by rewrite Hpt).
    split.
    + intros e c Hc. rewrite (Heqp e c Hc).
      rewrite (eq_points_of_iff _ _ _ it), Heo by done. done.
    + intros p cell Hc. rewrite (Hlocp p cell Hc).
      rewrite (loc_points_of_iff _ _ _ _ it), Hlo by done. done.
  - intros e c Hc. rewrite (Heqp e c Hc). by apply filter_keys_NoDup.
  - intros p cell Hc. rewrite (Hlocp p cell Hc). by apply filter_keys_NoDup.
  - eapply forest_point_refs_NoDup; [exact HL|exact HE|exact HI| |exact Hts].
    done.
Qed.

(** ** Termination of the traversal *)

(** C9, as the code has it: the traversal returns from every root, for
    every input; every location node is in the root list or in the child
    list of exactly one node, once; the locations reachable from the
    roots form trees, each visited once in depth-first order, and the
    traversal registers the equipment of exactly these locations; a
    location whose chain of first-match parents comes back to itself is
    not reachable from the roots. *)
Theorem C9_traversal_terminates (fuel : nat) (items : list Item) :
  length items ≤ fuel →
  ∃ st out,
    build_graph fuel items = Ok (flat_index items, st) ∧
    build_items_index fuel items = Ok out ∧
    let L := locations (flat_index items) in
    (∀ r, r ∈ semantic_tree st →
          ∃ st', collect_equipment_nodes fuel st r = Ok st') ∧
    (∃ st', foldM (collect_equipment_nodes fuel) (semantic_tree st) st
            = Ok st') ∧
    NoDup (semantic_tree st) ∧
    (∀ p cell, location_nodes st !! p = Some cell →
               NoDup (loc_children_locations cell)) ∧
    (∀ n, n ∈ od_keys L →
       (n ∈ semantic_tree st ∧
        ∀ q cell, location_nodes st !! q = Some cell →
                  n ∉ loc_children_locations cell) ∨
       ((n ∉ semantic_tree st) ∧
        ∃ p, is_Some (location_nodes st !! p) ∧
             ∀ q cell, location_nodes st !! q = Some cell →
                       (n ∈ loc_children_locations cell ↔ q = p))) ∧
    NoDup (out_semantic_tree out ≫= tree_locations) ∧
    (∀ n, n ∈ out_semantic_tree out ≫= tree_locations ↔ ∃ d, depth L d n) ∧
    (∀ g, is_Some (equipment_nodes st !! g) ↔
          ∃ x, x ∈ out_semantic_tree out ≫= tree_equipment ∧ en_item x = g) ∧
    (∀ n k, below L n (S k) n →
            n ∉ out_semantic_tree out ≫= tree_locations).
Proof.
  intros Hfuel.
  destruct (build_items_index_spec fuel items Hfuel)
    as (st & out & Hg & Hout & Hinv & Hok & Hibn & Hts & Hcomplete).
  destruct (flat_index_NoDup items) as (HI & HL & HE).
  destruct (flat_index_length items) as (_ & Hlen & _).
  pose proof (graph_inv_shape _ _ _ _ Hinv) as Hshape.
  pose proof Hinv as (Hr & _ & _).
  destruct (foldM_lookup (locations (flat_index items))
              (equipment (flat_index items)) (collect_equipment_nodes fuel)
              (λ r k, ∃ j m, below (locations (flat_index items)) r j m ∧
                             k ∈ members_of (locations (flat_index items))
                                   (equipment (flat_index items)) m)
              (semantic_tree st) st) as (st' & Hall & _).
  { done. }
  { intros s r Hin Fs Hs.
    apply (collect_equipment_nodes_ok _ _ HL fuel 0);
      [by eapply shape_frame|done| |lia].
    apply depth_root. by rewrite <-Hr. }
  assert (∀ m, m ∈ out_semantic_tree out ≫= tree_locations ↔
               ∃ d, depth (locations (flat_index items)) d m) as Hreach.
  { intros m. eapply elem_of_forest_locations; [exact Hr|exact Hts]. }
  exists st, out. split; [done|]. split; [done|]. cbv zeta. split_and!.
  - intros r Hin.
    destruct (collect_equipment_nodes_ok _ (equipment (flat_index items))
                HL fuel 0 r st) as (s' & ? & _); [done|done| |lia|by exists s'].
    apply depth_root. by rewrite <-Hr.
  - by exists st'.
  - rewrite Hr. by apply filter_keys_NoDup.
  - intros p cell (_ & _ & -> & _)%(graph_lookup_location _ _ _ _ _ _ _ Hinv).
    by apply filter_keys_NoDup.
  - intros n ([n' loc] & -> & Hin)%list_elem_of_fmap. simpl in *.
    destruct (candidates (locations (flat_index items)) (aux_groupNames loc))
      as [|p cs] eqn:Hc.
    + left. split.
      * rewrite Hr. by apply (roots_of_iff _ _ _ loc).
      * intros q cell
          (_ & _ & -> & _)%(graph_lookup_location _ _ _ _ _ _ _ Hinv).
        rewrite (members_of_iff _ _ _ loc) by done. by rewrite Hc.
    + right. split.
      * rewrite Hr, (roots_of_iff _ _ _ loc) by done. by rewrite Hc.
      * exists p. split.
        -- apply (graph_location_is_Some _ _ _ _ _ _ Hinv).
           apply (first_location_elem _ (aux_groupNames loc)).
           unfold first_location. by rewrite Hc.
        -- intros q cell
             (_ & _ & -> & _)%(graph_lookup_location _ _ _ _ _ _ _ Hinv).
           rewrite (members_of_iff _ _ _ loc), Hc by done. simpl.
           split; congruence.
  - eapply forest_locations_NoDup; [exact HL| |exact Hts]. done.
  - done.
  - intros g. rewrite (Hcomplete g). symmetry.
    eapply forest_equipment_items; [exact Hr|exact Hts].
  - intros n k Hcycle [d Hd]%Hreach.
    exact (cycle_no_depth _ HL n k d Hcycle Hd).
Qed.

(** C10: a name first seen as a location and then overwritten by a record
    that is none keeps its location node.  The auxiliary dicts hold every
    name that some record carries together with the role tag, whatever
    later records of the same name say. *)
Theorem C10_stale_location :
  (∃ (r1 r2 : Item) (nm : string) (out : Output) (e : Entry)
     (t : LocationNode),
     it_name r1 = Some nm ∧ it_name r2 = Some nm ∧
     is_location (or_empty (it_tags r1)) = true ∧
     is_location (or_empty (it_tags r2)) = false ∧
     build_items_index 2 [r1; r2] = Ok out ∧
     od_get nm (out_items_by_name out) = Some e ∧
     isLocation (semantic e) = false ∧
     t ∈ out_semantic_tree out ∧ node_item t = nm) ∧
  (∀ items k,
     k ∈ od_keys (locations (flat_index items)) ↔
     ∃ it, it ∈ items ∧ item_key it = Some k ∧
           is_location (or_empty (it_tags it)) = true) ∧
  (∀ items k,
     k ∈ od_keys (equipment (flat_index items)) ↔
     ∃ it, it ∈ items ∧ item_key it = Some k ∧
           is_equipment (or_empty (it_tags it)) = true).
Proof.
  split_and!.
  - exists (item "Hall" ["Location"] []), (item "Hall" ["Lighting"] []),
      "Hall".
    eexists. eexists. exists (mkLocationNode "Hall" [] [] []).
    do 4 (split; [reflexivity|]).
    split; [vm_compute; reflexivity|].
    do 2 (split; [reflexivity|]).
    split; [left|reflexivity].
  - intros items k. apply elem_of_locations.
  - intros items k. apply elem_of_equipment.
Qed.

(** The clause of C9 on group-membership cycles, read on the group names
    as given, fails: in [shortcut_cycle] the locations [A] and [B] list
    each other, but the first location group of [A] is the root [R], so
    both are reachable. *)
Lemma C9_counterexample :
  ∃ out, build_items_index 3 shortcut_cycle = Ok out ∧
    out_semantic_tree out =
      [mkLocationNode "R"
         [mkLocationNode "A" [mkLocationNode "B" [] [] []] [] []] [] []] ∧
    ¬ (∀ n, on_group_cycle (locations (flat_index shortcut_cycle)) n →
            n ∉ out_semantic_tree out ≫= tree_locations).
Proof.
  eexists. split; [vm_compute; reflexivity|]. split; [reflexivity|].
  intros H. apply (H "A").
  - apply tc_l with "B".
    + exists (make_aux "A" (item "A" ["Location"] ["R"; "B"])).
      split_and!; vm_compute; [right; left|right; left|right; right; left].
    + apply tc_once.
      exists (make_aux "B" (item "B" ["Location"] ["A"])).
      split_and!; vm_compute; [right; right; left|left|right; left].
  - vm_compute. right. left.
Qed.

(** ** The claims at sample inputs *)

Lemma C1_witness :
  length tie_break ≤ 3 ∧
  ∃ st, build_graph 3 tie_break = Ok (flat_index tie_break, st) ∧
        ∀ q cell, location_nodes st !! q = Some cell →
                  ("Room" ∈ loc_children_locations cell ↔ q = "GroupA").
Proof.
  split; [simpl; lia|].
  destruct (C1_first_match_parent 3 tie_break)
    as (st & out & Hg & _ & _ & _ & _ & _ & _ & _ & Hloc & _);
    [simpl; lia|].
  exists st. split; [exact Hg|].
  refine (proj2 (proj2 (proj2 (Hloc "Room"
            (make_aux "Room" (item "Room" ["Location"] ["GroupA"; "LocRoot"]))
            _) "GroupA" _))).
  - vm_compute. do 3 constructor.
  - exists [], ["LocRoot"]. split; [reflexivity|]. split.
    + vm_compute. constructor.
    + by intros h ?%elem_of_nil.
Defined.

Lemma C2_witness :
  length precedence ≤ 3 ∧
  ∃ st out,
    build_graph 3 precedence = Ok (flat_index precedence, st) ∧
    build_items_index 3 precedence = Ok out ∧
    (∀ e c, equipment_store st !! e = Some c →
            ("Door" ∈ eq_points c ↔ e = "Fridge")) ∧
    (∀ p cell, location_nodes st !! p = Some cell →
               "Door" ∉ loc_points cell).
Proof.
  split; [simpl; lia|].
  destruct (C2_point_owner 3 precedence)
    as (st & out & Hg & Hout & _ & _ & _ & _ & _ & _ & Hpt & _);
    [simpl; lia|].
  exists st, out. split; [exact Hg|]. split; [exact Hout|].
  assert (equipment_nodes st !! "Kitchen" = None ∧
          is_Some (equipment_nodes st !! "Fridge")) as [Hk Hf].
  { vm_compute in Hg. injection Hg as <-. split; [reflexivity|by eexists]. }
  destruct (proj1 (Hpt "Door"
              (make_entry "Door" (item "Door" ["Point"] ["Kitchen"; "Fridge"]))
              ltac:(vm_compute; do 3 constructor) eq_refl) "Fridge")
    as (_ & _ & Heq & Hloc).
  { exists ["Kitchen"], []. split; [reflexivity|]. split; [exact Hf|].
    intros h ->%list_elem_of_singleton. rewrite Hk. by intros [? [=]]. }
  split; [exact Heq|exact Hloc].
Defined.

Lemma C4_witness :
  length orphan ≤ 2 ∧ ∃ out, build_items_index 2 orphan = Ok out.
Proof.
  split; [simpl; lia|].
  destruct (C4_orphan_equipment 2 orphan) as (st & out & _ & Hout & _);
    [simpl; lia|].
  by exists out.
Defined.

Lemma C5_witness :
  length relabelled ≤ 2 ∧
  ∃ out e, build_items_index 2 relabelled = Ok out ∧
           od_get "Hall" (out_items_by_name out) = Some e ∧
           tags e = ["Lighting"].
Proof.
  split; [simpl; lia|].
  destruct (C5_last_write_wins 2 relabelled)
    as (out & Hout & _ & _ & Hlast); [simpl; lia|].
  destruct (Hlast [item "Hall" ["Location"] []]
                  (item "Hall" ["Lighting"] []) [] "Hall")
    as (e & He & _ & _ & _ & _ & _ & _ & Htags & _);
    [reflexivity|reflexivity|done|by intros ? ?%elem_of_nil|].
  by exists out, e.
Defined.

Lemma C6_witness :
  (it_name nameless = None ∨ it_name nameless = Some "") ∧
  build_items_index 3 (scenario ++ nameless :: tie_break) =
    build_items_index 3 (scenario ++ tie_break).
Proof.
  split; [right; reflexivity|].
  destruct (C6_nameless_skipped 3 scenario tie_break nameless)
    as (_ & _ & _ & H & _); [right; reflexivity|].
  exact H.
Defined.

Lemma C9_witness :
  length mutual ≤ 3 ∧
  ∃ out, build_items_index 3 mutual = Ok out ∧
         NoDup (out_semantic_tree out ≫= tree_locations).
Proof.
  split; [simpl; lia|].
  destruct (C9_traversal_terminates 3 mutual)
    as (st & out & _ & Hout & _ & _ & _ & _ & _ & Hnd & _); [simpl; lia|].
  by exists out.
Defined.

(** ** Worked examples *)

(** The end-to-end scenario: one root [Kitchen] with the equipment
    [Fridge] holding the point [FridgeTemp]. *)
Example scenario_forest :
  ∃ out e, build_items_index 3 scenario = Ok out ∧
    out_semantic_tree out =
      [mkLocationNode "Kitchen" []
         [{| en_item := "Fridge"; en_points := ["FridgeTemp"] |}] []] ∧
    od_get "FridgeTemp" (out_items_by_name out) = Some e ∧
    propertyTags (semantic e) = ["Temperature"] ∧
    rest_url e = "/rest/items/FridgeTemp".
Proof.
  eexists. eexists. split; [vm_compute; reflexivity|].
  split; [reflexivity|]. split; [reflexivity|]. by split.
Qed.

(** First-match tie-break: [Room] hangs under [GroupA], not [LocRoot]. *)
Example tie_break_forest :
  ∃ out, build_items_index 3 tie_break = Ok out ∧
    out_semantic_tree out =
      [mkLocationNode "GroupA" [mkLocationNode "Room" [] [] []] [] [];
       mkLocationNode "LocRoot" [] [] []].
Proof. eexists. split; [vm_compute; reflexivity|reflexivity]. Qed.

(** A point in a location group and in an equipment group goes to the
    equipment, whatever the order of its group names. *)
Example precedence_forest :
  ∃ out, build_items_index 3 precedence = Ok out ∧
    out_semantic_tree out =
      [mkLocationNode "Kitchen" []
         [{| en_item := "Fridge"; en_points := ["Door"] |}] []].
Proof. eexists. split; [vm_compute; reflexivity|reflexivity]. Qed.

(** Locations that are only each other's parents, or their own, are in
    no tree; nothing is raised. *)
Example mutual_forest :
  ∃ out, build_items_index 0 mutual = Ok out ∧ out_semantic_tree out = [].
Proof. eexists. split; [vm_compute; reflexivity|reflexivity]. Qed.

(** A chain of three nested locations needs a recursion budget of three. *)
Example chain_needs_fuel :
  build_items_index 2
    [item "A" ["Location"] []; item "B" ["Location"] ["A"];
     item "C" ["Location"] ["B"]] = Raise RecursionError.
Proof. vm_compute. reflexivity. Qed.

(** * Further properties of [build_items_index] *)

(** ** The recursion budget that is needed *)

Lemma assemble_hierarchy idx :
  ∃ st2,
    graph_inv (locations idx) (locations idx) (equipment idx) [] st2 ∧
    equipment_nodes st2 = ∅ ∧
    ∀ fuel, assemble fuel idx =
      (st ← foldM (collect_equipment_nodes fuel) (semantic_tree st2) st2;
       foldM assign_point (items_by_name idx) st).
Proof.
  destruct idx as [I L E]. cbn [items_by_name locations equipment].
  unfold assemble. cbn [items_by_name locations equipment].
  destruct (foldM_invariant assign_location
              (λ done s, graph_inv L done [] [] s ∧ equipment_nodes s = ∅)
              L {| semantic_tree := [];
                   location_nodes := create_location_nodes L;
                   equipment_store := ∅;
                   equipment_nodes := ∅ |}) as (st1 & -> & Hinv1 & Hen1).
  { split; [apply graph_inv_init|done]. }
  { intros done [n a] rest s HL [Hinv Hen].
    destruct (assign_location_step L done [] [] s n a) as (s' & ? & ? & Hen');
      [|done|].
    - rewrite HL. unfold od_keys. rewrite fmap_app, fmap_cons.
      apply elem_of_app. right. left.
    - exists s'. split; [done|]. split; [done|congruence]. }
  simpl_res.
  destruct (foldM_invariant assign_equipment
              (λ done s, graph_inv L L done [] s ∧ equipment_nodes s = ∅)
              E st1) as (st2 & -> & Hinv2 & Hen2).
  { done. }
  { intros done [n a] rest s HE [Hinv Hen].
    destruct (assign_equipment_step L L done s n a) as (s' & ? & ? & Hen');
      [done|].
    exists s'. split; [done|]. split; [done|congruence]. }
  simpl_res. by exists st2.
Qed.

(** A loop whose iterations can only fail with [RecursionError]. *)
Lemma foldM_safe {S X : Type} (inv : S → Prop) (f : S → X → res S)
    (l : list X) (s : S) :
  inv s →
  (∀ s x, x ∈ l → inv s →
     (∃ s', f s x = Ok s' ∧ inv s') ∨ f s x = Raise RecursionError) →
  (∃ s', foldM f l s = Ok s' ∧ inv s') ∨ foldM f l s = Raise RecursionError.
Proof.
  revert s. induction l as [|x l IH]; intros s Hs Hstep; simpl.
  - left. by exists s.
  - destruct (Hstep s x) as [(s' & -> & Hs')| ->]; [left|done| |by right].
    simpl_res. apply IH; [done|]. intros s0 x0 ?. apply Hstep. by right.
Qed.

Lemma foldM_raises {S X : Type} (inv : S → Prop) (f : S → X → res S)
    (l : list X) (s : S) (x : X) :
  x ∈ l → inv s →
  (∀ s x, x ∈ l → inv s →
     (∃ s', f s x = Ok s' ∧ inv s') ∨ f s x = Raise RecursionError) →
  (∀ s, inv s → f s x = Raise RecursionError) →
  foldM f l s = Raise RecursionError.
Proof.
  intros Hx Hs Hstep Hraise. revert s Hs.
  induction l as [|y l IH]; intros s Hs; [by apply elem_of_nil in Hx|].
  simpl. apply elem_of_cons in Hx as [<-|Hx].
  - by rewrite Hraise.
  - destruct (Hstep s y) as [(s' & -> & Hs')| ->]; [left|done| |done].
    simpl_res. apply IH; [done| |done].
    intros s0 x0 ?. apply Hstep. by right.
Qed.

Section budget.
Variables L E : odict Aux.
Hypothesis L_NoDup : NoDup (od_keys L).

Lemma register_all_ok st n :
  shape L E st → lookup_ok L E st →
  ∃ st1, foldM register_equipment (members_of L E n) st = Ok st1 ∧
         frame st st1 ∧ lookup_ok L E st1.
Proof.
  intros Hshape Hok.
  destruct (foldM_lookup L E register_equipment (λ e k, k = e)
              (members_of L E n) st) as (st1 & ? & ? & ? & _); [done| |].
  - intros s e He Fs Hs. apply register_equipment_step; [|done|].
    + by eapply shape_frame.
    + by apply (members_of_placed L E e n).
  - by exists st1.
Qed.

Lemma collect_unfold fuel st n :
  collect_equipment_nodes (S fuel) st n =
    (node ← subscript (location_nodes st) n;
     st ← foldM register_equipment (loc_equipment node) st;
     foldM (collect_equipment_nodes fuel) (loc_children_locations node) st).
Proof. done. Qed.

(** The traversal of a location fails only with [RecursionError]. *)
Lemma collect_safe fuel : ∀ n st,
  shape L E st → lookup_ok L E st → n ∈ od_keys L →
  (∃ st', collect_equipment_nodes fuel st n = Ok st' ∧ frame st st' ∧
          lookup_ok L E st') ∨
  collect_equipment_nodes fuel st n = Raise RecursionError.
Proof.
  induction fuel as [|fuel IH]; intros n st Hshape Hok Hn; [by right|].
  rewrite collect_unfold. pose proof Hshape as (_ & Hl & _).
  destruct (Hl n Hn) as (cell & Hcell & _ & Hch & Heq).
  rewrite (subscript_Some _ n cell Hcell). simpl_res. rewrite Hch, Heq.
  destruct (register_all_ok st n) as (st1 & -> & F1 & Hok1); [done|done|].
  simpl_res.
  destruct (foldM_safe (λ s, frame st1 s ∧ lookup_ok L E s)
              (collect_equipment_nodes fuel) (members_of L L n) st1)
    as [(st2 & -> & F2 & Hok2)| ->]; [by split; [apply frame_refl|]| | |by right].
  - intros s c Hc [Fs Hs].
    destruct (IH c s) as [(s' & ? & ? & ?)|?]; [| | | |by right].
    + eapply shape_frame; [|exact Fs]. by eapply shape_frame.
    + done.
    + by apply (members_of_keys L L c n).
    + left. exists s'. split; [done|]. split; [by eapply frame_trans|done].
  - left. exists st2. split; [done|]. split; [by eapply frame_trans|done].
Qed.

(** It fails when a location is nested below it as deep as the budget. *)
Lemma collect_raises fuel : ∀ n k m st,
  shape L E st → lookup_ok L E st → n ∈ od_keys L →
  below L n k m → fuel ≤ k →
  collect_equipment_nodes fuel st n = Raise RecursionError.
Proof.
  induction fuel as [|fuel IH]; intros n k m st Hshape Hok Hn Hb Hk; [done|].
  inversion Hb as [|p c k' m' Hc Hcm]; subst; [lia|].
  rewrite collect_unfold. pose proof Hshape as (_ & Hl & _).
  destruct (Hl n Hn) as (cell & Hcell & _ & Hch & Heq).
  rewrite (subscript_Some _ n cell Hcell). simpl_res. rewrite Hch, Heq.
  destruct (register_all_ok st n) as (st1 & -> & F1 & Hok1); [done|done|].
  simpl_res.
  apply (foldM_raises (λ s, frame st1 s ∧ lookup_ok L E s) _ _ _ c).
  - done.
  - by split; [apply frame_refl|].
  - intros s c' Hc' [Fs Hs].
    destruct (collect_safe fuel c' s) as [(s' & ? & ? & ?)|?]; [| | | |by right].
    + eapply shape_frame; [|exact Fs]. by eapply shape_frame.
    + done.
    + by apply (members_of_keys L L c' n).
    + left. exists s'. split; [done|]. split; [by eapply frame_trans|done].
  - intros s [Fs Hs]. apply (IH c k' m); [|done| |done|lia].
    + eapply shape_frame; [|exact Fs]. by eapply shape_frame.
    + by apply (members_of_keys L L c n).
Qed.

(** It returns when every location below it is nested less deep than the
    budget. *)
Lemma collect_within_budget fuel : ∀ n st,
  shape L E st → lookup_ok L E st → n ∈ od_keys L →
  (∀ k m, below L n k m → k < fuel) →
  ∃ st', collect_equipment_nodes fuel st n = Ok st' ∧ frame st st' ∧
         lookup_ok L E st'.
Proof.
  intros n st Hshape Hok Hn Hheight.
  destruct (collect_safe fuel n st) as [?|Hraise]; [done|done|done|done|].
  induction fuel as [|fuel IH] in n, st, Hshape, Hok, Hn, Hheight, Hraise |- *.
  - specialize (Hheight 0 n (below_here L n)). lia.
  - exfalso. revert Hraise. rewrite collect_unfold.
    pose proof Hshape as (_ & Hl & _).
    destruct (Hl n Hn) as (cell & Hcell & _ & Hch & Heq).
    rewrite (subscript_Some _ n cell Hcell). simpl_res. rewrite Hch, Heq.
    destruct (register_all_ok st n) as (st1 & -> & F1 & Hok1); [done|done|].
    simpl_res.
    destruct (foldM_invariant (collect_equipment_nodes fuel)
                (λ _ s, frame st1 s ∧ lookup_ok L E s)
                (members_of L L n) st1) as (s' & -> & _); [|
      |done].
    + by split; [apply frame_refl|].
    + intros done c rest s Hl' [Fs Hs].
      assert (c ∈ members_of L L n) as Hc
        by (rewrite Hl'; apply elem_of_app; right; left).
      assert (shape L E s) as Hshape_s
        by (eapply shape_frame; [|exact Fs]; by eapply shape_frame).
      assert (c ∈ od_keys L) as Hck by by apply (members_of_keys L L c n).
      assert (∀ k m, below L c k m → k < fuel) as Hhc.
      { intros k m Hb.
        specialize (Hheight (S k) m (below_child L n c k m Hc Hb)). lia. }
      destruct (collect_safe fuel c s) as [(s1 & ? & ? & ?)|Hr];
        [done|done|done| |].
      * exists s1. split; [done|]. split; [by eapply frame_trans|done].
      * destruct (IH c s Hshape_s Hs Hck Hhc Hr) as (s1 & ? & ? & ?).
        exists s1. split; [done|]. split; [by eapply frame_trans|done].
Qed.

End budget.

Lemma read_within_budget L E I st fuel : ∀ n,
  graph_inv L L E I st → n ∈ od_keys L →
  (∀ k m, below L n k m → k < fuel) →
  ∃ t, read_location fuel st n = Ok t.
Proof.
  induction fuel as [|fuel IH]; intros n Hinv Hn Hheight.
  - specialize (Hheight 0 n (below_here L n)). lia.
  - rewrite read_location_unfold. pose proof Hinv as (_ & Hl & _).
    erewrite (subscript_Some _ n) by (by rewrite Hl, decide_True).
    simpl_res. cbn [loc_item loc_children_locations loc_equipment loc_points].
    destruct (mapM_ok (read_location fuel st) (λ _ _, True)
                (members_of L L n)) as (ts & -> & _).
    { intros c Hc. destruct (IH c) as [t Ht]; [done| | |by exists t].
      - by apply (members_of_keys L L c n).
      - intros k m Hb.
        specialize (Hheight (S k) m (below_child L n c k m Hc Hb)). lia. }
    simpl_res.
    erewrite read_equipment_ok; [by eexists|done|].
    intros e. apply members_of_placed.
Qed.

Lemma assemble_of_build_graph fuel items st :
  build_graph fuel items = Ok (flat_index items, st) →
  assemble fuel (flat_index items) = Ok st.
Proof.
  unfold build_graph. destruct (assemble fuel (flat_index items)); simpl_res.
  - by intros [= ->].
  - done.
Qed.

Lemma within_budget fuel items :
  (∀ d n, depth (locations (flat_index items)) d n → d < fuel) →
  ∃ out, build_items_index fuel items = Ok out ∧
         ∀ fuel', length items ≤ fuel' →
                  build_items_index fuel' items = Ok out.
Proof.
  intros Hdepth.
  destruct (flat_index_NoDup items) as (_ & HL & _).
  destruct (build_items_index_spec (length items) items (le_n _))
    as (st & out & Hg0 & Hout0 & Hinv & Hok & _).
  assert (∀ fuel', length items ≤ fuel' →
                   build_items_index fuel' items = Ok out) as Hany
    by (intros fuel' ?; by eapply build_items_index_mono).
  exists out. split; [|done].
  set (big := fuel `max` length items).
  assert (build_graph big items = Ok (flat_index items, st)) as Hg
    by (eapply build_graph_mono; [|exact Hg0]; lia).
  assert (build_items_index big items = Ok out) as Hout
    by (apply Hany; lia).
  destruct (assemble_hierarchy (flat_index items))
    as (st2 & Hinv2 & Hen2 & Hasm).
  pose proof (graph_inv_shape _ _ _ _ Hinv2) as Hshape2.
  assert (lookup_ok (locations (flat_index items))
            (equipment (flat_index items)) st2) as Hok2.
  { intros k v. by rewrite Hen2, lookup_empty. }
  assert (∀ r k m, r ∈ roots_of (locations (flat_index items))
                         (locations (flat_index items)) →
            below (locations (flat_index items)) r k m → k < fuel) as Hroot.
  { intros r k m Hr Hb. apply (Hdepth k m).
    apply (depth_below _ 0 r k m); [by constructor|done]. }
  destruct (foldM_invariant (collect_equipment_nodes fuel)
              (λ _ s, frame st2 s ∧
                      lookup_ok (locations (flat_index items))
                                (equipment (flat_index items)) s)
              (semantic_tree st2) st2) as (st3 & Hc & _).
  { by split; [apply frame_refl|]. }
  { intros done r rest s Hl [Fs Hs].
    assert (r ∈ roots_of (locations (flat_index items))
                  (locations (flat_index items))) as Hr.
    { destruct Hinv2 as (<- & _). rewrite Hl. apply elem_of_app. right. left. }
    destruct (collect_within_budget (locations (flat_index items))
                (equipment (flat_index items)) fuel r s) as (s' & ? & ? & ?).
    - by eapply shape_frame.
    - done.
    - by apply roots_of_keys in Hr.
    - intros k m. by apply Hroot.
    - exists s'. split; [done|]. split; [by eapply frame_trans|done]. }
  assert (foldM (collect_equipment_nodes big) (semantic_tree st2) st2
          = Ok st3) as Hcbig.
  { revert Hc. apply foldM_mono. intros s x s'.
    apply collect_equipment_nodes_mono. lia. }
  assert (build_graph fuel items = Ok (flat_index items, st)) as Hgf.
  { apply assemble_of_build_graph in Hg. rewrite Hasm, Hcbig in Hg.
    unfold build_graph. rewrite Hasm, Hc. simpl_res. simpl_res in Hg.
    by rewrite Hg. }
  destruct (mapM_ok (read_location fuel st) (λ _ _, True) (semantic_tree st))
    as (ts & Hts & _).
  { intros r Hr. pose proof Hinv as (Hroots & _). rewrite Hroots in Hr.
    destruct (read_within_budget _ _ _ st fuel r Hinv) as [t Ht];
      [by apply roots_of_keys in Hr| |by exists t].
    intros k m. by apply Hroot. }
  assert (mapM (read_location big st) (semantic_tree st) = Ok ts) as Htsbig.
  { revert Hts. apply mapM_mono. intros x y. apply read_location_mono. lia. }
  unfold build_items_index in *. rewrite Hgf. rewrite Hg in Hout.
  simpl_res. simpl_res in Hout. rewrite Hts. rewrite Htsbig in Hout.
  done.
Qed.

Lemma beyond_budget fuel items d n :
  depth (locations (flat_index items)) d n → fuel ≤ d →
  build_graph fuel items = Raise RecursionError ∧
  build_items_index fuel items = Raise RecursionError.
Proof.
  intros Hd Hfuel.
  destruct (flat_index_NoDup items) as (_ & HL & _).
  destruct (assemble_hierarchy (flat_index items))
    as (st2 & Hinv2 & Hen2 & Hasm).
  pose proof (graph_inv_shape _ _ _ _ Hinv2) as Hshape2.
  assert (lookup_ok (locations (flat_index items))
            (equipment (flat_index items)) st2) as Hok2.
  { intros k v. by rewrite Hen2, lookup_empty. }
  apply depth_iff_below_root in Hd as (r & Hr & Hb).
  assert (foldM (collect_equipment_nodes fuel) (semantic_tree st2) st2
          = Raise RecursionError) as Hraise.
  { apply (foldM_raises
             (λ s, frame st2 s ∧
                   lookup_ok (locations (flat_index items))
                             (equipment (flat_index items)) s) _ _ _ r).
    - by destruct Hinv2 as (-> & _).
    - by split; [apply frame_refl|].
    - intros s r' Hr' [Fs Hs]. destruct Hinv2 as (Hroots & _).
      rewrite Hroots in Hr'.
      destruct (collect_safe (locations (flat_index items))
                  (equipment (flat_index items)) fuel r' s)
        as [(s' & ? & ? & ?)|?]; [| | | |by right].
      + by eapply shape_frame.
      + done.
      + by apply roots_of_keys in Hr'.
      + left. exists s'. split; [done|]. split; [by eapply frame_trans|done].
    - intros s [Fs Hs].
      apply (collect_raises (locations (flat_index items))
               (equipment (flat_index items)) fuel r d n);
        [by eapply shape_frame|done|by apply roots_of_keys in Hr|done|done]. }
  assert (build_graph fuel items = Raise RecursionError) as Hg.
  { unfold build_graph. by rewrite Hasm, Hraise. }
  split; [done|]. unfold build_items_index. by rewrite Hg.
Qed.

(** Either every location below [n] is less than [fuel] steps away, or
    one is exactly [fuel] steps away. *)
Lemma Forall_or_Exists {A : Type} (P Q : A → Prop) (l : list A) :
  (∀ x, x ∈ l → P x ∨ Q x) → Forall P l ∨ Exists Q l.
Proof.
  induction l as [|x l IH]; intros H; [left; constructor|].
  destruct (H x) as [HP|HQ]; [left| |right; by constructor].
  destruct IH as [HF|HE]; [intros y Hy; apply H; by right| |].
  - left. by constructor.
  - right. by constructor.
Qed.

Lemma below_dichotomy L fuel : ∀ n,
  (∀ k m, below L n k m → k < fuel) ∨ ∃ m, below L n fuel m.
Proof.
  induction fuel as [|fuel IH]; intros n.
  - right. exists n. constructor.
  - destruct (Forall_or_Exists
                (λ c, ∀ k m, below L c k m → k < fuel)
                (λ c, ∃ m, below L c fuel m)
                (members_of L L n)) as [HF|HE]; [intros c _; apply IH| |].
    + left. intros k m Hb. inversion Hb as [|? c k' ? Hc Hb']; subst; [lia|].
      rewrite Forall_forall in HF. apply (HF c Hc) in Hb'. lia.
    + right. apply Exists_exists in HE as (c & Hc & m & Hb).
      exists m. by econstructor.
Qed.

Lemma depth_dichotomy L fuel :
  (∀ d n, depth L d n → d < fuel) ∨ ∃ n, depth L fuel n.
Proof.
  destruct (Forall_or_Exists
              (λ r, ∀ k m, below L r k m → k < fuel)
              (λ r, ∃ m, below L r fuel m)
              (roots_of L L)) as [HF|HE];
    [intros r _; apply below_dichotomy| |].
  - left. intros d n (r & Hr & Hb)%depth_iff_below_root.
    rewrite Forall_forall in HF. by apply (HF r Hr) in Hb.
  - right. apply Exists_exists in HE as (r & Hr & m & Hb).
    exists m. apply depth_iff_below_root. by exists r.
Qed.

(** X1: the run returns as soon as the recursion budget exceeds the
    nesting depth of every location that is reachable from a root, and it
    returns what it returns under any larger budget. *)
Theorem budget_sufficient (fuel : nat) (items : list Item) :
  (∀ d n, depth (locations (flat_index items)) d n → d < fuel) →
  ∃ out, build_items_index fuel items = Ok out ∧
         ∀ fuel', length items ≤ fuel' →
                  build_items_index fuel' items = Ok out.
Proof. apply within_budget. Qed.

(** X2: when some reachable location is nested as deep as the recursion
    budget, the run raises [RecursionError], and nothing else. *)
Theorem budget_exceeded (fuel : nat) (items : list Item) (d : nat)
    (n : string) :
  depth (locations (flat_index items)) d n → fuel ≤ d →
  build_graph fuel items = Raise RecursionError ∧
  build_items_index fuel items = Raise RecursionError.
Proof. apply beyond_budget. Qed.

(** X9: the only exception of [build_items_index] is [RecursionError]
    (no [KeyError] from any of its dict lookups), and it is raised only
    when some location is nested as deep as the budget, which is then
    smaller than the number of records. *)
Theorem only_recursion_error (fuel : nat) (items : list Item) (e : exn) :
  build_items_index fuel items = Raise e →
  e = RecursionError ∧
  (∃ n, depth (locations (flat_index items)) fuel n) ∧
  fuel < length items.
Proof.
  intros Hraise.
  destruct (flat_index_NoDup items) as (_ & HL & _).
  destruct (depth_dichotomy (locations (flat_index items)) fuel)
    as [Hin|[n Hn]].
  - destruct (within_budget fuel items Hin) as (out & Hout & _). congruence.
  - destruct (beyond_budget fuel items fuel n Hn (le_n _)) as [_ Hr].
    split; [congruence|]. split; [by exists n|].
    apply depth_bound in Hn; [|done].
    pose proof (flat_index_length items). lia.
Qed.

(** ** Nested locations beyond the budget *)

Lemma repeat_char_length c k : String.length (repeat_char c k) = k.
Proof. induction k as [|k IH]; simpl; [done|by rewrite IH]. Qed.

Lemma nest_name_inj i j : nest_name i = nest_name j → i = j.
Proof.
  intros H. apply (f_equal String.length) in H. unfold nest_name in H.
  rewrite !repeat_char_length in H. lia.
Qed.

Lemma nested_item_key i : item_key (nested_item i) = Some (nest_name i).
Proof. reflexivity. Qed.

Lemma nested_item_location i k :
  location_keyed k (nested_item i) ↔ k = nest_name i.
Proof.
  unfold location_keyed. rewrite nested_item_key. split.
  - by intros [[= <-] _].
  - intros ->. split; reflexivity.
Qed.

Lemma elem_of_nested n it :
  it ∈ nested n ↔ ∃ i, i ≤ n ∧ it = nested_item i.
Proof.
  unfold nested. rewrite list_elem_of_fmap. split.
  - intros (i & -> & Hi%elem_of_seq). exists i. split; [lia|done].
  - intros (i & Hi & ->). exists i. split; [done|]. apply elem_of_seq. lia.
Qed.

Lemma nested_locations n i :
  i ≤ n →
  nest_name i ∈ od_keys (locations (flat_index (nested n))) ∧
  (nest_name i, make_aux (nest_name i) (nested_item i))
    ∈ locations (flat_index (nested n)).
Proof.
  intros Hi.
  assert (nest_name i ∈ od_keys (locations (flat_index (nested n)))) as Hk.
  { apply elem_of_locations. exists (nested_item i).
    split; [apply elem_of_nested; by exists i|by apply nested_item_location]. }
  split; [done|].
  pose proof Hk as [a Ha]%od_get_is_Some.
  pose proof Ha as Ha'. rewrite flat_index_get_location in Ha'.
  destruct (last _) as [it|] eqn:Hl; [|done]. injection Ha' as <-.
  apply last_Some_elem_of, list_elem_of_filter in Hl as [Hkey Hin].
  apply elem_of_nested in Hin as (j & _ & ->).
  apply nested_item_location, nest_name_inj in Hkey as <-.
  by apply od_get_elem.
Qed.

Lemma nested_depth n i :
  i ≤ n → depth (locations (flat_index (nested n))) i (nest_name i).
Proof.
  induction i as [|i IH]; intros Hi.
  - apply depth_root, elem_of_roots_of.
    exists (make_aux (nest_name 0) (nested_item 0)).
    split; [by apply nested_locations|reflexivity].
  - apply (depth_child _ _ (nest_name i)); [|apply IH; lia].
    apply elem_of_members_of.
    exists (make_aux (nest_name (S i)) (nested_item (S i))).
    split; [by apply nested_locations|].
    change (aux_groupNames _) with [nest_name i].
    unfold first_location, candidates.
    rewrite filter_cons_True; [done|]. apply nested_locations. lia.
Qed.

Lemma nested_raises fuel :
  build_items_index fuel (nested fuel) = Raise RecursionError.
Proof.
  apply (beyond_budget fuel (nested fuel) fuel (nest_name fuel));
    [by apply nested_depth|done].
Qed.

Lemma nested_length n : length (nested n) = S n.
Proof. unfold nested. by rewrite length_fmap, length_seq. Qed.

(** C7: [build_items_index] raises no [KeyError]: a missing name, missing
    tags, group names or metadata, and equipment or points without a
    parent are skipped or omitted.  It returns its result under every
    recursion budget above the nesting depth of the locations, so under
    every budget of at least the number of records; under a budget that
    some location reaches it raises [RecursionError]. *)
Theorem C7_never_raises (items : list Item) :
  ∃ out,
    (∀ fuel, length items ≤ fuel → build_items_index fuel items = Ok out) ∧
    ∀ fuel,
      ((∀ d n, depth (locations (flat_index items)) d n → d < fuel) ∧
       build_items_index fuel items = Ok out) ∨
      ((∃ n, depth (locations (flat_index items)) fuel n) ∧
       fuel < length items ∧
       build_items_index fuel items = Raise RecursionError).
Proof.
  destruct (build_items_index_spec (length items) items (le_n _))
    as (_ & out & _ & Hout & _).
  assert (∀ fuel, length items ≤ fuel →
                  build_items_index fuel items = Ok out) as Hany
    by (intros fuel ?; by eapply build_items_index_mono).
  exists out. split; [done|]. intros fuel.
  destruct (flat_index_NoDup items) as (_ & HL & _).
  destruct (depth_dichotomy (locations (flat_index items)) fuel)
    as [Hin|[n Hn]].
  - left. split; [done|].
    destruct (within_budget fuel items Hin) as (out' & Hout' & Hbig).
    rewrite Hout'. f_equal.
    specialize (Hbig _ (le_n _)). specialize (Hany _ (le_n _)). congruence.
  - right. split; [by exists n|].
    destruct (beyond_budget fuel items fuel n Hn (le_n _)) as [_ Hr].
    split; [|done]. apply depth_bound in Hn; [|done].
    pose proof (flat_index_length items). lia.
Qed.

(** C7, as stated, fails: no recursion budget is enough for every
    input.  A chain of nested locations that is longer than the budget
    raises [RecursionError]; so does a chain of 1001 locations under a
    budget of 1000. *)
Lemma C7_counterexample :
  (∀ fuel, length (nested fuel) = S fuel ∧
           build_items_index fuel (nested fuel) = Raise RecursionError) ∧
  build_items_index 1000 (nested 1000) = Raise RecursionError ∧
  ¬ (∃ fuel, ∀ items, ∃ out, build_items_index fuel items = Ok out).
Proof.
  split; [intros fuel; split; [apply nested_length|apply nested_raises]|].
  split; [apply nested_raises|].
  intros (fuel & H). destruct (H (nested fuel)) as [out Hout].
  rewrite nested_raises in Hout. discriminate.
Qed.

(** ** Every result, whatever the budget *)

Lemma build_graph_inv fuel items idx st :
  build_graph fuel items = Ok (idx, st) →
  idx = flat_index items ∧
  graph_inv (locations idx) (locations idx) (equipment idx)
            (items_by_name idx) st ∧
  lookup_ok (locations idx) (equipment idx) st ∧
  lookup_complete (locations idx) (equipment idx) st.
Proof.
  intros Hg.
  apply (build_graph_mono _ (fuel `max` length items)) in Hg; [|lia].
  destruct (build_graph_spec (fuel `max` length items) items)
    as (st' & Hg' & ? & ? & ?); [lia|].
  rewrite Hg' in Hg. injection Hg as <- <-. done.
Qed.

Lemma build_items_index_inv fuel items out :
  build_items_index fuel items = Ok out →
  ∃ st,
    build_graph fuel items = Ok (flat_index items, st) ∧
    graph_inv (locations (flat_index items)) (locations (flat_index items))
              (equipment (flat_index items))
              (items_by_name (flat_index items)) st ∧
    lookup_ok (locations (flat_index items))
              (equipment (flat_index items)) st ∧
    out_items_by_name out = items_by_name (flat_index items) ∧
    Forall2 (tree_ok (locations (flat_index items))
                     (equipment (flat_index items))
                     (items_by_name (flat_index items))
                     (equipment_nodes st))
            (semantic_tree st) (out_semantic_tree out).
Proof.
  intros Hout.
  assert (∃ st, build_graph fuel items = Ok (flat_index items, st)) as [st Hg].
  { unfold build_items_index in Hout.
    destruct (build_graph fuel items) as [[idx st]|] eqn:Hg; [|done].
    destruct (build_graph_inv _ _ _ _ Hg) as (-> & _). by exists st. }
  apply (build_items_index_mono _ (fuel `max` length items)) in Hout; [|lia].
  pose proof (build_graph_mono _ (fuel `max` length items) _ _
                (Nat.le_max_l _ _) Hg) as Hg'.
  destruct (build_items_index_spec (fuel `max` length items) items)
    as (st' & out' & Hg'' & Hout' & ? & ? & ? & ? & _); [lia|].
  rewrite Hg'' in Hg'. injection Hg' as <-.
  rewrite Hout' in Hout. injection Hout as <-.
  by exists st'.
Qed.

Lemma owner_point en L it :
  is_Some (equipment_owner en it) ∨ is_Some (location_owner en L it) →
  isPoint (semantic it) = true.
Proof.
  unfold equipment_owner, location_owner.
  destruct (isPoint (semantic it)); [done|]. by intros [[? ?]|[? ?]].
Qed.

(** X3: the forest refers to the flat index only: every location node,
    every equipment node and every point reference of the returned forest
    carries a name that is a key of [items_by_name], and a point
    reference names an entry whose [isPoint] flag is set. *)
Theorem forest_refers_to_index (fuel : nat) (items : list Item)
    (out : Output) :
  build_items_index fuel items = Ok out →
  (∀ m, m ∈ out_semantic_tree out ≫= tree_locations →
        m ∈ od_keys (out_items_by_name out)) ∧
  (∀ x, x ∈ out_semantic_tree out ≫= tree_equipment →
        en_item x ∈ od_keys (out_items_by_name out)) ∧
  (∀ p, p ∈ out_semantic_tree out ≫= tree_point_refs →
        ∃ e, od_get p (out_items_by_name out) = Some e ∧
             isPoint (semantic e) = true).
Proof.
  intros (st & Hg & Hinv & Hok & -> & Hts)%build_items_index_inv.
  destruct (flat_index_NoDup items) as (HI & HL & HE).
  pose proof Hinv as (Hr & _ & _).
  split_and!.
  - intros m Hm.
    apply (elem_of_forest_locations _ _ _ _ _ _ Hr Hts) in Hm as [d Hd].
    apply depth_keys, elem_of_locations in Hd as (it & Hit & Hk & _).
    apply elem_of_items_by_name. by exists it.
  - intros x Hx.
    apply (forest_equipment_placed _ _ _ _ _ _ Hts), elem_of_placed in Hx
      as (a & p & Hin & _).
    assert (en_item x ∈ od_keys (equipment (flat_index items))) as Hk
      by (apply list_elem_of_fmap; by exists (en_item x, a)).
    apply elem_of_equipment in Hk as (it & Hit & Hk & _).
    apply elem_of_items_by_name. by exists it.
  - intros p. rewrite (forest_point_refs _ _ _ _ _ _ Hts).
    intros (m & (it & Hin & Hown)%elem_of_refs_at & _)%list_elem_of_bind.
    exists it. split; [by apply od_elem_get|].
    apply (owner_point (equipment_nodes st) (locations (flat_index items))).
    destruct Hown as [->|(e & -> & _)]; [by right|by left].
Qed.


(** X5: the keys of [items_by_name] are the non-empty names of the input
    in the order of their first occurrence. *)
Theorem items_by_name_order (items : list Item) :
  od_keys (items_by_name (flat_index items)) =
    reverse (remove_dups (reverse (omap item_key items))).
Proof.
  induction items as [|it items IH] using rev_ind; [done|].
  rewrite flat_index_snoc, omap_app. cbn [omap list_omap].
  destruct (item_key it) as [k|] eqn:Hk.
  - rewrite (index_step_keyed _ _ _ Hk). cbn [items_by_name].
    rewrite od_keys_set, reverse_snoc. cbn [remove_dups].
    destruct (decide_rel elem_of k (reverse (omap item_key items)))
      as [Hin|Hnin].
    + rewrite decide_True; [done|].
      rewrite IH, elem_of_reverse, elem_of_remove_dups. done.
    + rewrite decide_False, reverse_cons, IH; [done|].
      rewrite IH, elem_of_reverse, elem_of_remove_dups. done.
  - rewrite (index_step_skip _ _ Hk), app_nil_r. done.
Qed.

Lemma filter_keys_sublist {V : Type} (P : string * V → Prop)
    `{!∀ x, Decision (P x)} (l : odict V) :
  (filter P l).*1 `sublist_of` od_keys l.
Proof. unfold od_keys. apply fmap_sublist, sublist_filter. Qed.

(** X6: every list of the object graph keeps the iteration order of the
    dict it was filled from: the root list and every child list are
    sub-sequences of the keys of [locations], every equipment list of the
    keys of [equipment], every points list of the keys of
    [items_by_name]. *)
Theorem graph_lists_in_dict_order (fuel : nat) (items : list Item)
    (idx : Index) (st : Forest) :
  build_graph fuel items = Ok (idx, st) →
  semantic_tree st `sublist_of` od_keys (locations idx) ∧
  (∀ p cell, location_nodes st !! p = Some cell →
     loc_children_locations cell `sublist_of` od_keys (locations idx) ∧
     loc_equipment cell `sublist_of` od_keys (equipment idx) ∧
     loc_points cell `sublist_of` od_keys (items_by_name idx)) ∧
  (∀ e c, equipment_store st !! e = Some c →
     eq_points c `sublist_of` od_keys (items_by_name idx)).
Proof.
  intros (-> & Hinv & _)%build_graph_inv. split_and!.
  - destruct Hinv as (-> & _). apply filter_keys_sublist.
  - intros p cell
      (_ & _ & -> & -> & ->)%(graph_lookup_location _ _ _ _ _ _ _ Hinv).
    split_and!; apply filter_keys_sublist.
  - intros e c (_ & _ & ->)%(graph_lookup_equipment _ _ _ _ _ _ _ Hinv).
    apply filter_keys_sublist.
Qed.

(** X7: nothing is attached under a node that it does not name as a
    group.  A child location or an equipment is under a group name of
    the last input record of its name that is tagged as a location or
    as equipment; this need not be the record that [items_by_name]
    shows.  A point is under a group name of its entry in
    [items_by_name], which has the group names of the last record of its
    name. *)
Theorem owner_is_own_group (fuel : nat) (items : list Item) (idx : Index)
    (st : Forest) :
  build_graph fuel items = Ok (idx, st) →
  (∀ p cell, location_nodes st !! p = Some cell →
     (∀ n, n ∈ loc_children_locations cell →
        ∃ pre it post,
          items = pre ++ it :: post ∧ location_keyed n it ∧
          (∀ it', it' ∈ post → ¬ location_keyed n it') ∧
          p ∈ or_empty (it_groupNames it)) ∧
     (∀ n, n ∈ loc_equipment cell →
        ∃ pre it post,
          items = pre ++ it :: post ∧ equipment_keyed n it ∧
          (∀ it', it' ∈ post → ¬ equipment_keyed n it') ∧
          p ∈ or_empty (it_groupNames it)) ∧
     (∀ n, n ∈ loc_points cell →
        ∃ e, od_get n (items_by_name idx) = Some e ∧
             isPoint (semantic e) = true ∧ p ∈ groupNames e)) ∧
  (∀ q c, equipment_store st !! q = Some c →
     ∀ n, n ∈ eq_points c →
        ∃ e, od_get n (items_by_name idx) = Some e ∧
             isPoint (semantic e) = true ∧ q ∈ groupNames e) ∧
  (∀ n e, od_get n (items_by_name idx) = Some e →
     ∃ pre it post,
       items = pre ++ it :: post ∧ keyed n it ∧
       (∀ it', it' ∈ post → ¬ keyed n it') ∧
       groupNames e = or_empty (it_groupNames it) ∧
       isPoint (semantic e) = is_point (or_empty (it_tags it))).
Proof.
  intros (-> & Hinv & _)%build_graph_inv.
  destruct (flat_index_NoDup items) as (HI & HL & HE).
  split_and!.
  - intros p cell
      (_ & _ & -> & -> & ->)%(graph_lookup_location _ _ _ _ _ _ _ Hinv).
    split_and!.
    + intros n (a & Hin & Hf)%elem_of_members_of.
      apply (od_elem_get _ _ _ HL) in Hin.
      rewrite flat_index_get_location in Hin.
      destruct (last _) as [it|] eqn:Hl; [|done]. injection Hin as <-.
      apply last_filter_split in Hl as (pre & post & -> & Hk & Hpost).
      exists pre, it, post. split_and!; [done..|].
      by apply first_location_elem in Hf as [_ ?].
    + intros n (a & Hin & Hf)%elem_of_members_of.
      apply (od_elem_get _ _ _ HE) in Hin.
      rewrite flat_index_get_equipment in Hin.
      destruct (last _) as [it|] eqn:Hl; [|done]. injection Hin as <-.
      apply last_filter_split in Hl as (pre & post & -> & Hk & Hpost).
      exists pre, it, post. split_and!; [done..|].
      by apply first_location_elem in Hf as [_ ?].
    + intros n (e & Hin & Hf)%elem_of_loc_points_of. exists e.
      split; [by apply od_elem_get|]. unfold location_owner in Hf.
      destruct (isPoint (semantic e)); [|done]. split; [done|].
      destruct (next_in _ (groupNames e)); [done|].
      by apply first_location_elem in Hf as [_ ?].
  - intros q c (_ & _ & ->)%(graph_lookup_equipment _ _ _ _ _ _ _ Hinv).
    intros n (e & Hin & Hf)%elem_of_eq_points_of. exists e.
    split; [by apply od_elem_get|]. unfold equipment_owner in Hf.
    destruct (isPoint (semantic e)); [|done]. split; [done|].
    by apply next_in_Some in Hf as [_ ?].
  - intros n e He. rewrite flat_index_get_item in He.
    destruct (last _) as [it|] eqn:Hl; [|done]. injection He as <-.
    apply last_filter_split in Hl as (pre & post & -> & Hk & Hpost).
    exists pre, it, post. by split_and!.
Qed.

(** The parent link of a location can outlive its record: [Hall] stays
    under [House] although its entry in [items_by_name] has no group. *)
Example stale_parent_link :
  ∃ out e, build_items_index 3 stale_parent = Ok out ∧
    out_semantic_tree out =
      [mkLocationNode "House" [mkLocationNode "Hall" [] [] []] [] []] ∧
    od_get "Hall" (out_items_by_name out) = Some e ∧
    groupNames e = [] ∧ isLocation (semantic e) = false.
Proof.
  eexists. eexists. split; [vm_compute; reflexivity|].
  split; [reflexivity|]. split; [reflexivity|]. by split.
Qed.

Lemma fmap_bind_list {A B C : Type} (f : B → C) (g : A → list B)
    (l : list A) :
  f <$> (l ≫= g) = l ≫= (λ x, f <$> g x).
Proof.
  induction l as [|x l IH]; [done|].
  by rewrite !bind_cons, fmap_app, IH.
Qed.

Lemma equipment_at_items L E I en m :
  en_item <$> equipment_at L E I en m = members_of L E m.
Proof.
  unfold equipment_at. induction (members_of L E m) as [|e l IH]; [done|].
  by rewrite !fmap_cons, IH.
Qed.

(** X8: an equipment item has at most one node in the returned forest. *)
Theorem forest_equipment_unique (fuel : nat) (items : list Item)
    (out : Output) :
  build_items_index fuel items = Ok out →
  NoDup (en_item <$> (out_semantic_tree out ≫= tree_equipment)).
Proof.
  intros (st & Hg & Hinv & Hok & _ & Hts)%build_items_index_inv.
  destruct (flat_index_NoDup items) as (HI & HL & HE).
  pose proof Hinv as (Hr & _ & _).
  rewrite (forest_equipment _ _ _ _ _ _ Hts), fmap_bind_list.
  rewrite (list_bind_ext _ (members_of (locations (flat_index items))
                              (equipment (flat_index items))) _ _
             (equipment_at_items _ _ _ _) eq_refl).
  apply NoDup_bind.
  - intros m1 m2 x _ _ H1 H2. by eapply members_of_unique_in.
  - intros m _. by apply filter_keys_NoDup.
  - eapply forest_locations_NoDup; [exact HL|exact Hr|exact Hts].
Qed.

(** * The REST root and the runner *)

(** ** Trailing slashes *)

Lemma rstrip_unfold (c a : Ascii.ascii) (s : string) :
  rstrip c (String a s) =
    match rstrip c s with
    | EmptyString =>
        if Ascii.eqb a c then EmptyString else String a EmptyString
    | String b r => String a (String b r)
    end.
Proof. reflexivity. Qed.

Lemma endswith_single_false (a c : Ascii.ascii) (s : string) :
  PyStr.endswith s (String c "") = false →
  (s = "" → a ≠ c) →
  PyStr.endswith (String a s) (String c "") = false.
Proof.
  intros Hs Ha. rewrite endswith_unfold.
  destruct (String.eqb_spec (String a s) (String c "")) as [[= -> ->]|_]; [|done].
  by destruct Ha.
Qed.

Lemma rstrip_spec (c : Ascii.ascii) (s : string) :
  ∃ k, s = rstrip c s +:+ repeat_char c k ∧
       PyStr.endswith (rstrip c s) (String c "") = false.
Proof.
  induction s as [|a s (k & Hs & He)].
  - by exists 0.
  - rewrite rstrip_unfold. destruct (rstrip c s) as [|b r] eqn:Hr.
    + destruct (Ascii.eqb_spec a c) as [->|Hne].
      * exists (S k). split; [|done]. rewrite append_nil_l in *. simpl. by f_equal.
      * exists k. split; [rewrite append_cons; by f_equal|].
        by apply endswith_single_false.
    + exists k. split; [rewrite append_cons; by f_equal|].
      by apply endswith_single_false.
Qed.

(** X10 (line 46): whatever number of slashes the base URL ends with,
    the base that is joined with ["rest/"] is the base without them
    followed by exactly one slash. *)
Theorem base_url_one_slash (base : string) :
  ∃ pre k, base = pre +:+ repeat_char "/" k ∧
           PyStr.endswith pre "/" = false ∧
           rstrip "/" base +:+ "/" = pre +:+ "/".
Proof.
  destruct (rstrip_spec "/" base) as (k & Hb & He).
  by exists (rstrip "/" base), k.
Qed.

(** ** The endpoint map *)

Lemma build_endpoint_map_snoc lks link :
  build_endpoint_map (lks ++ [link]) =
    endpoint_step (build_endpoint_map lks) link.
Proof. unfold build_endpoint_map. by rewrite fold_left_app. Qed.

Lemma usable_url t link :
  usable t link →
  ∃ u, link_url link = Some u ∧ t ≠ "" ∧ u ≠ "".
Proof.
  intros [Ht Hb]. rewrite Ht in Hb. unfold both_truthy in Hb.
  destruct (link_url link) as [u|]; [|done].
  apply andb_true_iff in Hb as [?%truthy_true ?%truthy_true]. by exists u.
Qed.

Lemma endpoint_step_usable m t link u :
  usable t link → link_url link = Some u →
  endpoint_step m link = od_set t u m.
Proof.
  intros [Ht Hb] Hu. unfold endpoint_step. rewrite Ht, Hu in *.
  unfold both_truthy in Hb. by rewrite Hb.
Qed.

Lemma endpoint_step_other m t link :
  ¬ usable t link → od_get t (endpoint_step m link) = od_get t m.
Proof.
  intros Hn. unfold endpoint_step.
  destruct (link_type link) as [t'|] eqn:Ht; [|done].
  destruct (link_url link) as [u|] eqn:Hu; [|done].
  destruct (PyStr.truthy t' && PyStr.truthy u) eqn:Hb; [|done].
  rewrite od_get_set. case_decide as Heq; [|done]. subst t'.
  destruct Hn. split; [done|]. unfold both_truthy. by rewrite Ht, Hu.
Qed.

Lemma endpoint_step_NoDup m link :
  NoDup (od_keys m) → NoDup (od_keys (endpoint_step m link)).
Proof.
  intros Hnd. unfold endpoint_step. repeat case_match; try done.
  by apply od_keys_set_NoDup.
Qed.

Lemma build_endpoint_map_NoDup lks : NoDup (od_keys (build_endpoint_map lks)).
Proof.
  induction lks as [|link lks IH] using rev_ind; [apply NoDup_nil_2|].
  rewrite build_endpoint_map_snoc. by apply endpoint_step_NoDup.
Qed.

Lemma build_endpoint_map_get lks t :
  od_get t (build_endpoint_map lks) =
    last (filter (usable t) lks) ≫= link_url.
Proof.
  induction lks as [|link lks IH] using rev_ind; [done|].
  rewrite build_endpoint_map_snoc, filter_app.
  destruct (decide (usable t link)) as [Hu|Hn].
  - rewrite filter_cons_True, filter_nil, last_snoc by done.
    destruct (usable_url _ _ Hu) as (u & Hurl & _).
    rewrite (endpoint_step_usable _ t link u) by done.
    rewrite od_get_set, decide_True by done. by rewrite <-Hurl.
  - rewrite filter_cons_False, filter_nil, app_nil_r by done.
    by rewrite endpoint_step_other.
Qed.

(** X11 (lines 52-58): the endpoint map gives, for a type, the URL of the
    last link of that type whose type and URL are both non-empty; it has
    each type once and neither an empty type nor an empty URL. *)
Theorem endpoint_map_last_wins (lks : list Link) :
  NoDup (od_keys (build_endpoint_map lks)) ∧
  ∀ t, od_get t (build_endpoint_map lks) =
         last (filter (usable t) lks) ≫= link_url ∧
       ∀ u, od_get t (build_endpoint_map lks) = Some u → t ≠ "" ∧ u ≠ "".
Proof.
  split; [apply build_endpoint_map_NoDup|]. intros t.
  split; [apply build_endpoint_map_get|]. intros u.
  rewrite build_endpoint_map_get.
  destruct (last (filter (usable t) lks)) as [link|] eqn:Hl; [|done].
  apply last_Some_elem_of, list_elem_of_filter in Hl as [Hu _].
  destruct (usable_url _ _ Hu) as (u' & Hurl & ? & ?). csimpl.
  rewrite Hurl. by intros [= <-].
Qed.

(** ** Resolving a link *)

Lemma find_link_enrich root_data t :
  find_link (enrich root_data) t =
    match last (filter (usable t) (default [] (links root_data))) with
    | Some link => link_url link
    | None =>
        head (filter (λ link, link_type link = Some t)
                     (default [] (links root_data))) ≫= link_url
    end.
Proof.
  unfold find_link, enrich. cbn [endpoint_map links default from_option id].
  rewrite build_endpoint_map_get.
  destruct (last _) as [link|] eqn:Hl; csimpl.
  - apply last_Some_elem_of, list_elem_of_filter in Hl as [Hu _].
    destruct (usable_url _ _ Hu) as (u & -> & _). done.
  - by destruct (head _).
Qed.

Lemma fallback_not_truthy lks t :
  t ≠ "" → filter (usable t) lks = [] →
  opt_truthy (head (filter (λ link, link_type link = Some t) lks)
              ≫= link_url) = false.
Proof.
  intros Ht Hnone.
  destruct (head _) as [link|] eqn:Hh; [|done]. csimpl.
  apply head_Some_elem_of, list_elem_of_filter in Hh as [Hty Hin].
  destruct (link_url link) as [u|] eqn:Hu; [|done]. simpl.
  destruct (PyStr.truthy u) eqn:Htu; [|done]. exfalso.
  assert (link ∈ filter (usable t) lks) as Hin'.
  { apply list_elem_of_filter. split; [|done]. split; [done|].
    unfold both_truthy. rewrite Hty, Hu, Htu.
    by apply andb_true_iff, conj, eq_refl; apply truthy_true. }
  rewrite Hnone in Hin'. by apply elem_of_nil in Hin'.
Qed.

Lemma find_link_enrich_truthy root_data t :
  t ≠ "" →
  let found :=
    last (filter (usable t) (default [] (links root_data))) ≫= link_url in
  find_link (enrich root_data) t = found ∨
  (found = None ∧ opt_truthy (find_link (enrich root_data) t) = false).
Proof.
  intros Ht found. subst found. rewrite find_link_enrich.
  destruct (last _) as [link|] eqn:Hl; [by left|right].
  split; [done|]. apply fallback_not_truthy; [done|].
  by apply last_None.
Qed.

(** X12 (lines 52-58, 79-91): on the root that [fetch_rest_root]
    returns, [find_link] for a non-empty type gives a non-empty URL
    exactly when that is the URL of the last link of the type with
    non-empty type and URL; the scan of the links never adds one. *)
Theorem find_link_enriched (root_data : Root) (t u : string) :
  t ≠ "" → u ≠ "" →
  find_link (enrich root_data) t = Some u ↔
  last (filter (usable t) (default [] (links root_data))) ≫= link_url
    = Some u.
Proof.
  intros Ht Hu.
  destruct (find_link_enrich_truthy root_data t Ht) as [->|[Hn Hf]]; [done|].
  rewrite Hn. split; [|done]. intros Heq. rewrite Heq in Hf. simpl in Hf.
  apply truthy_false in Hf. done.
Qed.

(** The type must be non-empty: for the empty type the endpoint map has
    no entry, and the scan of the links does find a URL. *)
Example find_link_empty_type :
  let root_data :=
    {| version := JNull; locale := JNull; measurementSystem := JNull;
       timezone := JNull; runtimeInfo := JNull;
       links := Some [mkLink (Some "") (Some "http://oh:8080/rest/")];
       endpoint_map := None |} in
  filter (usable "") (default [] (links root_data)) = [] ∧
  find_link (enrich root_data) "" = Some "http://oh:8080/rest/".
Proof. split; reflexivity. Qed.

(** ** The runner *)

Lemma last_usable_url lks t u :
  last (filter (usable t) lks) ≫= link_url = Some u → t ≠ "" ∧ u ≠ "".
Proof.
  destruct (last _) as [link|] eqn:Hl; [|done]. csimpl. intros Hu.
  apply last_Some_elem_of, list_elem_of_filter in Hl as [Hus _].
  destruct (usable_url _ _ Hus) as (u' & Hurl & ? & ?).
  rewrite Hurl in Hu. by injection Hu as <-.
Qed.

Lemma fetch_items_enrich TOKEN server_items root_data :
  fetch_items TOKEN server_items (enrich root_data) =
    match last (filter (usable "items") (default [] (links root_data)))
          ≫= link_url with
    | Some url => request TOKEN url 30 server_items
    | None => io_raise (RuntimeError "No 'items' link found in /rest/ root")
    end.
Proof.
  unfold fetch_items.
  destruct (find_link_enrich_truthy root_data "items") as [->|[-> Hf]];
    [done| |].
  - destruct (last _ ≫= link_url) as [u|] eqn:Hu; [|done].
    apply last_usable_url in Hu as [_ Hu%truthy_true]. by rewrite Hu.
  - destruct (find_link _ _) as [u|]; [|done]. simpl in Hf. by rewrite Hf.
Qed.

(** X13 (lines 79-104): on the root that [fetch_rest_root] returns,
    [fetch_items] requests the URL of the last link of type [items]
    with a non-empty URL, with a timeout of 30 seconds; without such a
    link it raises its [RuntimeError] and makes no request. *)
Theorem fetch_items_enriched (TOKEN : option string)
    (server_items : string → odict string → string + list Item)
    (root_data : Root) :
  fetch_items TOKEN server_items (enrich root_data) =
    match last (filter (usable "items") (default [] (links root_data)))
          ≫= link_url with
    | Some url => request TOKEN url 30 server_items
    | None => io_raise (RuntimeError "No 'items' link found in /rest/ root")
    end.
Proof. apply fetch_items_enrich. Qed.

Lemma find_link_enrich_Some root_data t u :
  last (filter (usable t) (default [] (links root_data))) ≫= link_url
    = Some u →
  find_link (enrich root_data) t = Some u.
Proof.
  intros Hu. rewrite find_link_enrich. by destruct (last _).
Qed.

Lemma make_headers_get (TOKEN : option string) :
  od_get "Accept" (make_headers TOKEN) = Some "application/json" ∧
  ∀ v, od_get "Authorization" (make_headers TOKEN) = Some v ↔
       ∃ token, TOKEN = Some token ∧ token ≠ "" ∧ v = "Bearer " +:+ token.
Proof.
  unfold make_headers. destruct TOKEN as [token|].
  - destruct (PyStr.truthy token) eqn:Ht.
    + apply truthy_true in Ht. rewrite !od_get_set. split; [done|].
      intros v. rewrite decide_True by done. split.
      * intros [= <-]. by exists token.
      * by intros (? & [= <-] & _ & ->).
    + apply truthy_false in Ht as ->. split; [done|]. intros v. split.
      * by intros [=].
      * by intros (? & [= <-] & ? & _).
  - split; [done|]. intros v. split; [by intros [=]|by intros (? & [=] & _)].
Qed.

Ltac run_step := cbn [mbind mret io_bind io_ret app].

Ltac split_cases :=
  repeat match goal with
         | H : _ ∨ _ |- _ => destruct H as [H|H]
         | H : ∃ _, _ |- _ => destruct H as (? & H)
         | H : _ ∧ _ |- _ => destruct H as [? H]
         end.

Section run.

Variables BASE_URL TOKEN : option string.
Variable urljoin : string → string → string.
Variable server_root : string → odict string → string + Root.
Variable server_items : string → odict string → string + list Item.
Variable open_file : OutFile → option string.
Variable json_dump : OutFile → Payload → option string.
Variable fuel : nat.

Local Abbreviation run :=
  (main BASE_URL TOKEN urljoin server_root server_items open_file json_dump
        fuel).
Local Abbreviation hdrs := (make_headers TOKEN).
Local Abbreviation items_url root_data :=
  (last (filter (usable "items") (default [] (links root_data)))
   ≫= link_url).
Local Abbreviation no_base := (RuntimeError "OPENHAB_BASE_URL is not set").
Local Abbreviation no_items :=
  (RuntimeError "No 'items' link found in /rest/ root").

(** Every run, by the step at which it ends. *)
Lemma main_cases :
  ((BASE_URL = None ∨ BASE_URL = Some "") ∧ run = Io [] (inl no_base)) ∨
  ∃ base, BASE_URL = Some base ∧ base ≠ "" ∧
  let rest_url := urljoin (rstrip "/" base +:+ "/") "rest/" in
  let get_root := [Requested rest_url hdrs 10] in
  (∃ d, server_root rest_url hdrs = inl d ∧
        run = Io get_root (inl (RequestError d))) ∨
  ∃ root_data, server_root rest_url hdrs = inr root_data ∧
  let root := RootJson (enrich root_data) in
  let wrote_root :=
    get_root ++ [Opened REST_ROOT_FILE; Dumped REST_ROOT_FILE root;
                 Printed "Wrote REST root -> " REST_ROOT_FILE] in
  (∃ d, open_file REST_ROOT_FILE = Some d ∧
        run = Io get_root (inl (OpenError d))) ∨
  (∃ d, json_dump REST_ROOT_FILE root = Some d ∧
        run = Io (get_root ++ [Opened REST_ROOT_FILE]) (inl (DumpError d))) ∨
  (items_url root_data = None ∧ run = Io wrote_root (inl no_items)) ∨
  ∃ url, items_url root_data = Some url ∧
  let get_items := wrote_root ++ [Requested url hdrs 30] in
  (∃ d, server_items url hdrs = inl d ∧
        run = Io get_items (inl (RequestError d))) ∨
  ∃ items, server_items url hdrs = inr items ∧
  let wrote_items :=
    get_items ++ [Opened RAW_ITEMS_FILE;
                  Dumped RAW_ITEMS_FILE (ItemsJson items);
                  Printed "Wrote raw items -> " RAW_ITEMS_FILE] in
  (∃ d, open_file RAW_ITEMS_FILE = Some d ∧
        run = Io get_items (inl (OpenError d))) ∨
  (∃ d, json_dump RAW_ITEMS_FILE (ItemsJson items) = Some d ∧
        run = Io (get_items ++ [Opened RAW_ITEMS_FILE])
                 (inl (DumpError d))) ∨
  (∃ e, build_items_index fuel items = Raise e ∧
        run = Io wrote_items (inl (BuildError e))) ∨
  ∃ index, build_items_index fuel items = Ok index ∧
  ((∃ d, open_file INDEX_FILE = Some d ∧
         run = Io wrote_items (inl (OpenError d))) ∨
   (∃ d, json_dump INDEX_FILE (IndexJson index) = Some d ∧
         run = Io (wrote_items ++ [Opened INDEX_FILE])
                  (inl (DumpError d))) ∨
   run = Io (wrote_items ++ [Opened INDEX_FILE;
                             Dumped INDEX_FILE (IndexJson index);
                             Printed "Wrote index -> " INDEX_FILE])
            (inr tt)).
Proof.
  unfold main, fetch_rest_root.
  destruct BASE_URL as [base|]; [|left; split; [by left|done]].
  destruct (PyStr.truthy base) eqn:Hbase;
    [|apply truthy_false in Hbase as ->; left; split; [by right|done]].
  apply truthy_true in Hbase. right. exists base. split; [done|].
  split; [done|]. set (rest_url := urljoin _ _).
  unfold request, dump, lift_build, io_raise, emit.
  destruct (server_root rest_url hdrs) as [d|root_data] eqn:Hroot;
    [left; by exists d|].
  right. exists root_data. split; [done|]. run_step.
  destruct (open_file REST_ROOT_FILE) as [d|] eqn:Ho1; [left; by exists d|].
  right. run_step.
  destruct (json_dump REST_ROOT_FILE _) as [d|] eqn:Hd1;
    [left; by exists d|].
  right. run_step. rewrite fetch_items_enrich.
  destruct (items_url root_data) as [url|] eqn:Hurl; [|by left].
  right. exists url. split; [done|].
  unfold request. run_step.
  destruct (server_items url hdrs) as [d|items] eqn:Hitems;
    [left; by exists d|].
  right. exists items. split; [done|]. run_step.
  destruct (open_file RAW_ITEMS_FILE) as [d|] eqn:Ho2; [left; by exists d|].
  right. run_step.
  destruct (json_dump RAW_ITEMS_FILE _) as [d|] eqn:Hd2;
    [left; by exists d|].
  right. run_step.
  destruct (build_items_index fuel items) as [index|e] eqn:Hbuild;
    [|left; by exists e].
  right. exists index. split; [done|]. run_step.
  destruct (open_file INDEX_FILE) as [d|] eqn:Ho3; [left; by exists d|].
  right. run_step.
  destruct (json_dump INDEX_FILE _) as [d|] eqn:Hd3;
    [left; by exists d|by right].
Qed.

End run.


(** X15 (lines 38-104, 227-241): a run that ends without an exception
    has requested the root and then the items URL that the root
    announces, and has opened and written three files, the enriched
    root, the items as received and the index built from these items,
    in this order and nothing else. *)
Theorem main_success_trace (BASE_URL TOKEN : option string)
    (urljoin : string → string → string)
    (server_root : string → odict string → string + Root)
    (server_items : string → odict string → string + list Item)
    (open_file : OutFile → option string)
    (json_dump : OutFile → Payload → option string) (fuel : nat) :
  let run := main BASE_URL TOKEN urljoin server_root server_items
                  open_file json_dump fuel in
  io_result run = inr tt →
  ∃ base root_data items_url items index,
    let rest_url := urljoin (rstrip "/" base +:+ "/") "rest/" in
    let headers := make_headers TOKEN in
    BASE_URL = Some base ∧
    server_root rest_url headers = inr root_data ∧
    find_link (enrich root_data) "items" = Some items_url ∧
    server_items items_url headers = inr items ∧
    build_items_index fuel items = Ok index ∧
    io_log run =
      [Requested rest_url headers 10;
       Opened REST_ROOT_FILE;
       Dumped REST_ROOT_FILE (RootJson (enrich root_data));
       Printed "Wrote REST root -> " REST_ROOT_FILE;
       Requested items_url headers 30;
       Opened RAW_ITEMS_FILE;
       Dumped RAW_ITEMS_FILE (ItemsJson items);
       Printed "Wrote raw items -> " RAW_ITEMS_FILE;
       Opened INDEX_FILE;
       Dumped INDEX_FILE (IndexJson index);
       Printed "Wrote index -> " INDEX_FILE].
Proof.
  intros run Hok. subst run.
  pose proof (main_cases BASE_URL TOKEN urljoin server_root server_items
                open_file json_dump fuel) as H.
  cbv zeta in H. split_cases; rewrite H in Hok; try discriminate Hok.
  rewrite H. eexists _, _, _, _, _. cbv zeta.
  split_and!; try eassumption; [|reflexivity].
  by apply find_link_enrich_Some.
Qed.

(** X16 (lines 23-27, 38-50, 94-104): every request of a run carries the
    [Accept] header, and an [Authorization] header exactly when the
    token is set and non-empty; no request is made without a base URL;
    a request is either the one for the root, with a timeout of 10
    seconds, or the one for the items, with 30 seconds, to the non-empty
    URL found in a root that the server returned. *)
Theorem requests_of_a_run (BASE_URL TOKEN : option string)
    (urljoin : string → string → string)
    (server_root : string → odict string → string + Root)
    (server_items : string → odict string → string + list Item)
    (open_file : OutFile → option string)
    (json_dump : OutFile → Payload → option string) (fuel : nat)
    (url : string) (headers : odict string) (timeout : nat) :
  Requested url headers timeout ∈
    io_log (main BASE_URL TOKEN urljoin server_root server_items
                 open_file json_dump fuel) →
  od_get "Accept" headers = Some "application/json" ∧
  (∀ v, od_get "Authorization" headers = Some v ↔
        ∃ token, TOKEN = Some token ∧ token ≠ "" ∧
                 v = "Bearer " +:+ token) ∧
  ∃ base, BASE_URL = Some base ∧ base ≠ "" ∧
    let rest_url := urljoin (rstrip "/" base +:+ "/") "rest/" in
    (url = rest_url ∧ timeout = 10) ∨
    (timeout = 30 ∧ url ≠ "" ∧
     ∃ root_data, server_root rest_url headers = inr root_data ∧
                  find_link (enrich root_data) "items" = Some url).
Proof.
  intros Hin.
  assert (headers = make_headers TOKEN ∧
          ∃ base, BASE_URL = Some base ∧ base ≠ "" ∧
            let rest_url := urljoin (rstrip "/" base +:+ "/") "rest/" in
            (url = rest_url ∧ timeout = 10) ∨
            (timeout = 30 ∧ url ≠ "" ∧
             ∃ root_data,
               server_root rest_url (make_headers TOKEN) = inr root_data ∧
               find_link (enrich root_data) "items" = Some url))
    as [-> Hbase].
  { pose proof (main_cases BASE_URL TOKEN urljoin server_root server_items
                  open_file json_dump fuel) as H.
    cbv zeta in H |- *. split_cases; rewrite H in Hin; clear H; cbn in Hin;
      repeat match goal with
             | H : _ ∈ [] |- _ => by apply elem_of_nil in H
             | H : _ ∈ _ :: _ |- _ =>
                 apply elem_of_cons in H as [[= -> -> ->]|H]
             | H : _ ∈ _ :: _ |- _ => apply elem_of_cons in H as [[=]|H]
             end;
      (split; [done|]); eexists; (split; [eassumption|]); (split; [done|]).
    all: try by left.
    all: right; split; [done|];
      match goal with
      | H : _ ≫= link_url = Some _ |- _ =>
          split; [by apply last_usable_url in H as [_ ?]|];
          eexists; split; [eassumption|by apply find_link_enrich_Some]
      end. }
  destruct (make_headers_get TOKEN) as [Hacc Hauth]. done.
Qed.

(** A run can fail with [index.json] on the disk: the file is opened
    before [json.dump] raises. *)
Example index_left_incomplete :
  io_result failing_run = inl (DumpError "RecursionError") ∧
  opened_files (io_log failing_run) =
    [REST_ROOT_FILE; RAW_ITEMS_FILE; INDEX_FILE] ∧
  dumped_files (io_log failing_run) = [REST_ROOT_FILE; RAW_ITEMS_FILE].
Proof. split_and!; vm_compute; reflexivity. Qed.

(** * The further properties at sample inputs *)

Lemma budget_sufficient_witness :
  (∀ d n, depth (locations (flat_index tie_break)) d n → d < 2) ∧
  ∃ out, build_items_index 2 tie_break = Ok out ∧
         build_items_index 3 tie_break = Ok out.
Proof.
  assert (Hd : ∀ d n, depth (locations (flat_index tie_break)) d n → d < 2).
  { intros d n Hd. destruct Hd as [r _|n p d Hn Hp]; [lia|].
    destruct Hp as [r _|p q d Hp _]; [lia|]. exfalso.
    apply elem_of_members_of in Hn as (a & Ha & Hn).
    apply elem_of_members_of in Hp as (b & Hb & Hp).
    let v := eval vm_compute in (locations (flat_index tie_break)) in
    change (locations (flat_index tie_break)) with v in Ha, Hb.
    repeat match goal with
           | H : _ ∈ [] |- _ => by apply elem_of_nil in H
           | H : _ ∈ _ :: _ |- _ => apply elem_of_cons in H as [[= -> ->]|H]
           end; vm_compute in Hn, Hp; congruence. }
  split; [exact Hd|].
  destruct (budget_sufficient 2 tie_break Hd) as (out & H2 & H3).
  exists out. split; [exact H2|]. apply H3. simpl. lia.
Defined.

Lemma budget_exceeded_witness :
  depth (locations (flat_index tie_break)) 1 "Room" ∧ 1 ≤ 1 ∧
  build_items_index 1 tie_break = Raise RecursionError.
Proof.
  assert (Hd : depth (locations (flat_index tie_break)) 1 "Room").
  { apply (depth_child _ "Room" "GroupA" 0).
    - vm_compute. constructor.
    - apply depth_root. vm_compute. constructor. }
  split; [exact Hd|]. split; [lia|].
  apply (budget_exceeded 1 tie_break 1 "Room" Hd). lia.
Defined.

Lemma forest_refers_to_index_witness :
  ∃ out, build_items_index 3 scenario = Ok out ∧
    ∀ p, p ∈ out_semantic_tree out ≫= tree_point_refs →
         ∃ e, od_get p (out_items_by_name out) = Some e ∧
              isPoint (semantic e) = true.
Proof.
  eexists. split; [vm_compute; reflexivity|].
  apply (forest_refers_to_index 3 scenario). vm_compute. reflexivity.
Defined.


Lemma graph_lists_in_dict_order_witness :
  ∃ idx st, build_graph 3 tie_break = Ok (idx, st) ∧
    semantic_tree st `sublist_of` od_keys (locations idx).
Proof.
  eexists. eexists. split; [vm_compute; reflexivity|].
  apply (graph_lists_in_dict_order 3 tie_break). vm_compute. reflexivity.
Defined.

Lemma owner_is_own_group_witness :
  ∃ idx st, build_graph 3 stale_parent = Ok (idx, st) ∧
    ∀ p cell, location_nodes st !! p = Some cell →
      ∀ n, n ∈ loc_children_locations cell →
        ∃ pre it post,
          stale_parent = pre ++ it :: post ∧ location_keyed n it ∧
          (∀ it', it' ∈ post → ¬ location_keyed n it') ∧
          p ∈ or_empty (it_groupNames it).
Proof.
  eexists. eexists. split; [vm_compute; reflexivity|].
  intros p cell Hcell.
  refine (proj1 (proj1 (owner_is_own_group 3 stale_parent _ _ _) p cell Hcell)).
  vm_compute. reflexivity.
Defined.

Lemma forest_equipment_unique_witness :
  ∃ out, build_items_index 3 scenario = Ok out ∧
    NoDup (en_item <$> (out_semantic_tree out ≫= tree_equipment)).
Proof.
  eexists. split; [vm_compute; reflexivity|].
  apply (forest_equipment_unique 3 scenario). vm_compute. reflexivity.
Defined.

Lemma only_recursion_error_witness :
  build_items_index 1 tie_break = Raise RecursionError ∧
  1 < length tie_break.
Proof.
  assert (H : build_items_index 1 tie_break = Raise RecursionError)
    by (vm_compute; reflexivity).
  split; [exact H|].
  by destruct (only_recursion_error 1 tie_break RecursionError H)
    as (_ & _ & ?).
Defined.


Lemma find_link_enriched_witness :
  "items" ≠ "" ∧ "http://oh:8080/rest/items" ≠ "" ∧
  find_link (enrich sample_root) "items" = Some "http://oh:8080/rest/items".
Proof.
  split; [done|]. split; [done|].
  apply (find_link_enriched sample_root "items" "http://oh:8080/rest/items");
    [done|done|reflexivity].
Defined.

Lemma main_success_trace_witness :
  io_result sample_run = inr tt ∧ length (io_log sample_run) = 11.
Proof.
  assert (Hok : io_result sample_run = inr tt) by (vm_compute; reflexivity).
  split; [exact Hok|].
  destruct (main_success_trace _ _ _ _ _ _ _ _ Hok)
    as (base & root_data & items_url & items & index & _ & _ & _ & _ & _ & Hl).
  unfold sample_run. rewrite Hl. reflexivity.
Defined.

Lemma requests_of_a_run_witness :
  Requested "http://oh:8080/rest/items" (make_headers (Some "secret")) 30
    ∈ io_log sample_run ∧
  od_get "Authorization" (make_headers (Some "secret")) =
    Some "Bearer secret".
Proof.
  assert (Hin : Requested "http://oh:8080/rest/items"
                  (make_headers (Some "secret")) 30 ∈ io_log sample_run).
  { vm_compute. do 5 constructor. }
  split; [exact Hin|].
  destruct (requests_of_a_run _ _ _ _ _ _ _ _ _ _ _ Hin) as (_ & Hauth & _).
  apply Hauth. by exists "secret".
Defined.
